(** * wgsl-plus: tokenizer, preprocessor and obfuscator

    A shallow embedding of the text-processing core of wgsl-plus
    (tokenizer, macro expander, expression evaluator, conditional
    processor, obfuscator) together with the properties its
    specification states about it.

    Conventions of the embedding.
    - A JavaScript string is a [string]: a sequence of code units.  The
      development covers the code units 0..255; the regular-expression
      classes [\s], [\w], [\d], [\b] and [.] are the ECMAScript ones
      restricted to that range.
    - Every regular expression of the source is written out as a matcher
      function; the comment above each matcher quotes the expression
      (with [\x22] for the double quote and [{0,}] for a star that stands
      directly before a closing parenthesis).
    - [throw] is modelled by the [Throw] constructor of [Completion].
    - A JavaScript [Map] is an association list in insertion order
      (module [JsMap]). *)

From Stdlib Require Import Bool Arith Lia List Ascii String NArith.
Import ListNotations.
Open Scope string_scope.

(** ** Completions: a value or a thrown exception *)

Inductive JsError : Type :=
| Error (message : string)
| TypeError (message : string).

Inductive Completion (A : Type) : Type :=
| Return (a : A)
| Throw (e : JsError).
Arguments Return {A} a.
Arguments Throw {A} e.

Definition bind {A B} (c : Completion A) (k : A -> Completion B) : Completion B :=
  match c with
  | Return a => k a
  | Throw e => Throw e
  end.

Notation "x <- c ;; k" := (bind c (fun x => k))
  (at level 61, c at next level, right associativity).

(** ** Characters *)

Definition code (c : ascii) : N := N_of_ascii c.

Definition inRange (lo hi : N) (c : ascii) : bool :=
  (lo <=? code c)%N && (code c <=? hi)%N.

(** [\d] *)
Definition isDigit (c : ascii) : bool := inRange 48 57 c.

(** [[a-zA-Z]] *)
Definition isLetter (c : ascii) : bool := inRange 65 90 c || inRange 97 122 c.

(** [[a-zA-Z_]] *)
Definition isIdentStart (c : ascii) : bool := isLetter c || (code c =? 95)%N.

(** [\w], that is [[a-zA-Z0-9_]] *)
Definition isWord (c : ascii) : bool := isIdentStart c || isDigit c.

(** [[0-9a-fA-F]] *)
Definition isHex (c : ascii) : bool :=
  isDigit c || inRange 65 70 c || inRange 97 102 c.

(** [\s] (tab, line feed, vertical tab, form feed, carriage return, space,
    no-break space); also the set removed by [String.prototype.trim]. *)
Definition isSpace (c : ascii) : bool :=
  inRange 9 13 c || (code c =? 32)%N || (code c =? 160)%N.

(** Line terminators, the characters [.] does not match. *)
Definition isLineTerminator (c : ascii) : bool :=
  (code c =? 10)%N || (code c =? 13)%N.

Definition notLineTerminator (c : ascii) : bool := negb (isLineTerminator c).

Definition isChar (a c : ascii) : bool := Ascii.eqb a c.
Definition notChar (a c : ascii) : bool := negb (Ascii.eqb a c).

Arguments isDigit : simpl never.
Arguments isLetter : simpl never.
Arguments isIdentStart : simpl never.
Arguments isWord : simpl never.
Arguments isHex : simpl never.
Arguments isSpace : simpl never.
Arguments isLineTerminator : simpl never.
Arguments isChar : simpl never.
Arguments notChar : simpl never.

(** ** Strings *)

Definition isEmpty (s : string) : bool :=
  match s with "" => true | _ => false end.

Definition str (c : ascii) : string := String c "".

(** The double quote and the single quote. *)
Definition dquote : ascii := ascii_of_nat 34.
Definition squote : ascii := ascii_of_nat 39.

(** [q] between double quotes *)
Definition quoted (q : string) : string := String dquote (q ++ str dquote).

(** The longest prefix whose characters satisfy [p], and what follows. *)
Fixpoint span (p : ascii -> bool) (s : string) : string * string :=
  match s with
  | String c r =>
      if p c then let (a, b) := span p r in (String c a, b) else ("", s)
  | "" => ("", "")
  end.

Fixpoint forallChars (p : ascii -> bool) (s : string) : bool :=
  match s with
  | String c r => p c && forallChars p r
  | "" => true
  end.

(** [s.startsWith(p)], returning the remainder *)
Fixpoint stripPrefix (p s : string) : option string :=
  match p, s with
  | "", _ => Some s
  | String a p', String b s' => if Ascii.eqb a b then stripPrefix p' s' else None
  | String _ _, "" => None
  end.

Definition startsWith (s p : string) : bool :=
  match stripPrefix p s with Some _ => true | None => false end.

(** The text before and after the first occurrence of [pat] in [s]. *)
Fixpoint splitAtFirst (pat s : string) : option (string * string) :=
  match stripPrefix pat s with
  | Some r => Some ("", r)
  | None =>
      match s with
      | String c s' =>
          match splitAtFirst pat s' with
          | Some (a, b) => Some (String c a, b)
          | None => None
          end
      | "" => None
      end
  end.

(** [s.indexOf(pat)]; [None] stands for -1 *)
Definition indexOf (s pat : string) : option nat :=
  match splitAtFirst pat s with
  | Some (a, _) => Some (String.length a)
  | None => None
  end.

(** [s.substring(n)] *)
Fixpoint drop (n : nat) (s : string) : string :=
  match n, s with
  | O, _ => s
  | S n', String _ r => drop n' r
  | S _, "" => ""
  end.

(** [s.substring(0, n)] *)
Fixpoint take (n : nat) (s : string) : string :=
  match n, s with
  | O, _ => ""
  | S n', String c r => String c (take n' r)
  | S _, "" => ""
  end.

(** [s[n]]; [None] stands for undefined *)
Definition charAt (s : string) (n : nat) : option ascii := String.get n s.

Fixpoint reverse (s : string) : string :=
  match s with
  | String c r => reverse r ++ str c
  | "" => ""
  end.

Definition trimStart (s : string) : string := snd (span isSpace s).
Definition trimEnd (s : string) : string := reverse (trimStart (reverse s)).
Definition trim (s : string) : string := trimEnd (trimStart s).

(** Decimal rendering of a number, as template literals do. *)
Definition digitChar (d : nat) : ascii := ascii_of_nat (48 + d).

Fixpoint decimalAux (fuel n : nat) (acc : string) : string :=
  match fuel with
  | O => acc
  | S f =>
      let acc' := String (digitChar (n mod 10)) acc in
      if (n <? 10)%nat then acc' else decimalAux f (n / 10) acc'
  end.

Definition decimal (n : nat) : string := decimalAux (S n) n "".

(** [n.toString(36)] *)
Definition digit36 (d : nat) : ascii :=
  if (d <? 10)%nat then ascii_of_nat (48 + d) else ascii_of_nat (87 + d).

Fixpoint base36Aux (fuel n : nat) (acc : string) : string :=
  match fuel with
  | O => acc
  | S f =>
      let acc' := String (digit36 (n mod 36)) acc in
      if (n <? 36)%nat then acc' else base36Aux f (n / 36) acc'
  end.

Definition toString36 (n : nat) : string := base36Aux (S n) n "".

(** ** JavaScript maps: association lists in insertion order *)

Module JsMap.
Section Defs.
Context {V : Type}.

Definition t := list (string * V).

Fixpoint get (m : t) (k : string) : option V :=
  match m with
  | [] => None
  | (k', v) :: r => if String.eqb k' k then Some v else get r k
  end.

Definition has (m : t) (k : string) : bool :=
  match get m k with Some _ => true | None => false end.

(** [set] keeps the position of a key that is already present and
    appends a new key at the end. *)
Fixpoint set (m : t) (k : string) (v : V) : t :=
  match m with
  | [] => [(k, v)]
  | (k', v') :: r =>
      if String.eqb k' k then (k', v) :: r else (k', v') :: set r k v
  end.

Fixpoint delete (m : t) (k : string) : t :=
  match m with
  | [] => []
  | (k', v') :: r =>
      if String.eqb k' k then r else (k', v') :: delete r k
  end.

Definition entries (m : t) : list (string * V) := m.
Definition size (m : t) : nat := List.length m.
End Defs.
Arguments t V : clear implicits.
End JsMap.

(** [array.push(x)] *)
Definition push {A} (l : list A) (x : A) : list A := (l ++ [x])%list.

(** ** Tokens *)

Inductive TokenType : Type :=
| keyword | identifier | builtin | number | string_ | operator
| attribute | comment | directive | unknown.

Definition TokenType_eqb (a b : TokenType) : bool :=
  match a, b with
  | keyword, keyword | identifier, identifier | builtin, builtin
  | number, number | string_, string_ | operator, operator
  | attribute, attribute | comment, comment | directive, directive
  | unknown, unknown => true
  | _, _ => false
  end.

Record Token : Type := mkToken { type : TokenType; value : string }.

(** ** Tokenizer (tokenizeWgsl.ts)

    Every matcher returns the matched text [match[0]] and the rest of the
    slice. *)

(** [/^\s+/] *)
Definition whitespaceRegex (slice : string) : option (string * string) :=
  let (m, rest) := span isSpace slice in
  if isEmpty m then None else Some (m, rest).

(** [/^\/\/.*|^\/\*[\s\S]*?\*\//]: a line comment runs to the next line
    terminator; a block comment runs to the first [*/] after its opening
    [/*] and does not match when there is none. *)
Definition commentRegex (slice : string) : option (string * string) :=
  match stripPrefix "//" slice with
  | Some r =>
      let (m, rest) := span notLineTerminator r in Some ("//" ++ m, rest)
  | None =>
      match stripPrefix "/*" slice with
      | Some r =>
          match splitAtFirst "*/" r with
          | Some (m, rest) => Some ("/*" ++ m ++ "*/", rest)
          | None => None
          end
      | None => None
      end
  end.

(** [/^#(\w+)\s+\x22([^\x22]+)\x22/], with its two groups ([\x22] is
    the double quote) *)
Definition directiveParts (slice : string)
  : option (string * string * string * string) :=
  match stripPrefix "#" slice with
  | Some r =>
      let (w, r1) := span isWord r in
      if isEmpty w then None else
      let (sp, r2) := span isSpace r1 in
      if isEmpty sp then None else
      match r2 with
      | String c3 r3 =>
          if isChar dquote c3 then
            let (q, r4) := span (notChar dquote) r3 in
            if isEmpty q then None else
            match r4 with
            | String c5 r5 =>
                if isChar dquote c5 then Some (w, sp, q, r5) else None
            | "" => None
            end
          else None
      | "" => None
      end
  | None => None
  end.

Definition directiveRegex (slice : string) : option (string * string) :=
  match directiveParts slice with
  | Some (w, sp, q, rest) => Some ("#" ++ w ++ sp ++ quoted q, rest)
  | None => None
  end.

(** [/^\x22[^\x22]*\x22/] *)
Definition stringRegex (slice : string) : option (string * string) :=
  match slice with
  | String c r =>
      if isChar dquote c then
        let (q, r1) := span (notChar dquote) r in
        match r1 with
        | String c1 rest =>
            if isChar dquote c1 then Some (quoted q, rest) else None
        | "" => None
        end
      else None
  | "" => None
  end.

(** An optional character of a class: [[uif]?], [[f]?] *)
Definition optChar (p : ascii -> bool) (s : string) : string * string :=
  match s with
  | String c r => if p c then (str c, r) else ("", s)
  | "" => ("", "")
  end.

Definition isUIF (c : ascii) : bool :=
  isChar "u" c || isChar "i" c || isChar "f" c.

(** [0[xX][0-9a-fA-F]+[uif]?] *)
Definition hexNumber (slice : string) : option (string * string) :=
  match stripPrefix "0" slice with
  | Some (String x r) =>
      if isChar "x" x || isChar "X" x then
        let (h, r1) := span isHex r in
        if isEmpty h then None else
        let (suf, rest) := optChar isUIF r1 in
        Some ("0" ++ str x ++ h ++ suf, rest)
      else None
  | _ => None
  end.

(** [[0-9]+(\.[0-9]{0,})?[uif]?] *)
Definition decimalNumber (slice : string) : option (string * string) :=
  let (d, r) := span isDigit slice in
  if isEmpty d then None else
  match stripPrefix "." r with
  | Some r1 =>
      let (f, r2) := span isDigit r1 in
      let (suf, rest) := optChar isUIF r2 in
      Some (d ++ "." ++ f ++ suf, rest)
  | None =>
      let (suf, rest) := optChar isUIF r in
      Some (d ++ suf, rest)
  end.

(** [[0-9]*\.[0-9]+[f]?] *)
Definition fractionNumber (slice : string) : option (string * string) :=
  let (d, r) := span isDigit slice in
  match stripPrefix "." r with
  | Some r1 =>
      let (f, r2) := span isDigit r1 in
      if isEmpty f then None else
      let (suf, rest) := optChar (isChar "f") r2 in
      Some (d ++ "." ++ f ++ suf, rest)
  | None => None
  end.

Definition orElse {A} (a b : option A) : option A :=
  match a with Some _ => a | None => b end.

(** [/^(?:0[xX][0-9a-fA-F]+[uif]?|[0-9]+(\.[0-9]{0,})?[uif]?|[0-9]*\.[0-9]+[f]?)/] *)
Definition numberRegex (slice : string) : option (string * string) :=
  orElse (hexNumber slice) (orElse (decimalNumber slice) (fractionNumber slice)).

(** [/^[a-zA-Z_][a-zA-Z0-9_]*/] *)
Definition identifierRegex (slice : string) : option (string * string) :=
  match slice with
  | String c r =>
      if isIdentStart c then
        let (m, rest) := span isWord r in Some (String c m, rest)
      else None
  | "" => None
  end.

(** The parameter list of an attribute, after its opening parenthesis:
    [(?:[^()]+|\([^()]*\))*\)].  [inner] holds inside a nested pair of
    parentheses, where a further opening parenthesis cannot match. *)
Fixpoint attributeArgs (inner : bool) (s : string) : option (string * string) :=
  match s with
  | "" => None
  | String c r =>
      if isChar ")" c then
        if inner then
          match attributeArgs false r with
          | Some (m, rest) => Some (String c m, rest)
          | None => None
          end
        else Some (str c, r)
      else if isChar "(" c then
        if inner then None else
          match attributeArgs true r with
          | Some (m, rest) => Some (String c m, rest)
          | None => None
          end
      else
        match attributeArgs inner r with
        | Some (m, rest) => Some (String c m, rest)
        | None => None
        end
  end.

(** [/^@(?:[a-zA-Z_][a-zA-Z0-9_]{0,})(?:\((?:[^()]+|\([^()]*\))*\))?/] *)
Definition attributeRegex (slice : string) : option (string * string) :=
  match stripPrefix "@" slice with
  | Some r =>
      match identifierRegex r with
      | Some (name, r1) =>
          match stripPrefix "(" r1 with
          | Some r2 =>
              match attributeArgs false r2 with
              | Some (args, rest) => Some ("@" ++ name ++ "(" ++ args, rest)
              | None => Some ("@" ++ name, r1)
              end
          | None => Some ("@" ++ name, r1)
          end
      | None => None
      end
  | None => None
  end.

(** The alternatives of the operator expression, in its order. *)
Definition operators : list string :=
  [ "<<="; ">>="; "+="; "-="; "*="; "/="; "%="; "&="; "|="; "^=";
    "<<"; ">>"; "<="; ">="; "=="; "!="; "&&"; "||"; "->";
    "-"; "+"; "*"; "/"; "%"; "&"; "|"; "^"; "~"; "!"; "<"; ">"; "=";
    "("; ")"; "{"; "}"; "["; "]"; ","; ";"; ":"; "."; "@" ].

Fixpoint firstPrefix (alts : list string) (slice : string)
  : option (string * string) :=
  match alts with
  | [] => None
  | a :: alts' =>
      match stripPrefix a slice with
      | Some rest => Some (a, rest)
      | None => firstPrefix alts' slice
      end
  end.

(** [/^(?:<<=|>>=|\+=|-=|\*=|\/=|%=|&=|\|=|\^=|<<|>>|<=|>=|==|!=|&&|\|\||->|[-+*/%&|^~!<>=(){}[\],;:.@])/] *)
Definition operatorRegex (slice : string) : option (string * string) :=
  firstPrefix operators slice.

(** The error of the tokenizer:
    [`Unexpected character at position ${index}: ${code[index]}`] *)
Definition unexpectedCharacter (index : nat) (c : ascii) : JsError :=
  Error ("Unexpected character at position " ++ decimal index ++ ": " ++ str c).

(** The loop of [tokenizeWgsl].  [slice] is [code.slice(index)]; [None]
    is returned when the fuel runs out, which [tokenizeWgsl] never
    does. *)
Fixpoint tokenizeLoop (wgslKeywords wgslBuiltins : string -> bool)
  (fuel : nat) (slice : string) (index : nat) (tokens : list Token)
  : option (Completion (list Token)) :=
  match fuel with
  | O => None
  | S fuel' =>
      let continue (m rest : string) (tokens' : list Token) :=
        tokenizeLoop wgslKeywords wgslBuiltins fuel' rest
          (index + String.length m) tokens' in
      match slice with
      | "" => Some (Return tokens)
      | String c0 _ =>
          match whitespaceRegex slice with
          | Some (m, rest) => continue m rest tokens
          | None =>
          match commentRegex slice with
          | Some (m, rest) => continue m rest tokens
          | None =>
          match directiveRegex slice with
          | Some (m, rest) => continue m rest (push tokens (mkToken directive m))
          | None =>
          match stringRegex slice with
          | Some (m, rest) => continue m rest (push tokens (mkToken string_ m))
          | None =>
          match numberRegex slice with
          | Some (m, rest) => continue m rest (push tokens (mkToken number m))
          | None =>
          match attributeRegex slice with
          | Some (m, rest) => continue m rest (push tokens (mkToken attribute m))
          | None =>
          match identifierRegex slice with
          | Some (m, rest) =>
              let type :=
                if wgslKeywords m then keyword
                else if wgslBuiltins m then builtin else identifier in
              continue m rest (push tokens (mkToken type m))
          | None =>
          match operatorRegex slice with
          | Some (m, rest) => continue m rest (push tokens (mkToken operator m))
          | None => Some (Throw (unexpectedCharacter index c0))
          end end end end end end end end
      end
  end.

Definition tokenizeWgsl (wgslKeywords wgslBuiltins : string -> bool)
  (code : string) : option (Completion (list Token)) :=
  tokenizeLoop wgslKeywords wgslBuiltins (S (String.length code)) code 0 [].

(** The keyword set of wgsl-keywords.ts. *)
Definition wgslKeywords : list string :=
  [ "array"; "atomic"; "bool"; "f32"; "f16"; "i32"; "mat2x2"; "mat2x3";
    "mat2x4"; "mat3x2"; "mat3x3"; "mat3x4"; "mat4x2"; "mat4x3"; "mat4x4";
    "ptr"; "sampler"; "sampler_comparison"; "texture_1d"; "texture_2d";
    "texture_2d_array"; "texture_3d"; "texture_cube"; "texture_cube_array";
    "texture_multisampled_2d"; "texture_storage_1d"; "texture_storage_2d";
    "texture_storage_2d_array"; "texture_storage_3d"; "u32";
    "vec2"; "vec3"; "vec4";
    "alias"; "bitcast"; "break"; "case"; "const"; "continue"; "continuing";
    "default"; "discard"; "else"; "enable"; "false"; "fn"; "for"; "if";
    "let"; "loop"; "return"; "struct"; "switch"; "true"; "type"; "var";
    "while" ].

Definition setHas (l : list string) (s : string) : bool :=
  existsb (String.eqb s) l.

(** ** What a tokenization covers

    A successful run cuts the input into consecutive segments: text that
    was skipped (a run of whitespace or a comment) and emitted tokens. *)

Inductive Segment : Type :=
| Skipped (text : string)
| Emitted (t : Token).

Definition segmentText (seg : Segment) : string :=
  match seg with
  | Skipped text => text
  | Emitted t => value t
  end.

Fixpoint concatSegments (segs : list Segment) : string :=
  match segs with
  | [] => ""
  | seg :: segs' => segmentText seg ++ concatSegments segs'
  end.

Fixpoint emittedTokens (segs : list Segment) : list Token :=
  match segs with
  | [] => []
  | Skipped _ :: segs' => emittedTokens segs'
  | Emitted t :: segs' => t :: emittedTokens segs'
  end.

(** [s] as a whole is one match of the expression [re]. *)
Definition fullMatch (re : string -> option (string * string)) (s : string)
  : Prop :=
  re s = Some (s, "").

Definition segmentOK (seg : Segment) : Prop :=
  match seg with
  | Skipped text => fullMatch whitespaceRegex text \/ fullMatch commentRegex text
  | Emitted t => value t <> ""
  end.

(** None of the token grammars matches at the start of [slice]. *)
Definition noGrammarMatches (slice : string) : Prop :=
  whitespaceRegex slice = None /\ commentRegex slice = None /\
  directiveRegex slice = None /\ stringRegex slice = None /\
  numberRegex slice = None /\ attributeRegex slice = None /\
  identifierRegex slice = None /\ operatorRegex slice = None.

(** ** The second tokenizer (tokenization/tokenize-wgsl.ts)

    The tokenizer the obfuscator imports: the same expressions, tried in
    another order, with comments emitted as tokens. *)

Module Tokenization.

Definition unexpectedCharacter (c : ascii) : JsError :=
  Error ("Unexpected character: " ++ str c).

Fixpoint tokenizeLoop (wgslKeywords wgslBuiltins : string -> bool)
  (fuel : nat) (slice : string) (tokens : list Token)
  : option (Completion (list Token)) :=
  match fuel with
  | O => None
  | S fuel' =>
      let continue (rest : string) (tokens' : list Token) :=
        tokenizeLoop wgslKeywords wgslBuiltins fuel' rest tokens' in
      match slice with
      | "" => Some (Return tokens)
      | String c0 _ =>
          match whitespaceRegex slice with
          | Some (m, rest) => continue rest tokens
          | None =>
          match commentRegex slice with
          | Some (m, rest) => continue rest (push tokens (mkToken comment m))
          | None =>
          match directiveRegex slice with
          | Some (m, rest) => continue rest (push tokens (mkToken directive m))
          | None =>
          match attributeRegex slice with
          | Some (m, rest) => continue rest (push tokens (mkToken attribute m))
          | None =>
          match stringRegex slice with
          | Some (m, rest) => continue rest (push tokens (mkToken string_ m))
          | None =>
          match numberRegex slice with
          | Some (m, rest) => continue rest (push tokens (mkToken number m))
          | None =>
          match identifierRegex slice with
          | Some (m, rest) =>
              let type :=
                if wgslKeywords m then keyword
                else if wgslBuiltins m then builtin else identifier in
              continue rest (push tokens (mkToken type m))
          | None =>
          match operatorRegex slice with
          | Some (m, rest) => continue rest (push tokens (mkToken operator m))
          | None => Some (Throw (unexpectedCharacter c0))
          end end end end end end end end
      end
  end.

Definition tokenizeWgsl (wgslKeywords wgslBuiltins : string -> bool)
  (code : string) : option (Completion (list Token)) :=
  tokenizeLoop wgslKeywords wgslBuiltins (S (String.length code)) code [].

End Tokenization.

(** ** Obfuscator *)

(** A JavaScript [Set] of strings: a list in insertion order. *)
Definition setAdd (l : list string) (s : string) : list string :=
  if setHas l s then l else push l s.

(** *** swizzles.ts *)

Definition components : list string :=
  ["x"; "y"; "z"; "w"; "r"; "g"; "b"; "a"].

(** [generateCombinations(components, length, prefix, result)], with
    [remaining] standing for [length - prefix.length]: the call adds the
    prefix when nothing remains and otherwise recurses on the prefix
    extended by each component in turn. *)
Fixpoint generateCombinations (remaining : nat) (prefix : string)
  (result : list string) : list string :=
  match remaining with
  | O => setAdd result prefix
  | S n =>
      fold_left
        (fun res component => generateCombinations n (prefix ++ component) res)
        components result
  end.

(** Swizzles of length 1 to 4 *)
Definition generateSwizzles (_ : unit) : list string :=
  fold_left (fun res length => generateCombinations length "" res)
    [1; 2; 3; 4] [].

Definition swizzles : list string := generateSwizzles tt.

(** *** next-name.ts: the name counter is passed along explicitly *)

Definition nextName (index : nat) : string * nat :=
  ("_" ++ toString36 index, S index).

(** *** collect-struct-names.ts *)

Definition isPotentialSwizzle (name : string) : bool :=
  if ((String.length name <? 1) || (4 <? String.length name))%nat then false
  else forallChars (fun char => setHas swizzles (str char)) name.

(** [i + 1 < tokens.length && tokens[i + 1].value === v], for the tokens
    [rest] after index [i] *)
Definition nextValueIs (rest : list Token) (v : string) : bool :=
  match rest with
  | t :: _ => String.eqb (value t) v
  | [] => false
  end.

(** [i + 1 < tokens.length && tokens[i + 1].type === "identifier"] *)
Definition nextIsIdentifier (rest : list Token) : bool :=
  match rest with
  | t :: _ => TokenType_eqb (type t) identifier
  | [] => false
  end.

Definition isKeyword (t : Token) (v : string) : bool :=
  TokenType_eqb (type t) keyword && String.eqb (value t) v.

(** The state of a collection pass: a map and the name counter. *)
Definition registerName (name : string) (st : JsMap.t string * nat)
  : JsMap.t string * nat :=
  let (map, index) := st in
  if JsMap.has map name then st
  else let (n, index') := nextName index in (JsMap.set map name n, index').

(** The loops of [collectStructNames] over the tokens from index [i] on.
    [inBody] holds inside the [while] loop that scans a struct body:
    on [struct] the index moves two tokens ahead and the body is scanned
    up to the next closing brace, which the [for] loop then steps over. *)
Fixpoint collectStructLoop (tokens : list Token) (inBody : bool)
  (st : JsMap.t string * nat) : JsMap.t string * nat :=
  match tokens with
  | [] => st
  | token :: rest =>
      if inBody then
        if String.eqb (value token) "}" then collectStructLoop rest false st
        else if TokenType_eqb (type token) identifier && nextValueIs rest ":" then
          let memberName := value token in
          if negb (isPotentialSwizzle memberName) then
            collectStructLoop rest true (registerName memberName st)
          else collectStructLoop rest true st
        else collectStructLoop rest true st
      else if isKeyword token "struct" then
        match rest with
        | [] => st
        | _ :: rest' => collectStructLoop rest' true st
        end
      else collectStructLoop rest false st
  end.

(** Returns [structMemberMap] and the advanced name counter. *)
Definition collectStructNames (tokens : list Token) (index : nat)
  : JsMap.t string * nat :=
  collectStructLoop tokens false ([], index).

(** *** collect-declared-identifiers-and-entry-points.ts *)

Record Collected : Type := mkCollected {
  identifierMap : JsMap.t string;
  bindingMap : JsMap.t string;
  entryPointNames : list string;
  nameIndex : nat
}.

(** [if (!identifierMap.has(name)) identifierMap.set(name, nextName())] *)
Definition registerIdentifier (name : string) (st : Collected) : Collected :=
  let (im, index) := registerName name (identifierMap st, nameIndex st) in
  mkCollected im (bindingMap st) (entryPointNames st) index.

(** A directive token: a binding is registered and recorded in the
    binding map, an entry point is added to the set. *)
Definition collectDirective (token : Token) (st : Collected) : Collected :=
  match directiveParts (value token) with
  | Some (directiveType, _, name, _) =>
      if String.eqb directiveType "binding" then
        let st' := registerIdentifier name st in
        match JsMap.get (identifierMap st') name with
        | Some n =>
            mkCollected (identifierMap st') (JsMap.set (bindingMap st') name n)
              (entryPointNames st') (nameIndex st')
        | None => st'
        end
      else if String.eqb directiveType "entrypoint" then
        mkCollected (identifierMap st) (bindingMap st)
          (setAdd (entryPointNames st) name) (nameIndex st)
      else st
  | None => st
  end.

(** [entryPointNames.has(funcName) ||
     (entryPointNames.size === 0 && funcName === "main")] *)
Definition isEntryPoint (entryPointNames : list string) (funcName : string)
  : bool :=
  setHas entryPointNames funcName ||
  ((List.length entryPointNames =? 0)%nat && String.eqb funcName "main").

(** The function name after [fn] *)
Definition collectFunctionName (funcName : string) (st : Collected) : Collected :=
  if negb (isEntryPoint (entryPointNames st) funcName)
  then registerIdentifier funcName st
  else st.

(** The loops of the collection over the tokens from index [i] on;
    [inParams] holds inside the [while] loop over a parameter list. *)
Fixpoint collectLoop (tokens : list Token) (inParams : bool) (st : Collected)
  : Collected :=
  match tokens with
  | [] => st
  | token :: rest =>
      if inParams then
        if String.eqb (value token) ")" then collectLoop rest false st
        else if TokenType_eqb (type token) identifier && nextValueIs rest ":" then
          match rest with
          | [] => st
          | _ :: rest' => collectLoop rest' true (registerIdentifier (value token) st)
          end
        else collectLoop rest true st
      else
        match type token with
        | directive => collectLoop rest false (collectDirective token st)
        | keyword =>
            if String.eqb (value token) "fn" && nextIsIdentifier rest then
              match rest with
              | [] => st
              | nameToken :: rest' =>
                  let st' := collectFunctionName (value nameToken) st in
                  if nextValueIs rest' "(" then
                    match rest' with
                    | [] => st'
                    | _ :: rest'' => collectLoop rest'' true st'
                    end
                  else collectLoop rest' false st'
              end
            else if (String.eqb (value token) "let" || String.eqb (value token) "var"
                     || String.eqb (value token) "const") && nextIsIdentifier rest then
              match rest with
              | [] => st
              | nameToken :: rest' =>
                  collectLoop rest' false (registerIdentifier (value nameToken) st)
              end
            else if String.eqb (value token) "struct" && nextIsIdentifier rest then
              match rest with
              | [] => st
              | nameToken :: rest' =>
                  collectLoop rest' false (registerIdentifier (value nameToken) st)
              end
            else collectLoop rest false st
        | _ => collectLoop rest false st
        end
  end.

Definition collectDeclaredIdentifiersAndEntryPoints (tokens : list Token)
  (index : nat) : Collected :=
  collectLoop tokens false (mkCollected [] [] [] index).

(** *** replace-identifiers.ts *)

(** [if (newValue)]: undefined and the empty string are falsy. *)
Definition truthy (v : option string) : option string :=
  match v with
  | Some s => if isEmpty s then None else Some s
  | None => None
  end.

Definition prevValueIs (prev : option Token) (v : string) : bool :=
  match prev with
  | Some t => String.eqb (value t) v
  | None => false
  end.

(** What the loop pushes for an identifier token *)
Definition replaceIdentifier (prev : option Token) (token : Token)
  (rest : list Token) (inStructDefinition : bool)
  (identifierMap structMemberMap : JsMap.t string) : Token :=
  if inStructDefinition && nextValueIs rest ":" then
    match truthy (JsMap.get structMemberMap (value token)) with
    | Some newValue => mkToken (type token) newValue
    | None => token
    end
  else if prevValueIs prev "." then
    if JsMap.has structMemberMap (value token)
       && negb (setHas swizzles (value token)) then
      match JsMap.get structMemberMap (value token) with
      | Some newValue => mkToken (type token) newValue
      | None => token
      end
    else token
  else
    match truthy (JsMap.get identifierMap (value token)) with
    | Some newValue => mkToken (type token) newValue
    | None => token
    end.

(** The loop of [replaceIdentifiers] from index [i] on; [prev] is
    [tokens[i - 1]].  The result lists the pushed tokens in order. *)
Fixpoint replaceLoop (prev : option Token) (tokens : list Token)
  (inStructDefinition : bool) (identifierMap structMemberMap : JsMap.t string)
  : list Token :=
  match tokens with
  | [] => []
  | token :: rest =>
      if isKeyword token "struct" then
        token :: replaceLoop (Some token) rest true identifierMap structMemberMap
      else if inStructDefinition && String.eqb (value token) "}" then
        token :: replaceLoop (Some token) rest false identifierMap structMemberMap
      else if TokenType_eqb (type token) identifier then
        replaceIdentifier prev token rest inStructDefinition
          identifierMap structMemberMap
        :: replaceLoop (Some token) rest inStructDefinition
             identifierMap structMemberMap
      else if TokenType_eqb (type token) builtin
              || negb (TokenType_eqb (type token) directive) then
        token :: replaceLoop (Some token) rest inStructDefinition
                   identifierMap structMemberMap
      else
        replaceLoop (Some token) rest inStructDefinition
          identifierMap structMemberMap
  end.

Definition replaceIdentifiers (tokens : list Token)
  (identifierMap structMemberMap : JsMap.t string) : list Token :=
  replaceLoop None tokens false identifierMap structMemberMap.

(** *** reconstruct-obfuscated-code.ts *)

Definition spaceAfter (token : Token) (nextToken : option Token) : string :=
  match nextToken with
  | Some next =>
      if (TokenType_eqb (type token) keyword
          || TokenType_eqb (type token) identifier
          || TokenType_eqb (type token) attribute)
         && negb (TokenType_eqb (type next) operator)
      then " " else ""
  | None => ""
  end.

(** The loop from index [i] on; [tokensLength] is [tokens.length]. *)
Fixpoint reconstructLoop (i : nat) (obfuscatedTokens : list Token)
  (tokensLength : nat) : string :=
  match obfuscatedTokens with
  | [] => ""
  | token :: rest =>
      let nextToken := if (S i <? tokensLength)%nat then List.hd_error rest else None in
      value token ++ spaceAfter token nextToken
      ++ reconstructLoop (S i) rest tokensLength
  end.

Definition reconstructObfuscatedCode (obfuscatedTokens tokens : list Token)
  : string :=
  reconstructLoop 0 obfuscatedTokens (List.length tokens).

(** *** obfuscate.ts *)

(** [lines.join(sep)] *)
Fixpoint join (sep : string) (l : list string) : string :=
  match l with
  | [] => ""
  | [x] => x
  | x :: r => x ++ sep ++ join sep r
  end.

Definition newline : string := str (ascii_of_nat 10).

Definition obfuscateTokens (allTokens : list Token) : string :=
  let tokens :=
    filter (fun token => negb (TokenType_eqb (type token) comment)) allTokens in
  let (structMemberMap, index) := collectStructNames tokens 0 in
  let collected := collectDeclaredIdentifiersAndEntryPoints tokens index in
  let obfuscatedTokens :=
    replaceIdentifiers tokens (identifierMap collected) structMemberMap in
  let obfuscatedCode := reconstructObfuscatedCode obfuscatedTokens tokens in
  let bindingComments :=
    join newline
      (map (fun e => "//#!binding " ++ fst e ++ " " ++ snd e)
         (JsMap.entries (bindingMap collected))) in
  if isEmpty bindingComments then obfuscatedCode
  else bindingComments ++ newline ++ obfuscatedCode.

(** [obfuscate(code)]; the name counter is reset to 0 at the start. *)
Definition obfuscate (wgslKeywords wgslBuiltins : string -> bool)
  (code : string) : option (Completion string) :=
  match Tokenization.tokenizeWgsl wgslKeywords wgslBuiltins code with
  | Some (Return allTokens) => Some (Return (obfuscateTokens allTokens))
  | Some (Throw e) => Some (Throw e)
  | None => None
  end.

(** ** Minifier (tools/minify.ts) *)

(** [token.type === 'operator' && token.value === v] *)
Definition isOperator (token : Token) (v : string) : bool :=
  TokenType_eqb (type token) operator && String.eqb (value token) v.

(** A JavaScript [Set] of indices: a list in insertion order. *)
Definition indexHas (l : list nat) (i : nat) : bool := existsb (Nat.eqb i) l.

Definition indexAdd (l : list nat) (i : nat) : list nat :=
  if indexHas l i then l else push l i.

(** [s.includes(p)] *)
Definition includes (s p : string) : bool :=
  match splitAtFirst p s with Some _ => true | None => false end.

Definition isIdentifierLike (token : Token) : bool :=
  TokenType_eqb (type token) identifier || TokenType_eqb (type token) keyword
  || TokenType_eqb (type token) builtin.

Definition needsSpace (t1 t2 : Token) : bool :=
  if (isIdentifierLike t1 && isIdentifierLike t2)
     || (isIdentifierLike t1 && TokenType_eqb (type t2) number) then true
  else if TokenType_eqb (type t1) attribute && isIdentifierLike t2 then
    let hasParameters := includes (value t1) "(" in
    negb hasParameters
  else false.

(** The inner loop of the first pass, over the tokens from index [j] on:
    the index of the first semicolon that directly follows a closing
    brace. *)
Fixpoint findStructEnd (j : nat) (tokens : list Token) : option nat :=
  match tokens with
  | tj :: ((tj1 :: _) as rest) =>
      if isOperator tj "}" && isOperator tj1 ";" then Some (S j)
      else findStructEnd (S j) rest
  | _ => None
  end.

(** The first pass, over the tokens from index [i] on; the loop runs
    while [i < tokens.length - 2], that is while three tokens are left. *)
Fixpoint markSemicolons (i : nat) (tokens : list Token) (skipIndices : list nat)
  : list nat :=
  match tokens with
  | ti :: ((_ :: _ :: _) as rest) =>
      let skipIndices' :=
        if isKeyword ti "struct" then
          match findStructEnd (i + 3) (skipn 2 rest) with
          | Some k => indexAdd skipIndices k
          | None => skipIndices
          end
        else skipIndices in
      markSemicolons (S i) rest skipIndices'
  | _ => skipIndices
  end.

(** The second pass, over the tokens from index [i] on; [previous] is
    [tokens[i - 1]]. *)
Fixpoint minifyLoop (i : nat) (previous : option Token) (tokens : list Token)
  (skipIndices : list nat) : string :=
  match tokens with
  | [] => ""
  | t2 :: rest =>
      if indexHas skipIndices i then minifyLoop (S i) (Some t2) rest skipIndices
      else
        (match previous with
         | Some t1 => if needsSpace t1 t2 then " " else ""
         | None => ""
         end)
        ++ value t2 ++ minifyLoop (S i) (Some t2) rest skipIndices
  end.

Definition minifyTokens (allTokens : list Token) : string :=
  let tokens :=
    filter (fun token => negb (TokenType_eqb (type token) comment)) allTokens in
  let skipIndices := markSemicolons 0 tokens [] in
  minifyLoop 0 None tokens skipIndices.

Definition minify (wgslKeywords wgslBuiltins : string -> bool) (code : string)
  : option (Completion string) :=
  match Tokenization.tokenizeWgsl wgslKeywords wgslBuiltins code with
  | Some (Return allTokens) => Some (Return (minifyTokens allTokens))
  | Some (Throw e) => Some (Throw e)
  | None => None
  end.

(** ** Notions used to state the properties of the obfuscator *)

Definition isComponent (c : ascii) : bool := setHas components (str c).

(** Swizzle-shaped names in the words of the specification: 1 to 4
    characters drawn from x, y, z, w, r, g, b, a. *)
Definition swizzleShaped (name : string) : bool :=
  (1 <=? String.length name)%nat && (String.length name <=? 4)%nat
  && forallChars isComponent name.

(** The flag [inStructDefinition] of [replaceIdentifiers] after the loop
    body ran on [token]. *)
Definition stepInStruct (inStruct : bool) (token : Token) : bool :=
  if isKeyword token "struct" then true
  else if inStruct && String.eqb (value token) "}" then false
  else inStruct.

(** Whether the loop body of [replaceIdentifiers] pushes a token for
    [token]. *)
Definition pushes (inStruct : bool) (token : Token) : bool :=
  isKeyword token "struct"
  || (inStruct && String.eqb (value token) "}")
  || negb (TokenType_eqb (type token) directive).

(** The flag when the loop, started with [inStruct], reaches index [i]. *)
Fixpoint inStructFrom (inStruct : bool) (tokens : list Token) (i : nat) : bool :=
  match i, tokens with
  | S i', token :: rest => inStructFrom (stepInStruct inStruct token) rest i'
  | _, _ => inStruct
  end.

(** The number of tokens pushed before index [i]: the index in the
    output of what is pushed for [tokens[i]]. *)
Fixpoint outputIndexFrom (inStruct : bool) (tokens : list Token) (i : nat) : nat :=
  match i, tokens with
  | S i', token :: rest =>
      (if pushes inStruct token then 1 else 0)
      + outputIndexFrom (stepInStruct inStruct token) rest i'
  | _, _ => 0
  end.

Definition inStructDefinitionAt (tokens : list Token) (i : nat) : bool :=
  inStructFrom false tokens i.

Definition outputIndex (tokens : list Token) (i : nat) : nat :=
  outputIndexFrom false tokens i.

Definition valueIs (t : option Token) (v : string) : bool :=
  match t with
  | Some t => String.eqb (value t) v
  | None => false
  end.

(** [tokens[i]] stands in a struct body directly before a colon. *)
Definition memberDeclarationAt (tokens : list Token) (i : nat) : bool :=
  inStructDefinitionAt tokens i && valueIs (nth_error tokens (S i)) ":".

(** [tokens[i]] stands directly after a dot. *)
Definition memberAccessAt (tokens : list Token) (i : nat) : bool :=
  match i with
  | S j => valueIs (nth_error tokens j) "."
  | O => false
  end.


(** No identifier token named [name] stands directly before a colon (as a
    parameter or a struct member does). *)
Fixpoint noMemberPosition (name : string) (tokens : list Token) : bool :=
  match tokens with
  | [] => true
  | token :: rest =>
      negb (TokenType_eqb (type token) identifier
            && String.eqb (value token) name && nextValueIs rest ":")
      && noMemberPosition name rest
  end.

(** The keywords after which the collection registers a variable or a
    struct *)
Definition declares (token : Token) : bool :=
  TokenType_eqb (type token) keyword
  && (String.eqb (value token) "let" || String.eqb (value token) "var"
      || String.eqb (value token) "const" || String.eqb (value token) "struct").

(** No identifier token named [name] directly follows [let], [var],
    [const] or [struct] (as a declared variable or struct does). *)
Fixpoint noOtherDeclaration (name : string) (tokens : list Token) : bool :=
  match tokens with
  | [] => true
  | token :: rest =>
      negb (declares token && nextIsIdentifier rest && nextValueIs rest name)
      && noOtherDeclaration name rest
  end.



Definition isDirectiveOf (directiveType name : string) (token : Token) : bool :=
  TokenType_eqb (type token) directive &&
  match directiveParts (value token) with
  | Some (w, _, q, _) => String.eqb w directiveType && String.eqb q name
  | None => false
  end.

(** No directive token is a binding directive naming [name]. *)
Definition noBinding (name : string) (tokens : list Token) : bool :=
  forallb (fun token => negb (isDirectiveOf "binding" name token)) tokens.

(** ** Sample token streams *)

(** The tokens of [struct S { xy : vec2<f32> } ; let xy = v . xy ;] *)
Definition swizzleExample : list Token :=
  [ mkToken keyword "struct"; mkToken identifier "S"; mkToken operator "{";
    mkToken identifier "xy"; mkToken operator ":"; mkToken keyword "vec2";
    mkToken operator "<"; mkToken keyword "f32"; mkToken operator ">";
    mkToken operator "}"; mkToken operator ";";
    mkToken keyword "let"; mkToken identifier "xy"; mkToken operator "=";
    mkToken identifier "v"; mkToken operator "."; mkToken identifier "xy";
    mkToken operator ";" ].

(** The directive [#entrypoint] naming [main2] *)
Definition entrypointMain2 : Token :=
  mkToken directive ("#entrypoint " ++ quoted "main2").

(** The tokens of [fn main2 ( ) { } fn helper ( ) { main2 ( ) ; }] *)
Definition main2AndHelper : list Token :=
  [ mkToken keyword "fn"; mkToken identifier "main2"; mkToken operator "(";
    mkToken operator ")"; mkToken operator "{"; mkToken operator "}";
    mkToken keyword "fn"; mkToken identifier "helper"; mkToken operator "(";
    mkToken operator ")"; mkToken operator "{"; mkToken identifier "main2";
    mkToken operator "("; mkToken operator ")"; mkToken operator ";";
    mkToken operator "}" ].

(** ** Macro expander (macro-expander.ts)

    The expressions built from a macro or parameter name are modelled for
    names free of regular-expression metacharacters and not empty; the
    names [#define] accepts are identifiers. *)

Record Macro : Type := mkMacro {
  macroValue : string;
  params : option (list string)
}.

Definition Defines : Type := JsMap.t Macro.

(** *** String.prototype.replace with a replacement string

    In a replacement string [$$] stands for a dollar sign, [$&] for the
    matched text, [$`] for the text before the match and [$'] for the text
    after it; without capture groups every other [$] is literal. *)
Fixpoint getSubstitution (matched before after replacement : string) : string :=
  match replacement with
  | "" => ""
  | String c r =>
      if isChar "$" c then
        match r with
        | String c' r' =>
            if isChar "$" c' then String "$" (getSubstitution matched before after r')
            else if isChar "&" c' then matched ++ getSubstitution matched before after r'
            else if isChar "`" c' then before ++ getSubstitution matched before after r'
            else if isChar squote c' then after ++ getSubstitution matched before after r'
            else String c (getSubstitution matched before after r)
        | "" => str c
        end
      else String c (getSubstitution matched before after r)
  end.

(** [s.replace(pattern, replacement)] for a string pattern: the first
    occurrence only. *)
Definition replaceFirst (pattern replacement s : string) : string :=
  match splitAtFirst pattern s with
  | Some (before, after) =>
      before ++ getSubstitution pattern before after replacement ++ after
  | None => s
  end.

(** *** Word boundaries *)

Definition firstIsWord (s : string) : bool :=
  match s with String c _ => isWord c | "" => false end.

Fixpoint lastIsWord (s : string) : bool :=
  match s with
  | "" => false
  | String c "" => isWord c
  | String _ r => lastIsWord r
  end.

(** [\bname\b] at the start of [s], where the character before [s] is a
    word character iff [prevWord]; returns what follows the match. *)
Definition wordAt (name : string) (prevWord : bool) (s : string) : option string :=
  if xorb prevWord (firstIsWord name) then
    match stripPrefix name s with
    | Some rest =>
        if xorb (lastIsWord name) (firstIsWord rest) then Some rest else None
    | None => None
    end
  else None.

(** [s.replace(/\bname\b/g, ...)]: every match is replaced by
    [replacement before after], where [before] and [after] are the text
    of [s] around the match.  [skip] counts the characters of a match
    still to be passed over; the flag tells whether anything matched. *)
Fixpoint replaceWordLoop (name : string) (replacement : string -> string -> string)
  (skip : nat) (prevWord : bool) (before s : string) : string * bool :=
  match s with
  | "" => ("", false)
  | String c r =>
      match skip with
      | S k =>
          replaceWordLoop name replacement k (isWord c) (before ++ str c) r
      | O =>
          match wordAt name prevWord s with
          | Some after =>
              let (out, _) :=
                replaceWordLoop name replacement (String.length name - 1)
                  (isWord c) (before ++ str c) r in
              (replacement before after ++ out, true)
          | None =>
              let (out, any) :=
                replaceWordLoop name replacement 0 (isWord c) (before ++ str c) r in
              (String c out, any)
          end
      end
  end.

Definition replaceWord (name : string) (replacement : string -> string -> string)
  (s : string) : string * bool :=
  replaceWordLoop name replacement 0 false "" s.

(** *** Protecting string literals *)

Definition placeholder (i : nat) : string :=
  "###STRING_LITERAL_" ++ decimal i ++ "###".

Record Protection : Type := mkProtection {
  inString : bool;
  stringChar : ascii;
  escaped : bool;
  currentString : string;
  protectedLine : string;
  stringLiterals : list string
}.

(** Appends a character to the literal being read or to the line. *)
Definition keep (char : ascii) (st : Protection) (escaped' : bool) : Protection :=
  if inString st then
    mkProtection true (stringChar st) escaped' (currentString st ++ str char)
      (protectedLine st) (stringLiterals st)
  else
    mkProtection false (stringChar st) escaped' (currentString st)
      (protectedLine st ++ str char) (stringLiterals st).

(** The body of the character loop *)
Definition protectChar (char : ascii) (st : Protection) : Protection :=
  if escaped st then keep char st false
  else if isChar "\" char then keep char st true
  else if (isChar dquote char || isChar squote char)
          && (negb (inString st) || Ascii.eqb char (stringChar st)) then
    if inString st then
      let literal := currentString st ++ str char in
      mkProtection false (stringChar st) false ""
        (protectedLine st ++ placeholder (List.length (stringLiterals st)))
        (push (stringLiterals st) literal)
    else
      mkProtection true char false (str char)
        (protectedLine st) (stringLiterals st)
  else keep char st false.

Fixpoint protectLoop (line : string) (st : Protection) : Protection :=
  match line with
  | "" => st
  | String char rest => protectLoop rest (protectChar char st)
  end.

(** The protected line and the literals taken out of it; an unclosed
    literal is taken out as well. *)
Definition protectStrings (line : string) : string * list string :=
  let st := protectLoop line (mkProtection false "000"%char false "" "" []) in
  if inString st then
    (protectedLine st ++ placeholder (List.length (stringLiterals st)),
     push (stringLiterals st) (currentString st))
  else (protectedLine st, stringLiterals st).

(** [result = result.replace(placeholder(i), stringLiterals[i])] for each
    literal in turn *)
Fixpoint restoreStrings (i : nat) (literals : list string) (result : string) : string :=
  match literals with
  | [] => result
  | literal :: rest =>
      restoreStrings (S i) rest (replaceFirst (placeholder i) literal result)
  end.

(** *** The order of the macros

    [Array.from(defines.entries()).sort((a, b) => b[0].length - a[0].length)]:
    a stable sort, longer names first. *)
Fixpoint insertByLength (e : string * Macro) (sorted : list (string * Macro))
  : list (string * Macro) :=
  match sorted with
  | [] => [e]
  | e' :: rest =>
      if (String.length (fst e') <=? String.length (fst e))%nat
      then e :: sorted
      else e' :: insertByLength e rest
  end.

Definition sortMacros (defines : Defines) : list (string * Macro) :=
  fold_right insertByLength [] (JsMap.entries defines).

(** *** Object-like macros *)

(** The end of the two expressions below, after the word [defined]:
    [\s*$], or [\s*(//.{0,})?$] when a comment is allowed. *)
Definition endsAfterDefined (allowComment : bool) (s : string) : bool :=
  let r := trimStart s in
  isEmpty r ||
  (allowComment &&
   match stripPrefix "//" r with
   | Some c => forallChars notLineTerminator c
   | None => false
   end).

(** [^\s*name\s+is\s+defined] followed by [endsAfterDefined] *)
Definition isDefinedLine (allowComment : bool) (name result : string) : bool :=
  match stripPrefix name (trimStart result) with
  | Some r1 =>
      let (sp1, r2) := span isSpace r1 in
      if isEmpty sp1 then false else
      match stripPrefix "is" r2 with
      | Some r3 =>
          let (sp2, r4) := span isSpace r3 in
          if isEmpty sp2 then false else
          match stripPrefix "defined" r4 with
          | Some r5 => endsAfterDefined allowComment r5
          | None => false
          end
      | None => false
      end
  | None => false
  end.

(** [new RegExp(`^\\s*${name}\\s+is\\s+defined\\s*$`)] *)
Definition isDefinedRegex (name result : string) : bool :=
  isDefinedLine false name result.

(** [new RegExp(`^\\s*${name}\\s+is\\s+defined\\s*(//.{0,})?$`)] *)
Definition isDefinedInPreprocessorRegex (name result : string) : bool :=
  isDefinedLine true name result.

(** [name.length === 1 && /^[A-Za-z]$/.test(name)] *)
Definition singleLetter (name : string) : option ascii :=
  match name with
  | String c "" => if isLetter c then Some c else None
  | _ => None
  end.

(** [(?![A-Za-z0-9_])] *)
Definition notBeforeWord (s : string) : bool := negb (firstIsWord s).

(** [result.replace(/(^|[^A-Za-z0-9_]|[0-9])(name)(?![A-Za-z0-9_])/g, ...)]
    for a one-letter [name]: a match is the letter at the very start of
    the text, or a character that is not a letter or underscore followed
    by the letter; the replacement keeps that character. *)
Fixpoint replaceLetterLoop (letter : ascii) (replacement : string)
  (atStart : bool) (skip : nat) (s : string) : string * bool :=
  match s with
  | "" => ("", false)
  | String c r =>
      match skip with
      | S k => replaceLetterLoop letter replacement false k r
      | O =>
          if atStart && Ascii.eqb c letter && notBeforeWord r then
            let (out, _) := replaceLetterLoop letter replacement false 0 r in
            (replacement ++ out, true)
          else if (negb (isWord c) || isDigit c)
                  && match r with
                     | String c' r' => Ascii.eqb c' letter && notBeforeWord r'
                     | "" => false
                     end then
            let (out, _) := replaceLetterLoop letter replacement false 1 r in
            (String c (replacement ++ out), true)
          else
            let (out, any) := replaceLetterLoop letter replacement false 0 r in
            (String c out, any)
      end
  end.

(** *** Function-like macros *)

(** The first match of [\bname\s*\(] in [s]: the text before the match
    and the text after the opening parenthesis. *)
Fixpoint findCall (name : string) (prevWord : bool) (s : string)
  : option (string * string) :=
  let here :=
    if xorb prevWord (firstIsWord name) then
      match stripPrefix name s with
      | Some r => stripPrefix "(" (trimStart r)
      | None => None
      end
    else None in
  match here with
  | Some afterParen => Some ("", afterParen)
  | None =>
      match s with
      | "" => None
      | String c r =>
          match findCall name (isWord c) r with
          | Some (before, afterParen) => Some (String c before, afterParen)
          | None => None
          end
      end
  end.

(** The loop that reads the arguments, from the character after the
    opening parenthesis; returns the arguments and the text from index [i]
    on, where the loop stopped. *)
Fixpoint parseArgs (paramsLength : nat) (s : string) (args : list string)
  (currentArg : string) (parenDepth : nat) : list string * string :=
  match s with
  | "" => (args, "")
  | String c r =>
      if isChar "(" c then
        parseArgs paramsLength r args (currentArg ++ str c) (S parenDepth)
      else if isChar ")" c then
        match parenDepth with
        | S (S d) => parseArgs paramsLength r args (currentArg ++ str c) (S d)
        | _ =>
            if negb (isEmpty (trim currentArg))
               || (0 <? List.length args)%nat || (paramsLength =? 1)%nat
            then (push args (trim currentArg), r)
            else (args, r)
        end
      else if isChar "," c && (parenDepth =? 1)%nat then
        parseArgs paramsLength r (push args (trim currentArg)) "" parenDepth
      else parseArgs paramsLength r args (currentArg ++ str c) parenDepth
  end.

(** [`Macro ${name} expects ${macro.params.length} arguments, got ${args.length}`] *)
Definition arityError (name : string) (expected actual : nat) : JsError :=
  Error ("Macro " ++ name ++ " expects " ++ decimal expected
         ++ " arguments, got " ++ decimal actual).

(** [expansion = expansion.replace(/\bparam\b/g, args[j])] for each
    parameter in turn *)
Fixpoint substituteParams (params args : list string) (expansion : string) : string :=
  match params, args with
  | param :: params', arg :: args' =>
      substituteParams params' args'
        (fst (replaceWord param
                (fun before after => getSubstitution param before after arg)
                expansion))
  | _, _ => expansion
  end.

(** The [exec] loop over the invocations of one function-like macro, on
    the text from [lastIndex] on; returns what is appended to [newResult]
    and the flag [functionMacroChanged]. *)
Fixpoint expandCalls (fuel : nat) (name body : string) (params : list string)
  (prevWord : bool) (s : string) : Completion (string * bool) :=
  match fuel with
  | O => Return (s, false)
  | S fuel' =>
      match findCall name prevWord s with
      | None => Return (s, false)
      | Some (before, afterParen) =>
          let (args, rest) := parseArgs (List.length params) afterParen [] "" 1 in
          if negb (List.length args =? List.length params)%nat then
            Throw (arityError name (List.length params) (List.length args))
          else
            let expansion := substituteParams params args body in
            r <- expandCalls fuel' name body params false rest ;;
            Return (before ++ expansion ++ fst r, true)
      end
  end.

Definition expandFunctionLike (name body : string) (params : list string)
  (result : string) : Completion (string * bool) :=
  expandCalls (S (String.length result)) name body params false result.

(** *** The passes *)

(** One run of the [for] loop over the sorted macros: the new text and
    the flag [changed]; the loop is left at the first macro that changed
    the text, except for one-letter object-like macros. *)
Fixpoint macroPass (macros : list (string * Macro)) (result : string)
  (changed : bool) : Completion (string * bool) :=
  match macros with
  | [] => Return (result, changed)
  | (name, macro) :: rest =>
      match params macro with
      | None =>
          if isDefinedRegex name result || isDefinedInPreprocessorRegex name result
          then macroPass rest result changed
          else
            match singleLetter name with
            | Some letter =>
                let (newResult, any) :=
                  replaceLetterLoop letter (macroValue macro) true 0 result in
                macroPass rest newResult (changed || any)
            | None =>
                let (newResult, any) :=
                  replaceWord name (fun _ _ => macroValue macro) result in
                if negb (String.eqb newResult result) then Return (newResult, true)
                else macroPass rest result (changed || any)
            end
      | Some ps =>
          r <- expandFunctionLike name (macroValue macro) ps result ;;
          if snd r then Return (fst r, true)
          else macroPass rest result changed
      end
  end.

Definition MAX_ITERATIONS : nat := 100.

(** [while (changed && iterationCount < MAX_ITERATIONS)], with
    [remaining] standing for [MAX_ITERATIONS - iterationCount] *)
Fixpoint expandLoop (remaining : nat) (macros : list (string * Macro))
  (result : string) : Completion string :=
  match remaining with
  | O => Return result
  | S n =>
      r <- macroPass macros result false ;;
      if snd r then expandLoop n macros (fst r) else Return (fst r)
  end.

Definition expandMacros (line : string) (defines : Defines) : Completion string :=
  let (protectedLine, stringLiterals) := protectStrings line in
  result <- expandLoop MAX_ITERATIONS (sortMacros defines) protectedLine ;;
  Return (restoreStrings 0 stringLiterals result).

(** ** Expression evaluator (evaluator.ts) *)

(** [s.replace(re, f)] for a global expression [re]: [matchAt prevWord s]
    tells whether [re] matches at the start of [s] (the character before
    [s] being a word character iff [prevWord]) and returns the replacement
    and the text after the match, which is not empty.  [skip] counts the
    characters of a match still to be passed over. *)
Fixpoint replaceAll (matchAt : bool -> string -> option (string * string))
  (skip : nat) (prevWord : bool) (s : string) : string :=
  match s with
  | "" => ""
  | String c r =>
      match skip with
      | S k => replaceAll matchAt k (isWord c) r
      | O =>
          match matchAt prevWord s with
          | Some (replacement, rest) =>
              replacement
              ++ replaceAll matchAt (String.length r - String.length rest)
                   (isWord c) r
          | None => String c (replaceAll matchAt 0 (isWord c) r)
          end
      end
  end.

(** [/defined\s*\(\s*([a-zA-Z_][a-zA-Z0-9_]{0,})\s*\)/]: the name and the
    text after the match *)
Definition definedAt (s : string) : option (string * string) :=
  match stripPrefix "defined" s with
  | Some r1 =>
      match stripPrefix "(" (trimStart r1) with
      | Some r2 =>
          match identifierRegex (trimStart r2) with
          | Some (name, r3) =>
              match stripPrefix ")" (trimStart r3) with
              | Some rest => Some (name, rest)
              | None => None
              end
          | None => None
          end
      | None => None
      end
  | None => None
  end.

(** Replace the [defined()] operator *)
Definition replaceDefined (defines : Defines) (expr : string) : string :=
  replaceAll
    (fun _ s =>
       match definedAt s with
       | Some (name, rest) =>
           Some (if JsMap.has defines name then "1" else "0", rest)
       | None => None
       end)
    0 false expr.

(** [/\b([a-zA-Z_][a-zA-Z0-9_]{0,})\s*==\s*([a-zA-Z_][a-zA-Z0-9_]{0,})\b/] at
    the start of [s]: the matched text and its two groups *)
Definition equalityAt (prevWord : bool) (s : string)
  : option (string * string * string) :=
  if prevWord then None else
  match identifierRegex s with
  | Some (leftName, r1) =>
      let (sp1, r2) := span isSpace r1 in
      match stripPrefix "==" r2 with
      | Some r3 =>
          let (sp2, r4) := span isSpace r3 in
          match identifierRegex r4 with
          | Some (rightName, _) =>
              Some (leftName ++ sp1 ++ "==" ++ sp2 ++ rightName, leftName, rightName)
          | None => None
          end
      | None => None
      end
  | None => None
  end.

(** The first match in [s], with the number of characters before it *)
Fixpoint findEquality (prevWord : bool) (s : string)
  : option (nat * (string * string * string)) :=
  match equalityAt prevWord s with
  | Some m => Some (0, m)
  | None =>
      match s with
      | "" => None
      | String c r =>
          match findEquality (isWord c) r with
          | Some (offset, m) => Some (S offset, m)
          | None => None
          end
      end
  end.

(** [equalityRegex.exec(expr)] with the expression's [lastIndex] *)
Definition execEquality (expr : string) (lastIndex : nat)
  : option (nat * (string * string * string)) :=
  if (String.length expr <? lastIndex)%nat then None else
  let prevWord :=
    match lastIndex with
    | O => false
    | S i => match charAt expr i with Some c => isWord c | None => false end
    end in
  match findEquality prevWord (drop lastIndex expr) with
  | Some (offset, m) => Some (lastIndex + offset, m)
  | None => None
  end.

(** [macro && !macro.params] *)
Definition objectLike (macro : option Macro) : option string :=
  match macro with
  | Some m => match params m with None => Some (macroValue m) | Some _ => None end
  | None => None
  end.

Definition isNone {A} (o : option A) : bool :=
  match o with None => true | Some _ => false end.

(** The three cases in which a comparison of two identifiers is rewritten
    to 1 *)
Definition identityEquality (defines : Defines) (leftName rightName : string) : bool :=
  let leftMacro := JsMap.get defines leftName in
  let rightMacro := JsMap.get defines rightName in
  match objectLike leftMacro, objectLike rightMacro with
  | Some leftValue, Some rightValue => String.eqb leftValue rightValue
  | Some leftValue, None => String.eqb leftValue rightName && isNone rightMacro
  | None, Some rightValue => String.eqb rightValue leftName && isNone leftMacro
  | None, None => false
  end.

(** The [while] loop over the matches of the equality expression; the
    table [macroValueToName] built before it is never read. *)
Fixpoint equalityLoop (fuel : nat) (defines : Defines) (expr : string)
  (lastIndex : nat) : string :=
  match fuel with
  | O => expr
  | S fuel' =>
      match execEquality expr lastIndex with
      | None => expr
      | Some (index, (fullMatch, leftName, rightName)) =>
          let lastIndex' := index + String.length fullMatch in
          if identityEquality defines leftName rightName
          then equalityLoop fuel' defines (replaceFirst fullMatch "1" expr) lastIndex'
          else equalityLoop fuel' defines expr lastIndex'
      end
  end.

(** [/\b([a-zA-Z_][a-zA-Z0-9_]{0,})\b/] at the start of [s] *)
Definition identifierAt (prevWord : bool) (s : string) : option (string * string) :=
  if prevWord then None else identifierRegex s.

(** [macro.value || "0"] for an object-like macro, and 0 otherwise *)
Definition identifierValue (defines : Defines) (ident : string) : string :=
  match objectLike (JsMap.get defines ident) with
  | Some v => if isEmpty v then "0" else v
  | None => "0"
  end.

(** Replace undefined identifiers and function-like macros with 0 *)
Definition replaceIdentifiersWithValues (defines : Defines) (expr : string) : string :=
  replaceAll
    (fun prevWord s =>
       match identifierAt prevWord s with
       | Some (ident, rest) => Some (identifierValue defines ident, rest)
       | None => None
       end)
    0 false expr.

(** [/(\s{0,})(!=|==|&&|\|\||!)(\s{0,})/] at the start of [s], with the
    replacement: the same text with [!=] and [==] turned into [!==] and
    [===] *)
Definition operatorAt (s : string) : option (string * string) :=
  let (before, r1) := span isSpace s in
  match firstPrefix ["!="; "=="; "&&"; "||"; "!"] r1 with
  | Some (op, r2) =>
      let (after, rest) := span isSpace r2 in
      let op' :=
        if String.eqb op "!=" then "!=="
        else if String.eqb op "==" then "===" else op in
      Some (before ++ op' ++ after, rest)
  | None => None
  end.

Definition convertOperators (expr : string) : string :=
  replaceAll (fun _ s => operatorAt s) 0 false expr.

(** [/^\s*\d+\s*$/]: the digits *)
Definition standaloneNumber (expr : string) : option string :=
  let (digits, r) := span isDigit (trimStart expr) in
  if isEmpty digits then None
  else if isEmpty (trimStart r) then Some digits else None.

(** [parseInt(digits, 10) !== 0] *)
Definition nonZero (digits : string) : bool :=
  negb (forallChars (isChar "0") digits).

(** What [eval] does with a text: it yields a value, of which only the
    truthiness is used, or throws.  Of a thrown value the handler reads
    the [message] property, which raises a [TypeError] when the value is
    [null] or [undefined]. *)
Inductive Thrown : Type :=
| ThrownObject (message : string)
| ThrownNullish.

Inductive EvalResult : Type :=
| Value (truthy : bool)
| Raises (e : Thrown).

(** The host's [eval], in the scope of [evaluateExpression]: taken as a
    function of the text and of the table in scope.  The text can also
    reach the table and change it; such an effect is outside this model,
    which gives the result of the evaluation only. *)
Definition Eval : Type := string -> Defines -> EvalResult.

Definition nullishMessage : string :=
  "Cannot read properties of null (reading 'message')".

Definition evaluateExpression (js_eval : Eval) (expr : string) (defines : Defines)
  : Completion bool :=
  let expr := replaceDefined defines expr in
  let expr := equalityLoop (S (String.length expr)) defines expr 0 in
  let expr := replaceIdentifiersWithValues defines expr in
  let expr := convertOperators expr in
  match standaloneNumber expr with
  | Some digits => Return (nonZero digits)
  | None =>
      match js_eval expr defines with
      | Value truthy => Return truthy
      | Raises (ThrownObject _) => Return false
      | Raises ThrownNullish => Throw (TypeError nullishMessage)
      end
  end.

(** ** Conditional processor (conditional-processor.ts) *)

Record ConditionalState : Type := mkConditionalState {
  including : bool;
  hasBeenTrue : bool;
  hasElse : bool
}.

(** The state of the loop over the lines.  The stack has its top first:
    the head is [conditionalStack[length - 1]] and the element after it
    is the parent, [conditionalStack[length - 2]]. *)
Record State : Type := mkState {
  conditionalStack : list ConditionalState;
  defines : Defines;
  resultLines : list string
}.

Definition isCurrentlyIncluding (conditionalStack : list ConditionalState) : bool :=
  forallb including conditionalStack.

(** The trimmed line without its trailing comment, when the trimmed line
    starts with [#]. *)
Definition directiveLineOf (line : string) : option string :=
  let trimmedLine := trim line in
  if startsWith trimmedLine "#" then
    match splitAtFirst "//" trimmedLine with
    | Some (beforeComment, _) => Some (trim beforeComment)
    | None => Some trimmedLine
    end
  else None.

(** [/^word\s+/]: the text after the match *)
Definition keywordMatch (word directiveLine : string) : option string :=
  match stripPrefix word directiveLine with
  | Some r =>
      let (sp, rest) := span isSpace r in
      if isEmpty sp then None else Some rest
  | None => None
  end.

(** [/^word(?:\s|$)/] *)
Definition keywordEndMatch (word directiveLine : string) : bool :=
  match stripPrefix word directiveLine with
  | Some "" => true
  | Some (String c _) => isSpace c
  | None => false
  end.

(** The branch of the directive chain a directive line takes, with the
    text the branch works on. *)
Inductive Directive : Type :=
| Define (directiveLine : string)
| Undef (directiveLine : string)
| If (expr : string)
| Ifdef (name : string)
| Ifndef (name : string)
| Elif (expr : string)
| Else
| Endif
| Custom.

Definition classify (directiveLine : string) : Directive :=
  match keywordMatch "#define" directiveLine with
  | Some _ => Define directiveLine
  | None =>
  match keywordMatch "#undef" directiveLine with
  | Some _ => Undef directiveLine
  | None =>
  match keywordMatch "#if" directiveLine with
  | Some rest => If (trim rest)
  | None =>
  match keywordMatch "#ifdef" directiveLine with
  | Some rest => Ifdef (trim rest)
  | None =>
  match keywordMatch "#ifndef" directiveLine with
  | Some rest => Ifndef (trim rest)
  | None =>
  match keywordMatch "#elif" directiveLine with
  | Some rest => Elif (trim rest)
  | None =>
  if keywordEndMatch "#else" directiveLine then Else
  else if keywordEndMatch "#endif" directiveLine then Endif
  else Custom
  end end end end end end.

(** The parameter list after its first name:
    [(?:\s*,\s*[a-zA-Z_][a-zA-Z0-9_]{0,})*\s*\)]; returns the further names
    and the text after the closing parenthesis.  [fuel] bounds the number
    of names. *)
Fixpoint moreParams (fuel : nat) (s : string) : option (list string * string) :=
  match fuel with
  | O => None
  | S fuel' =>
      let r := trimStart s in
      match stripPrefix ")" r with
      | Some rest => Some ([], rest)
      | None =>
          match stripPrefix "," r with
          | Some r1 =>
              match identifierRegex (trimStart r1) with
              | Some (param, r2) =>
                  match moreParams fuel' r2 with
                  | Some (ps, rest) => Some (param :: ps, rest)
                  | None => None
                  end
              | None => None
              end
          | None => None
          end
      end
  end.

(** [/^#define\s+([a-zA-Z_][a-zA-Z0-9_]{0,})\s*\(\s*([a-zA-Z_][a-zA-Z0-9_]*(?:\s*,\s*[a-zA-Z_][a-zA-Z0-9_]{0,}){0,})\s*\)\s*(.{0,})$/]:
    the name, the parameters (the second group split at the commas and
    trimmed) and the value *)
Definition functionLikeRegex (directiveLine : string)
  : option (string * list string * string) :=
  match keywordMatch "#define" directiveLine with
  | Some r =>
      match identifierRegex r with
      | Some (name, r1) =>
          match stripPrefix "(" (trimStart r1) with
          | Some r2 =>
              match identifierRegex (trimStart r2) with
              | Some (param, r3) =>
                  match moreParams (S (String.length r3)) r3 with
                  | Some (ps, r4) =>
                      let value := trimStart r4 in
                      if forallChars notLineTerminator value
                      then Some (name, param :: ps, value)
                      else None
                  | None => None
                  end
              | None => None
              end
          | None => None
          end
      | None => None
      end
  | None => None
  end.

(** [/^#define\s+([a-zA-Z_][a-zA-Z0-9_]{0,})/]: the name *)
Definition macroNameMatch (directiveLine : string) : option string :=
  match keywordMatch "#define" directiveLine with
  | Some r =>
      match identifierRegex r with
      | Some (name, _) => Some name
      | None => None
      end
  | None => None
  end.

(** The value text of an object-like definition: everything after the
    first occurrence of the name in the directive line, trimmed. *)
Definition objectLikeValue (directiveLine name : string) : string :=
  match indexOf directiveLine name with
  | Some index => trim (drop (index + String.length name) directiveLine)
  | None => trim (drop (String.length name - 1) directiveLine)
  end.

(** The [#define] branch, when including *)
Definition processDefine (directiveLine : string) (defines : Defines)
  : Completion Defines :=
  match functionLikeRegex directiveLine with
  | Some (name, ps, value) =>
      Return (JsMap.set defines name (mkMacro value (Some ps)))
  | None =>
      match macroNameMatch directiveLine with
      | Some name =>
          let value := objectLikeValue directiveLine name in
          expandedValue <-
            (if isEmpty value then Return "" else expandMacros value defines) ;;
          Return (JsMap.set defines name (mkMacro expandedValue None))
      | None => Return defines
      end
  end.

(** [/^#undef\s+([a-zA-Z_][a-zA-Z0-9_]{0,})$/]: the name *)
Definition undefMatch (directiveLine : string) : option string :=
  match keywordMatch "#undef" directiveLine with
  | Some r =>
      match identifierRegex r with
      | Some (name, "") => Some name
      | _ => None
      end
  | None => None
  end.

Definition processUndef (directiveLine : string) (defines : Defines) : Defines :=
  match undefMatch directiveLine with
  | Some name => JsMap.delete defines name
  | None => defines
  end.

(** [conditionalStack.length > 1 ? conditionalStack[length - 2].including : true],
    for the stack below its top *)
Definition parentIncluding (below : list ConditionalState) : bool :=
  match below with
  | parent :: _ => including parent
  | [] => true
  end.

Definition pushState (result : bool) (st : State) : State :=
  mkState (mkConditionalState result result false :: conditionalStack st)
    (defines st) (resultLines st).

Definition setTop (top : ConditionalState) (below : list ConditionalState)
  (st : State) : State :=
  mkState (top :: below) (defines st) (resultLines st).

(** The body of the loop for a directive line *)
Definition processDirective (js_eval : Eval) (line directiveLine : string)
  (st : State) : Completion State :=
  match classify directiveLine with
  | Define dl =>
      if isCurrentlyIncluding (conditionalStack st) then
        defines' <- processDefine dl (defines st) ;;
        Return (mkState (conditionalStack st) defines' (resultLines st))
      else Return st
  | Undef dl =>
      if isCurrentlyIncluding (conditionalStack st) then
        Return (mkState (conditionalStack st) (processUndef dl (defines st))
                  (resultLines st))
      else Return st
  | If expr =>
      result <-
        (if isCurrentlyIncluding (conditionalStack st)
         then evaluateExpression js_eval expr (defines st)
         else Return false) ;;
      Return (pushState result st)
  | Ifdef name =>
      let result :=
        if isCurrentlyIncluding (conditionalStack st)
        then JsMap.has (defines st) name else false in
      Return (pushState result st)
  | Ifndef name =>
      let result :=
        if isCurrentlyIncluding (conditionalStack st)
        then negb (JsMap.has (defines st) name) else false in
      Return (pushState result st)
  | Elif expr =>
      match conditionalStack st with
      | [] => Throw (Error "Unexpected #elif without matching #if")
      | currentState :: below =>
          if hasElse currentState then Throw (Error "Unexpected #elif after #else")
          else if negb (hasBeenTrue currentState) then
            if parentIncluding below then
              result <- evaluateExpression js_eval expr (defines st) ;;
              Return (setTop (mkConditionalState result
                                (if result then true else hasBeenTrue currentState)
                                (hasElse currentState)) below st)
            else
              Return (setTop (mkConditionalState false (hasBeenTrue currentState)
                                (hasElse currentState)) below st)
          else
            Return (setTop (mkConditionalState false (hasBeenTrue currentState)
                              (hasElse currentState)) below st)
      end
  | Else =>
      match conditionalStack st with
      | [] => Throw (Error "Unexpected #else without matching #if")
      | currentState :: below =>
          if hasElse currentState
          then Throw (Error "Multiple #else directives for the same conditional")
          else if negb (hasBeenTrue currentState) then
            Return (setTop (mkConditionalState (parentIncluding below) true true)
                      below st)
          else
            Return (setTop (mkConditionalState false (hasBeenTrue currentState) true)
                      below st)
      end
  | Endif =>
      match conditionalStack st with
      | [] => Throw (Error "Unexpected #endif without matching #if")
      | _ :: below => Return (mkState below (defines st) (resultLines st))
      end
  | Custom =>
      if isCurrentlyIncluding (conditionalStack st)
      then Return (mkState (conditionalStack st) (defines st)
                     (push (resultLines st) line))
      else Return st
  end.

(** The body of the loop over the lines *)
Definition processLine (js_eval : Eval) (line : string) (st : State)
  : Completion State :=
  match directiveLineOf line with
  | Some directiveLine => processDirective js_eval line directiveLine st
  | None =>
      if isCurrentlyIncluding (conditionalStack st) then
        expandedLine <- expandMacros line (defines st) ;;
        Return (mkState (conditionalStack st) (defines st)
                  (push (resultLines st) expandedLine))
      else Return st
  end.

Fixpoint processLines (js_eval : Eval) (lines : list string) (st : State)
  : Completion State :=
  match lines with
  | [] => Return st
  | line :: rest =>
      st' <- processLine js_eval line st ;;
      processLines js_eval rest st'
  end.

Definition processConditionals (js_eval : Eval) (lines : list string)
  (defines : Defines) : Completion (list string) :=
  st <- processLines js_eval lines (mkState [] defines []) ;;
  match conditionalStack st with
  | [] => Return (resultLines st)
  | _ :: _ => Throw (Error "Unmatched #if, #ifdef, or #ifndef")
  end.

(** ** preprocess-wgsl.ts *)

(** [code.split("\n")] *)
Fixpoint splitLines (current text : string) : list string :=
  match text with
  | "" => [current]
  | String c r =>
      if (code c =? 10)%N then current :: splitLines "" r
      else splitLines (current ++ str c) r
  end.

(** Skip consecutive empty lines *)
Fixpoint collapseEmptyLines (previousLineEmpty : bool) (lines : list string)
  : list string :=
  match lines with
  | [] => []
  | line :: rest =>
      let isLineEmpty := isEmpty (trim line) in
      if isLineEmpty && previousLineEmpty then collapseEmptyLines previousLineEmpty rest
      else line :: collapseEmptyLines isLineEmpty rest
  end.

(** Remove trailing empty lines, on the reversed list *)
Fixpoint dropEmptyLines (reversed : list string) : list string :=
  match reversed with
  | line :: rest => if isEmpty (trim line) then dropEmptyLines rest else reversed
  | [] => []
  end.

Definition preprocessWgsl (js_eval : Eval) (code : string) : Completion string :=
  resultLines <- processConditionals js_eval (splitLines "" code) [] ;;
  let cleanedLines := collapseEmptyLines false resultLines in
  Return (join newline (rev (dropEmptyLines (rev cleanedLines)))).

(** ** cli.ts: removing the binding and entry-point directives *)

(** [/^\s*keyword\s+\x22[^\x22]+\x22\s*(\/\/.{0,})?$/.test(line)], for
    [keyword] one of [#binding] and [#entrypoint] *)
Definition customDirectiveLine (keyword line : string) : bool :=
  match stripPrefix keyword (trimStart line) with
  | Some r1 =>
      let (sp, r2) := span isSpace r1 in
      if isEmpty sp then false else
      match r2 with
      | String c3 r3 =>
          if isChar dquote c3 then
            let (q, r4) := span (notChar dquote) r3 in
            if isEmpty q then false else
            match r4 with
            | String c5 r5 =>
                if isChar dquote c5 then endsAfterDefined true r5 else false
            | "" => false
            end
          else false
      | "" => false
      end
  | None => false
  end.

Definition bindingDirectiveLine (line : string) : bool :=
  customDirectiveLine "#binding" line.

Definition entrypointDirectiveLine (line : string) : bool :=
  customDirectiveLine "#entrypoint" line.

(** The test of the filter: neither expression matches the line. *)
Definition notCustomDirective (line : string) : bool :=
  negb (bindingDirectiveLine line) && negb (entrypointDirectiveLine line).

Definition removeBindingDirectives (code : string) : string :=
  let lines := splitLines "" code in
  let filteredLines := filter notCustomDirective lines in
  join newline filteredLines.

(** A character other than the line feed *)
Definition notLineFeed (c : ascii) : bool := negb (code c =? 10)%N.

(** ** Prettifier (tools/prettify.ts) *)

Module Prettify.

(** [token.type === 'operator' && /^[\(\)\{\}\[\],;:.]$/.test(token.value)] *)
Definition isPunctuation (token : Token) : bool :=
  TokenType_eqb (type token) operator &&
  match value token with
  | String c "" =>
      isChar "(" c || isChar ")" c || isChar "{" c || isChar "}" c
      || isChar "[" c || isChar "]" c || isChar "," c || isChar ";" c
      || isChar ":" c || isChar "." c
  | _ => false
  end.

(** [token.type === 'identifier' || token.type === 'builtin'] *)
Definition isTypeName (token : Token) : bool :=
  TokenType_eqb (type token) identifier || TokenType_eqb (type token) builtin.

(** The loop of [isTypeAngleBracket] for a ['>'], over
    [tokens[index - 1]], ..., [tokens[0]]. *)
Fixpoint matchingBracket (depth : nat) (before : list Token) : bool :=
  match before with
  | [] => false
  | t :: earlier =>
      let depth :=
        if String.eqb (value t) "<" then depth - 1
        else if String.eqb (value t) ">" then depth + 1
        else depth in
      if (depth =? 0)%nat then
        match earlier with
        | previous :: _ => isTypeName previous
        | [] => false
        end
      else matchingBracket depth earlier
  end.

(** [isTypeAngleBracket(tokens, index)], where [token] is [tokens[index]]
    and [before] lists [tokens[index - 1]], ..., [tokens[0]]. *)
Definition isTypeAngleBracket (before : list Token) (token : Token) : bool :=
  if negb (String.eqb (value token) "<") && negb (String.eqb (value token) ">")
  then false
  else if String.eqb (value token) "<" then
    match before with
    | prevToken :: _ => isTypeName prevToken
    | [] => false
    end
  else matchingBracket 1 before.

(** ['    '.repeat(currentLevel)] *)
Fixpoint indent (currentLevel : nat) : string :=
  match currentLevel with
  | O => ""
  | S level => "    " ++ indent level
  end.

(** The lines pushed for a comment token. *)
Definition commentLines (currentLevel : nat) (text : string) : list string :=
  if startsWith text "/*" then
    match splitLines "" text with
    | first :: (_ :: _) as others =>
        (indent currentLevel ++ trim first)
        :: map (fun l => indent currentLevel ++ "   " ++ trim l) others
    | _ => [indent currentLevel ++ text]
    end
  else [indent currentLevel ++ text].

(** What is added to [line] after [token.value] when there is a next
    token (special cases 1 to 6 and the general spacing logic). *)
Definition spacing (before : list Token) (token nextToken : Token)
  (inForLoop : bool) : string :=
  let v := value token in
  let nv := value nextToken in
  if String.eqb v "," || (String.eqb v ";" && inForLoop) then " "
  else if (String.eqb v "<" && isTypeAngleBracket before token)
          || (String.eqb v ">" && isTypeAngleBracket before token)
          || (String.eqb nv "<" && isTypeAngleBracket (token :: before) nextToken)
          || (String.eqb nv ">" && isTypeAngleBracket (token :: before) nextToken)
  then ""
  else if String.eqb nv ")" || String.eqb nv "]" || String.eqb nv "}" then ""
  else if String.eqb nv "," || String.eqb nv ";" then ""
  else if String.eqb v ":" || String.eqb nv ":" then
    (if String.eqb v ":" then " " else "")
  else if (String.eqb v "if" || String.eqb v "for" || String.eqb v "while")
          && String.eqb nv "(" then ""
  else
    let isKeyword := TokenType_eqb (type token) keyword in
    let isIdentifier := isTypeName token in
    let isAttribute := TokenType_eqb (type token) attribute in
    let isOperator :=
      TokenType_eqb (type token) operator && negb (isPunctuation token) in
    let isNextOperator :=
      TokenType_eqb (type nextToken) operator && negb (isPunctuation nextToken) in
    let isNextPunctuation := isPunctuation nextToken in
    if ((isKeyword || isIdentifier || isAttribute)
        && negb (isNextPunctuation && (String.eqb nv "(" || String.eqb nv "[")))
       || String.eqb nv "{"
       || (String.eqb v ":"
           && (TokenType_eqb (type nextToken) identifier
               || TokenType_eqb (type nextToken) keyword
               || TokenType_eqb (type nextToken) builtin))
       || (String.eqb v ")" && String.eqb nv "{")
       || (isOperator && negb isNextOperator)
       || (negb isOperator && isNextOperator
           && negb (String.eqb nv "<"
                    && isTypeAngleBracket (token :: before) nextToken))
    then " " else "".

(** [/}$/.test(s)] *)
Fixpoint endsWithBrace (s : string) : bool :=
  match s with
  | "" => false
  | String c "" => isChar "}" c
  | String _ r => endsWithBrace r
  end.

(** [s.replace(/}$/, '};')] *)
Definition closeDefinition (s : string) : string :=
  if endsWithBrace s then s ++ ";" else s.

Record State : Type := mkState {
  formattedLines : list string;
  currentLevel : nat;
  inStructDefinition : bool;
  inForLoop : bool;
  line : string
}.

(** One iteration of the loop at [token = tokens[i]]; [before] lists
    [tokens[i - 1]], ..., [tokens[0]] and [rest] the tokens from
    [tokens[i + 1]] on. The boolean tells that the next token is skipped
    (the second [i++]). The line pushed at a ['}'] followed by [';'] is
    the last one of [formattedLines] when the source rewrites it, so the
    model pushes it rewritten. *)
Definition step (before : list Token) (token : Token) (rest : list Token)
  (st : State) : State * bool :=
  let inForLoop :=
    if isKeyword token "for" then true
    else if inForLoop st && String.eqb (value token) ")" then false
    else inForLoop st in
  if TokenType_eqb (type token) comment then
    (mkState
       (formattedLines st ++ commentLines (currentLevel st) (value token))%list
       (currentLevel st) (inStructDefinition st) inForLoop (line st), false)
  else
    let line :=
      line st ++ value token ++
      match rest with
      | nextToken :: _ => spacing before token nextToken inForLoop
      | [] => ""
      end in
    if (String.eqb (value token) ";" && negb inForLoop)
       || (inStructDefinition st && String.eqb (value token) ",") then
      (mkState
         (push (formattedLines st) (indent (currentLevel st) ++ trim line))
         (currentLevel st) (inStructDefinition st) inForLoop "", false)
    else if String.eqb (value token) "{" then
      (mkState
         (push (formattedLines st) (indent (currentLevel st) ++ trim line))
         (S (currentLevel st))
         (if nextValueIs before "struct" || nextValueIs (tl before) "struct"
          then true else inStructDefinition st)
         inForLoop "", false)
    else if String.eqb (value token) "}" then
      let currentLevel := Nat.max (currentLevel st - 1) 0 in
      if nextValueIs rest ";" then
        (mkState
           (push (formattedLines st)
              (closeDefinition (indent currentLevel ++ trim line)))
           currentLevel false inForLoop "", true)
      else
        (mkState
           (push (formattedLines st) (indent currentLevel ++ trim line))
           currentLevel (inStructDefinition st) inForLoop "", false)
    else
      (mkState (formattedLines st) (currentLevel st) (inStructDefinition st)
         inForLoop line, false).

(** The [while] loop over the tokens not yet visited. *)
Fixpoint loop (before rest : list Token) (skip : bool) (st : State) : State :=
  match rest with
  | [] => st
  | token :: rest' =>
      if skip then loop (token :: before) rest' false st
      else
        let (st', skip') := step before token rest' st in
        loop (token :: before) rest' skip' st'
  end.

Definition prettifyTokens (tokens : list Token) : string :=
  let st := loop [] tokens false (mkState [] 0 false false "") in
  join newline
    (if isEmpty (trim (line st)) then formattedLines st
     else push (formattedLines st) (indent (currentLevel st) ++ trim (line st))).

Definition prettify (wgslKeywords wgslBuiltins : string -> bool) (code : string)
  : option (Completion string) :=
  match Tokenization.tokenizeWgsl wgslKeywords wgslBuiltins code with
  | Some (Return tokens) => Some (Return (prettifyTokens tokens))
  | Some (Throw e) => Some (Throw e)
  | None => None
  end.

End Prettify.

(** ** Sample evaluators

    [eval] is never reached by a condition that is a number after
    substitution; the first sample stands for such runs.  The second
    agrees with JavaScript on the one text it is asked about: evaluating
    [throw null] throws the value [null]. *)

Definition evalUnused : Eval := fun _ _ => Raises (ThrownObject "").

Definition evalThrowNull : Eval :=
  fun expr _ =>
    if String.eqb expr "throw null" then Raises ThrownNullish
    else Raises (ThrownObject "SyntaxError").

(** The branch a line takes: [None] for a line that is no directive. *)
Definition directiveOf (line : string) : option Directive :=
  match directiveLineOf line with
  | Some directiveLine => Some (classify directiveLine)
  | None => None
  end.

(** ** Notions and tactics used in the proofs *)

(** A matcher splits its input into a non-empty match and the rest. *)
Definition consumes (re : string -> option (string * string)) : Prop :=
  forall s m rest, re s = Some (m, rest) -> s = m ++ rest /\ isEmpty m = false.

(** [x] is [prefix] followed by [n] component characters. *)
Definition isExtension (prefix : string) (n : nat) (x : string) : bool :=
  match stripPrefix prefix x with
  | Some t => (String.length t =? n)%nat && forallChars isComponent t
  | None => false
  end.

(** The position test of the generalised loop: [tokens[i - 1]] is a dot. *)
Definition accessFrom (prev : option Token) (tokens : list Token) (i : nat) : bool :=
  match i with
  | S j => valueIs (nth_error tokens j) "."
  | O => prevValueIs prev "."
  end.


(** The three side conditions on a name that is declared by [fn] only. *)
Definition declaredNowhereElse (name : string) (tokens : list Token) : Prop :=
  noOtherDeclaration name tokens = true /\
  noMemberPosition name tokens = true /\
  noBinding name tokens = true.

(** Computes with the fields of a state of the conditional processor. *)
Ltac state_simpl :=
  cbn [conditionalStack isCurrentlyIncluding forallb including hasBeenTrue
       hasElse defines resultLines andb negb bind pushState setTop
       parentIncluding].

(** Unfolds the loop over the lines by one line, using the equation
    [lemma] of that line, whose premise is [H]. *)
Ltac step lemma H :=
  cbn [processLines]; erewrite lemma by exact H.

(** ** Notions used to state the properties of the conditional processor *)

(** Every frame that includes stands on frames that all include. *)
Fixpoint nested (stack : list ConditionalState) : bool :=
  match stack with
  | [] => true
  | frame :: below =>
      (negb (including frame) || isCurrentlyIncluding below) && nested below
  end.

(** The [including] flag of the top frame; true for the empty stack. *)
Definition topIncluding (stack : list ConditionalState) : bool :=
  match stack with
  | top :: _ => including top
  | [] => true
  end.

(** The line is an [#if], [#ifdef] or [#ifndef] directive. *)
Definition opensConditional (line : string) : bool :=
  match directiveOf line with
  | Some (If _) | Some (Ifdef _) | Some (Ifndef _) => true
  | _ => false
  end.

(** The line is an [#endif] directive. *)
Definition closesConditional (line : string) : bool :=
  match directiveOf line with
  | Some Endif => true
  | _ => false
  end.

Definition countLines (p : string -> bool) (lines : list string) : nat :=
  List.length (filter p lines).

(** The lists that stand for a [Map]: no key occurs twice. *)
Definition uniqueKeys {V} (m : JsMap.t V) : Prop := NoDup (map fst m).

(** The line is one of the directives that work on the conditional
    stack. *)
Definition isConditionalDirective (line : string) : bool :=
  match directiveOf line with
  | Some (If _) | Some (Ifdef _) | Some (Ifndef _)
  | Some (Elif _) | Some Else | Some Endif => true
  | _ => false
  end.

(** ** Notions used to state the properties of the macro expander *)

(** A character other than [#] and [$]: the placeholders are made of the
    first, the second is special in a replacement string. *)
Definition plainChar (c : ascii) : bool := notChar "#" c && notChar "$" c.

(** The protected line made of the texts [seg] between the literals, the
    placeholders numbered from [i] on, and the text [tail] after the last
    literal; and the line it stands for. *)
Fixpoint protectedOf (i : nat) (pairs : list (string * string)) (tail : string)
  : string :=
  match pairs with
  | [] => tail
  | (seg, _) :: rest => seg ++ placeholder i ++ protectedOf (S i) rest tail
  end.

Fixpoint originalOf (pairs : list (string * string)) (tail : string) : string :=
  match pairs with
  | [] => tail
  | (seg, literal) :: rest => seg ++ literal ++ originalOf rest tail
  end.

Definition plainPair (pair : string * string) : Prop :=
  forallChars plainChar (fst pair) = true /\ forallChars plainChar (snd pair) = true.

(** The text the character loop has read when it is in state [st]. *)
Definition textRead (pairs : list (string * string)) (seg : string)
  (st : Protection) : string :=
  originalOf pairs seg ++ (if inString st then currentString st else "").

(** The state [st] of the character loop is laid out as [pairs] and
    [seg]. *)
Definition laidOut (pairs : list (string * string)) (seg : string)
  (st : Protection) : Prop :=
  protectedLine st = protectedOf 0 pairs seg /\
  stringLiterals st = map snd pairs /\
  Forall plainPair pairs /\
  forallChars plainChar seg = true /\
  forallChars plainChar (currentString st) = true.

(** ** Notions used to state the properties of the tokenizers *)

Definition notComment (token : Token) : bool :=
  negb (TokenType_eqb (type token) comment).

(** The results of the two tokenizers on one input agree: both run out
    of fuel, or both return and the first returns the tokens of the second
    that are no comments, or both throw for the same character. *)
Definition agree (first second : option (Completion (list Token))) : Prop :=
  match first, second with
  | None, None => True
  | Some (Return tokens), Some (Return tokens') =>
      filter notComment tokens' = tokens
  | Some (Throw e), Some (Throw e') =>
      exists index c,
        e = unexpectedCharacter index c /\ e' = Tokenization.unexpectedCharacter c
  | _, _ => False
  end.

(** A token is a complete lexeme of its class: the expression of the
    class matches the whole of its text, an identifier is classified by
    the two tables, an operator is one of the alternatives of the operator
    expression. *)
Definition lexeme (wgslKeywords wgslBuiltins : string -> bool) (token : Token)
  : Prop :=
  match type token with
  | directive => fullMatch directiveRegex (value token)
  | string_ => fullMatch stringRegex (value token)
  | number => fullMatch numberRegex (value token)
  | attribute => fullMatch attributeRegex (value token)
  | keyword =>
      fullMatch identifierRegex (value token) /\ wgslKeywords (value token) = true
  | builtin =>
      fullMatch identifierRegex (value token) /\
      wgslKeywords (value token) = false /\ wgslBuiltins (value token) = true
  | identifier =>
      fullMatch identifierRegex (value token) /\
      wgslKeywords (value token) = false /\ wgslBuiltins (value token) = false
  | operator => In (value token) operators
  | comment => fullMatch commentRegex (value token)
  | unknown => False
  end.

(** The names generated for the counter values [lo], ..., [hi - 1], in
    that order. *)
Definition generatedNames (lo hi : nat) : list string :=
  map (fun i => fst (nextName i)) (seq lo (hi - lo)).

(** The values of a map in the order of insertion. *)
Definition mapValues {V} (m : JsMap.t V) : list V := map snd m.

(** A map and a counter as a collection pass started with the counter at
    [lo] keeps them: the values are the names generated since then, in
    the order of insertion. *)
Definition namedInOrder (lo : nat) (st : JsMap.t string * nat) : Prop :=
  uniqueKeys (fst st) /\ lo <= snd st /\
  mapValues (fst st) = generatedNames lo (snd st).

(** ** Further notions used to state the properties of the obfuscator *)

Definition notDirective (token : Token) : bool :=
  negb (TokenType_eqb (type token) directive).

(** No directive token has the text of a closing brace (the directive
    tokens of the tokenizers begin with [#]). *)
Definition directivesAreNotBraces (tokens : list Token) : bool :=
  forallb (fun token =>
             negb (TokenType_eqb (type token) directive
                   && String.eqb (value token) "}")) tokens.

(** The token [token'] stands for [token]: it has the same type, and
    the same text unless it is an identifier. *)
Definition standsFor (token token' : Token) : Prop :=
  type token' = type token /\ (type token <> identifier -> token' = token).

Definition isEntryPointDirective (token : Token) : bool :=
  TokenType_eqb (type token) directive &&
  match directiveParts (value token) with
  | Some (w, _, _, _) => String.eqb w "entrypoint"
  | None => false
  end.

Definition noEntryPointDirective (tokens : list Token) : bool :=
  forallb (fun token => negb (isEntryPointDirective token)) tokens.

(** What the collection maintains for [main] as long as no entry point
    has been named. *)
Definition mainKept (st : Collected) : Prop :=
  entryPointNames st = [] /\ JsMap.has (identifierMap st) "main" = false.

(** ** Notions used to state the properties of preprocessWgsl *)

(** [line.trim() === ''] *)
Definition isBlank (line : string) : bool := isEmpty (trim line).

Definition notBlank (line : string) : bool := negb (isBlank line).

(** No two neighbouring lines are both blank; [previousBlank] tells
    whether the line before the first one is. *)
Fixpoint noBlankRunFrom (previousBlank : bool) (lines : list string) : bool :=
  match lines with
  | [] => true
  | line :: rest =>
      negb (isBlank line && previousBlank) && noBlankRunFrom (isBlank line) rest
  end.

Definition noBlankRun (lines : list string) : bool := noBlankRunFrom false lines.

(** The last line is blank. *)
Definition endsBlank (lines : list string) : bool :=
  match rev lines with
  | line :: _ => isBlank line
  | [] => false
  end.

(** Every entry of the binding map is an entry of the identifier map. *)
Definition bindingsAgree (st : Collected) : Prop :=
  forall name newName,
    JsMap.get (bindingMap st) name = Some newName ->
    JsMap.get (identifierMap st) name = Some newName.

(** [tokens[i - 1]] in the loop of [replaceIdentifiers] started with
    [prev] before the tokens *)
Definition previousAt (prev : option Token) (tokens : list Token) (i : nat)
  : option Token :=
  match i with
  | S j => nth_error tokens j
  | O => prev
  end.

(** The map that applies to an identifier token at index [i], by its
    position: the member map at a member declaration and, for names the
    swizzle set does not hold, at a member access; the identifier map
    elsewhere. *)
Definition lookupAt (tokens : list Token) (i : nat) (token : Token)
  (identifierMap structMemberMap : JsMap.t string) : option string :=
  if memberDeclarationAt tokens i then JsMap.get structMemberMap (value token)
  else if memberAccessAt tokens i then
    if setHas swizzles (value token) then None
    else JsMap.get structMemberMap (value token)
  else JsMap.get identifierMap (value token).

(** The line is no directive. *)
Definition isPlainLine (line : string) : bool :=
  match directiveOf line with
  | None => true
  | Some _ => false
  end.

(** The lines expanded one after the other against one table *)
Fixpoint expandAll (table : Defines) (lines : list string)
  : Completion (list string) :=
  match lines with
  | [] => Return []
  | line :: rest =>
      expandedLine <- expandMacros line table ;;
      expandedRest <- expandAll table rest ;;
      Return (expandedLine :: expandedRest)
  end.

(** The text without its white space. *)
Fixpoint squeeze (s : string) : string :=
  match s with
  | "" => ""
  | String c r => if isSpace c then squeeze r else String c (squeeze r)
  end.

(** The texts of the tokens, one after the other. *)
Fixpoint valuesOf (tokens : list Token) : string :=
  match tokens with
  | [] => ""
  | t :: rest => value t ++ valuesOf rest
  end.

(** ** The scan of the tokenizer *)

(** What the token grammars give at the start of [slice]: the match of
    the first expression that matches, in the order in which
    tokenizeWgsl.ts tries them, as a skipped piece or as the token it
    makes. *)
Definition grammarMatch (wgslKeywords wgslBuiltins : string -> bool)
  (slice : string) : option (Segment * string) :=
  match whitespaceRegex slice with
  | Some (m, rest) => Some (Skipped m, rest)
  | None =>
  match commentRegex slice with
  | Some (m, rest) => Some (Skipped m, rest)
  | None =>
  match directiveRegex slice with
  | Some (m, rest) => Some (Emitted (mkToken directive m), rest)
  | None =>
  match stringRegex slice with
  | Some (m, rest) => Some (Emitted (mkToken string_ m), rest)
  | None =>
  match numberRegex slice with
  | Some (m, rest) => Some (Emitted (mkToken number m), rest)
  | None =>
  match attributeRegex slice with
  | Some (m, rest) => Some (Emitted (mkToken attribute m), rest)
  | None =>
  match identifierRegex slice with
  | Some (m, rest) =>
      Some (Emitted (mkToken (if wgslKeywords m then keyword
                              else if wgslBuiltins m then builtin
                              else identifier) m), rest)
  | None =>
  match operatorRegex slice with
  | Some (m, rest) => Some (Emitted (mkToken operator m), rest)
  | None => None
  end end end end end end end end.

(** [scans slice segs rest]: taking the match of the grammars again and
    again, from the start of [slice], cuts off the pieces [segs] and
    arrives at [rest]. *)
Inductive scans (wgslKeywords wgslBuiltins : string -> bool)
  : string -> list Segment -> string -> Prop :=
| scans_here (slice : string) : scans wgslKeywords wgslBuiltins slice [] slice
| scans_step (slice : string) (seg : Segment) (next : string)
    (segs : list Segment) (rest : string) :
    grammarMatch wgslKeywords wgslBuiltins slice = Some (seg, next) ->
    scans wgslKeywords wgslBuiltins next segs rest ->
    scans wgslKeywords wgslBuiltins slice (seg :: segs) rest.

(** A skipped piece is a whole run of white space or a whole comment; an
    emitted token is a complete lexeme of its class. *)
Definition segmentLexeme (wgslKeywords wgslBuiltins : string -> bool)
  (seg : Segment) : Prop :=
  match seg with
  | Skipped text => fullMatch whitespaceRegex text \/ fullMatch commentRegex text
  | Emitted t => lexeme wgslKeywords wgslBuiltins t
  end.

(** ** Invocations of function-like macros *)

(** The text of one argument, read at parenthesis depth [depth] above
    the argument list: its parentheses are balanced and it holds no comma
    outside them. *)
Fixpoint argumentText (depth : nat) (s : string) : bool :=
  match s with
  | "" => (depth =? 0)%nat
  | String c r =>
      if isChar "(" c then argumentText (S depth) r
      else if isChar ")" c then
        match depth with
        | S d => argumentText d r
        | O => false
        end
      else if isChar "," c then (0 <? depth)%nat && argumentText depth r
      else argumentText depth r
  end.

Definition isArgument (s : string) : bool := argumentText 0 s.

(** The arguments read from [name(piece, ..., piece)] for a macro with
    [paramsLength] parameters: the trimmed pieces, except that a single
    blank piece is no argument unless the macro has one parameter. *)
Definition parsedArguments (paramsLength : nat) (pieces : list string)
  : list string :=
  match pieces with
  | [piece] =>
      if isEmpty (trim piece) && negb (paramsLength =? 1)%nat then []
      else [trim piece]
  | _ => map trim pieces
  end.






(** [/^[a-zA-Z_][a-zA-Z0-9_]{0,}$/.test(s)] *)
Definition identifierName (s : string) : bool :=
  match identifierRegex s with
  | Some (_, "") => true
  | _ => false
  end.

(** A table as [#define] makes it: the names of the macros and of their
    parameters are identifiers. *)
Definition tableOfIdentifiers (defines : Defines) : bool :=
  forallb (fun entry : string * Macro =>
             identifierName (fst entry)
             && match params (snd entry) with
                | Some ps => forallb identifierName ps
                | None => true
                end)
    (JsMap.entries defines).

(** * Part II: properties *)

(** ** Strings *)

Lemma append_nil_r (s : string) : s ++ "" = s.
Proof. induction s; simpl; congruence. Qed.

Lemma append_assoc (a b c : string) : (a ++ b) ++ c = a ++ b ++ c.
Proof. induction a; simpl; congruence. Qed.

Lemma length_append (a b : string) :
  String.length (a ++ b) = String.length a + String.length b.
Proof. induction a; simpl; congruence. Qed.

Lemma isEmpty_false (s : string) : isEmpty s = false -> 0 < String.length s.
Proof. destruct s; simpl; [discriminate | lia]. Qed.

Lemma isEmpty_true (s : string) : isEmpty s = true -> s = "".
Proof. destruct s; simpl; [reflexivity | discriminate]. Qed.

Lemma span_app (p : ascii -> bool) (s a b : string) :
  span p s = (a, b) -> s = a ++ b.
Proof.
  revert a b; induction s as [|c s IH]; simpl; intros a b H.
  - inversion H; reflexivity.
  - destruct (p c).
    + destruct (span p s) as [a' b'] eqn:E. inversion H; subst.
      simpl. f_equal. apply IH. reflexivity.
    + inversion H; reflexivity.
Qed.

Lemma span_forall (p : ascii -> bool) (s a b : string) :
  span p s = (a, b) -> forallChars p a = true.
Proof.
  revert a b; induction s as [|c s IH]; simpl; intros a b H.
  - inversion H; reflexivity.
  - destruct (p c) eqn:Pc.
    + destruct (span p s) as [a' b'] eqn:E. inversion H; subst.
      simpl. rewrite Pc. simpl. eapply IH. reflexivity.
    + inversion H; reflexivity.
Qed.

Lemma span_rest (p : ascii -> bool) (s a b : string) :
  span p s = (a, b) ->
  match b with String c _ => p c = false | "" => True end.
Proof.
  revert a b; induction s as [|c s IH]; simpl; intros a b H.
  - inversion H; exact I.
  - destruct (p c) eqn:Pc.
    + destruct (span p s) as [a' b'] eqn:E. inversion H; subst.
      eapply IH. reflexivity.
    + inversion H; subst. exact Pc.
Qed.

Lemma span_all (p : ascii -> bool) (a b : string) :
  forallChars p a = true ->
  match b with String c _ => p c = false | "" => True end ->
  span p (a ++ b) = (a, b).
Proof.
  induction a as [|c a IH]; simpl; intros Ha Hb.
  - destruct b as [|c b]; simpl; [reflexivity | now rewrite Hb].
  - apply andb_true_iff in Ha as [Hc Ha]. rewrite Hc, (IH Ha Hb). reflexivity.
Qed.

Lemma span_idem (p : ascii -> bool) (s a b : string) :
  span p s = (a, b) -> span p a = (a, "").
Proof.
  intro H. rewrite <- (append_nil_r a) at 1.
  apply span_all; [eapply span_forall; eauto | exact I].
Qed.

Lemma stripPrefix_app (p s r : string) : stripPrefix p s = Some r -> s = p ++ r.
Proof.
  revert s; induction p as [|a p IH]; simpl; intros s H.
  - congruence.
  - destruct s as [|b s]; [discriminate|].
    destruct (Ascii.eqb a b) eqn:E; [|discriminate].
    apply Ascii.eqb_eq in E; subst. f_equal. now apply IH.
Qed.

Lemma stripPrefix_self (p r : string) : stripPrefix p (p ++ r) = Some r.
Proof.
  induction p as [|a p IH]; simpl; [reflexivity|].
  now rewrite Ascii.eqb_refl.
Qed.

Lemma stripPrefix_more (p s r t : string) :
  stripPrefix p s = Some r -> stripPrefix p (s ++ t) = Some (r ++ t).
Proof.
  intro H. apply stripPrefix_app in H. subst.
  rewrite append_assoc. apply stripPrefix_self.
Qed.

Lemma splitAtFirst_app (pat s a b : string) :
  splitAtFirst pat s = Some (a, b) -> s = a ++ pat ++ b.
Proof.
  revert a b; induction s as [|c s IH]; intros a b H.
  - simpl in H. destruct (stripPrefix pat "") eqn:E; [|discriminate].
    inversion H; subst. now apply stripPrefix_app in E.
  - simpl in H. destruct (stripPrefix pat (String c s)) eqn:E.
    + inversion H; subst. now apply stripPrefix_app in E.
    + destruct (splitAtFirst pat s) as [[a' b']|] eqn:E'; [|discriminate].
      inversion H; subst. simpl. f_equal. now apply IH.
Qed.

Lemma splitAtFirst_here (pat s r : string) :
  stripPrefix pat s = Some r -> splitAtFirst pat s = Some ("", r).
Proof. intro H. destruct s; simpl; now rewrite H. Qed.

Lemma splitAtFirst_idem (pat s a b : string) :
  splitAtFirst pat s = Some (a, b) -> splitAtFirst pat (a ++ pat) = Some (a, "").
Proof.
  assert (Hpat : stripPrefix pat pat = Some "").
  { rewrite <- (append_nil_r pat) at 2. apply stripPrefix_self. }
  revert a b; induction s as [|c s IH]; intros a b H.
  - simpl in H. destruct (stripPrefix pat "") eqn:E; [|discriminate].
    inversion H; subst. now apply splitAtFirst_here.
  - simpl in H. destruct (stripPrefix pat (String c s)) eqn:E.
    + inversion H; subst. now apply splitAtFirst_here.
    + destruct (splitAtFirst pat s) as [[a' b']|] eqn:E'; [|discriminate].
      inversion H; subst.
      pose proof (splitAtFirst_app _ _ _ _ E') as Hs.
      change (String c a' ++ pat) with (String c (a' ++ pat)).
      cbn [splitAtFirst].
      destruct (stripPrefix pat (String c (a' ++ pat))) eqn:E2.
      * apply (stripPrefix_more _ _ _ b) in E2.
        change (String c (a' ++ pat) ++ b) with (String c ((a' ++ pat) ++ b)) in E2.
        rewrite append_assoc, <- Hs in E2. congruence.
      * now rewrite (IH _ _ eq_refl).
Qed.

Lemma get_append_r (a b : string) (k : nat) :
  String.get (String.length a + k) (a ++ b) = String.get k b.
Proof. induction a; simpl; auto. Qed.

Lemma drop_append_r (a b : string) (k : nat) :
  drop (String.length a + k) (a ++ b) = drop k b.
Proof. induction a; simpl; auto. Qed.

(** ** The matchers of the tokenizer consume what they match *)

(** Normal form of nested concatenations. *)
Ltac str_norm :=
  repeat first [rewrite append_assoc | progress cbn [append]]; try reflexivity.

Lemma optChar_app (p : ascii -> bool) (s a b : string) :
  optChar p s = (a, b) -> s = a ++ b.
Proof.
  destruct s as [|c s]; simpl; intro H.
  - inversion H; reflexivity.
  - destruct (p c); inversion H; reflexivity.
Qed.

Lemma whitespaceRegex_consumes : consumes whitespaceRegex.
Proof.
  intros s m rest. unfold whitespaceRegex.
  destruct (span isSpace s) as [a b] eqn:E.
  destruct (isEmpty a) eqn:Ea; intro H; inversion H; subst.
  split; [now apply span_app in E | assumption].
Qed.

Lemma commentRegex_consumes : consumes commentRegex.
Proof.
  intros s m rest. unfold commentRegex.
  destruct (stripPrefix "//" s) as [r|] eqn:E1.
  - destruct (span notLineTerminator r) as [a b] eqn:E. intro H; inversion H; subst.
    apply stripPrefix_app in E1. apply span_app in E. subst. split; reflexivity.
  - destruct (stripPrefix "/*" s) as [r|] eqn:E2; [|discriminate].
    destruct (splitAtFirst "*/" r) as [[a b]|] eqn:E; [|discriminate].
    intro H; inversion H; subst.
    apply stripPrefix_app in E2. apply splitAtFirst_app in E. subst.
    split; [|reflexivity]. simpl. now str_norm.
Qed.

Lemma directiveParts_app (s w sp q rest : string) :
  directiveParts s = Some (w, sp, q, rest) ->
  s = "#" ++ w ++ sp ++ quoted q ++ rest.
Proof.
  unfold directiveParts.
  destruct (stripPrefix "#" s) as [r|] eqn:E0; [|discriminate].
  destruct (span isWord r) as [w' r1] eqn:E1.
  destruct (isEmpty w'); [discriminate|].
  destruct (span isSpace r1) as [sp' r2] eqn:E2.
  destruct (isEmpty sp'); [discriminate|].
  destruct r2 as [|c3 r3]; [discriminate|].
  destruct (isChar dquote c3) eqn:E3; [|discriminate].
  destruct (span (notChar dquote) r3) as [q' r4] eqn:E4.
  destruct (isEmpty q'); [discriminate|].
  destruct r4 as [|c5 r5]; [discriminate|].
  destruct (isChar dquote c5) eqn:E5; [|discriminate].
  intro H; inversion H; subst.
  apply stripPrefix_app in E0. apply span_app in E1, E2, E4.
  unfold isChar in E3, E5.
  apply Ascii.eqb_eq in E3, E5. subst.
  unfold quoted. simpl. f_equal. f_equal. f_equal. f_equal.
  now str_norm.
Qed.

Lemma directiveRegex_consumes : consumes directiveRegex.
Proof.
  intros s m rest. unfold directiveRegex.
  destruct (directiveParts s) as [[[[w sp] q] r]|] eqn:E; [|discriminate].
  intro H; inversion H; subst. apply directiveParts_app in E.
  split; [|reflexivity]. rewrite E. cbn [append]. f_equal.
  now str_norm.
Qed.

Lemma stringRegex_consumes : consumes stringRegex.
Proof.
  intros s m rest. unfold stringRegex.
  destruct s as [|c r]; [discriminate|].
  destruct (isChar dquote c) eqn:E0; [|discriminate].
  destruct (span (notChar dquote) r) as [q r1] eqn:E1.
  destruct r1 as [|c1 r2]; [discriminate|].
  destruct (isChar dquote c1) eqn:E2; [|discriminate].
  intro H; inversion H; subst. unfold isChar in E0, E2.
  apply Ascii.eqb_eq in E0, E2. apply span_app in E1. subst.
  split; [|reflexivity]. unfold quoted. simpl. f_equal.
  now str_norm.
Qed.

Lemma hexNumber_consumes : consumes hexNumber.
Proof.
  intros s m rest. unfold hexNumber.
  destruct (stripPrefix "0" s) as [[|x r]|] eqn:E0; try discriminate.
  destruct (isChar "x" x || isChar "X" x); [|discriminate].
  destruct (span isHex r) as [h r1] eqn:E1.
  destruct (isEmpty h); [discriminate|].
  destruct (optChar isUIF r1) as [suf r2] eqn:E2.
  intro H; inversion H; subst.
  apply stripPrefix_app in E0. apply span_app in E1. apply optChar_app in E2.
  subst. split; [|reflexivity]. simpl. now str_norm.
Qed.

Lemma decimalNumber_consumes : consumes decimalNumber.
Proof.
  intros s m rest. unfold decimalNumber.
  destruct (span isDigit s) as [d r] eqn:E0.
  destruct (isEmpty d) eqn:Ed; [discriminate|].
  assert (Hd : forall t, isEmpty (d ++ t) = false) by (destruct d; [discriminate | reflexivity]).
  apply span_app in E0.
  destruct (stripPrefix "." r) as [r1|] eqn:E1.
  - destruct (span isDigit r1) as [f r2] eqn:E2.
    destruct (optChar isUIF r2) as [suf r3] eqn:E3.
    intro H; inversion H; subst.
    apply stripPrefix_app in E1. apply span_app in E2. apply optChar_app in E3.
    subst. split; [|apply Hd]. now str_norm.
  - destruct (optChar isUIF r) as [suf r3] eqn:E3.
    intro H; inversion H; subst. apply optChar_app in E3. subst.
    split; [|apply Hd]. now str_norm.
Qed.

Lemma fractionNumber_consumes : consumes fractionNumber.
Proof.
  intros s m rest. unfold fractionNumber.
  destruct (span isDigit s) as [d r] eqn:E0. apply span_app in E0.
  destruct (stripPrefix "." r) as [r1|] eqn:E1; [|discriminate].
  destruct (span isDigit r1) as [f r2] eqn:E2.
  destruct (isEmpty f); [discriminate|].
  destruct (optChar (isChar "f") r2) as [suf r3] eqn:E3.
  intro H; inversion H; subst.
  apply stripPrefix_app in E1. apply span_app in E2. apply optChar_app in E3.
  subst. split; [now str_norm|].
  destruct d; reflexivity.
Qed.

Lemma numberRegex_consumes : consumes numberRegex.
Proof.
  intros s m rest. unfold numberRegex, orElse.
  destruct (hexNumber s) eqn:E1.
  - intro H; rewrite H in E1. now apply hexNumber_consumes.
  - destruct (decimalNumber s) eqn:E2.
    + intro H; rewrite H in E2. now apply decimalNumber_consumes.
    + apply fractionNumber_consumes.
Qed.

Lemma identifierRegex_consumes : consumes identifierRegex.
Proof.
  intros s m rest. unfold identifierRegex.
  destruct s as [|c r]; [discriminate|].
  destruct (isIdentStart c); [|discriminate].
  destruct (span isWord r) as [a b] eqn:E.
  intro H; inversion H; subst. apply span_app in E. subst.
  split; reflexivity.
Qed.

Lemma attributeArgs_app (inner : bool) (s m rest : string) :
  attributeArgs inner s = Some (m, rest) -> s = m ++ rest.
Proof.
  revert inner m rest; induction s as [|c s IH]; intros inner m rest; simpl.
  - discriminate.
  - destruct (isChar ")" c).
    + destruct inner.
      * destruct (attributeArgs false s) as [[m' r']|] eqn:E; [|discriminate].
        intro H; inversion H; subst. simpl. f_equal. eapply IH; eauto.
      * intro H; inversion H; reflexivity.
    + destruct (isChar "(" c).
      * destruct inner; [discriminate|].
        destruct (attributeArgs true s) as [[m' r']|] eqn:E; [|discriminate].
        intro H; inversion H; subst. simpl. f_equal. eapply IH; eauto.
      * destruct (attributeArgs inner s) as [[m' r']|] eqn:E; [|discriminate].
        intro H; inversion H; subst. simpl. f_equal. eapply IH; eauto.
Qed.

Lemma attributeRegex_consumes : consumes attributeRegex.
Proof.
  intros s m rest. unfold attributeRegex.
  destruct (stripPrefix "@" s) as [r|] eqn:E0; [|discriminate].
  destruct (identifierRegex r) as [[name r1]|] eqn:E1; [|discriminate].
  apply stripPrefix_app in E0. apply identifierRegex_consumes in E1 as [E1 _].
  destruct (stripPrefix "(" r1) as [r2|] eqn:E2.
  - destruct (attributeArgs false r2) as [[args r3]|] eqn:E3;
      intro H; inversion H; subst; (split; [|reflexivity]).
    + apply stripPrefix_app in E2. apply attributeArgs_app in E3. subst.
      simpl. f_equal. now str_norm.
    + reflexivity.
  - intro H; inversion H; subst. split; reflexivity.
Qed.

Lemma firstPrefix_app (alts : list string) (s m rest : string) :
  firstPrefix alts s = Some (m, rest) -> s = m ++ rest /\ In m alts.
Proof.
  induction alts as [|a alts IH]; simpl; [discriminate|].
  destruct (stripPrefix a s) as [r|] eqn:E.
  - intro H; inversion H; subst. split; [now apply stripPrefix_app | now left].
  - intro H. destruct (IH H). split; [assumption | now right].
Qed.

Lemma operatorRegex_consumes : consumes operatorRegex.
Proof.
  intros s m rest H. apply firstPrefix_app in H as [H1 H2].
  split; [assumption|].
  unfold operators in H2. simpl in H2.
  repeat (destruct H2 as [<-|H2]; [reflexivity|]). contradiction.
Qed.

Lemma whitespaceRegex_full (s m rest : string) :
  whitespaceRegex s = Some (m, rest) -> fullMatch whitespaceRegex m.
Proof.
  unfold fullMatch, whitespaceRegex.
  destruct (span isSpace s) as [a b] eqn:E.
  destruct (isEmpty a) eqn:Ea; intro H; inversion H; subst.
  now rewrite (span_idem _ _ _ _ E), Ea.
Qed.

Lemma commentRegex_full (s m rest : string) :
  commentRegex s = Some (m, rest) -> fullMatch commentRegex m.
Proof.
  unfold fullMatch, commentRegex.
  destruct (stripPrefix "//" s) as [r|] eqn:E1.
  - destruct (span notLineTerminator r) as [a b] eqn:E.
    intro H; inversion H; subst.
    simpl. rewrite (span_idem _ _ _ _ E). reflexivity.
  - destruct (stripPrefix "/*" s) as [r|] eqn:E2; [|discriminate].
    destruct (splitAtFirst "*/" r) as [[a b]|] eqn:E; [|discriminate].
    intro H; inversion H; subst.
    simpl. rewrite (splitAtFirst_idem _ _ _ _ E). reflexivity.
Qed.

Lemma emittedTokens_cons_app (tokens : list Token) (t : Token) (segs : list Segment) :
  (push tokens t ++ emittedTokens segs)%list
  = (tokens ++ emittedTokens (Emitted t :: segs))%list.
Proof. unfold push. simpl. now rewrite <- app_assoc. Qed.

(** The loop of the tokenizer, started with enough fuel on a slice at
    position [index], either consumes the whole slice, cutting it into
    segments, or stops at the first position where no grammar matches. *)
Lemma tokenizeLoop_spec (kw bi : string -> bool) :
  forall fuel slice index tokens,
  String.length slice < fuel ->
  (exists segs,
      tokenizeLoop kw bi fuel slice index tokens
        = Some (Return (tokens ++ emittedTokens segs)%list) /\
      concatSegments segs = slice /\ Forall segmentOK segs)
  \/
  (exists k c,
      tokenizeLoop kw bi fuel slice index tokens
        = Some (Throw (unexpectedCharacter (index + k) c)) /\
      String.get k slice = Some c /\
      noGrammarMatches (drop k slice)).
Proof.
  induction fuel as [|fuel IH]; intros slice index tokens Hfuel; [lia|].
  destruct slice as [|c0 s0].
  { left. exists []. simpl. rewrite app_nil_r. auto. }
  cbn [tokenizeLoop]. remember (String c0 s0) as slice eqn:Eslice.
  assert (Hstep : forall re m rest tokens' seg,
            re slice = Some (m, rest) -> consumes re ->
            (forall segs, (tokens' ++ emittedTokens segs)%list
                          = (tokens ++ emittedTokens (seg :: segs))%list) ->
            segmentText seg = m -> segmentOK seg ->
            (exists segs,
                tokenizeLoop kw bi fuel rest (index + String.length m) tokens'
                  = Some (Return (tokens ++ emittedTokens segs)%list) /\
                concatSegments segs = slice /\ Forall segmentOK segs)
            \/
            (exists k c,
                tokenizeLoop kw bi fuel rest (index + String.length m) tokens'
                  = Some (Throw (unexpectedCharacter (index + k) c)) /\
                String.get k slice = Some c /\
                noGrammarMatches (drop k slice))).
  { intros re m rest tokens' seg Hre Hcons Htok Htext Hok.
    destruct (Hcons _ _ _ Hre) as [Hs Hm]. apply isEmpty_false in Hm.
    assert (Hlen : String.length rest < fuel).
    { rewrite Hs, length_append in Hfuel. lia. }
    destruct (IH rest (index + String.length m) tokens' Hlen)
      as [(segs & H1 & H2 & H3) | (k & c & H1 & H2 & H3)].
    - left. exists (seg :: segs). rewrite H1, Htok. split; [reflexivity|].
      split; [|now constructor]. simpl. now rewrite Htext, H2.
    - right. exists (String.length m + k), c.
      rewrite H1, Nat.add_assoc. split; [reflexivity|].
      rewrite Hs, get_append_r, drop_append_r. auto. }
  destruct (whitespaceRegex slice) as [[m rest]|] eqn:E1.
  { apply (Hstep whitespaceRegex m rest tokens (Skipped m));
      auto using whitespaceRegex_consumes.
    left. eapply whitespaceRegex_full; eauto. }
  destruct (commentRegex slice) as [[m rest]|] eqn:E2.
  { apply (Hstep commentRegex m rest tokens (Skipped m));
      auto using commentRegex_consumes.
    right. eapply commentRegex_full; eauto. }
  assert (Htoken : forall re ty m rest,
            re slice = Some (m, rest) -> consumes re ->
            (exists segs,
                tokenizeLoop kw bi fuel rest (index + String.length m)
                  (push tokens (mkToken ty m))
                  = Some (Return (tokens ++ emittedTokens segs)%list) /\
                concatSegments segs = slice /\ Forall segmentOK segs)
            \/
            (exists k c,
                tokenizeLoop kw bi fuel rest (index + String.length m)
                  (push tokens (mkToken ty m))
                  = Some (Throw (unexpectedCharacter (index + k) c)) /\
                String.get k slice = Some c /\
                noGrammarMatches (drop k slice))).
  { intros re ty m rest Hre Hcons.
    apply (Hstep re m rest _ (Emitted (mkToken ty m))); auto.
    - intros segs. apply emittedTokens_cons_app.
    - simpl. destruct (Hcons _ _ _ Hre) as [_ Hm]. now destruct m. }
  destruct (directiveRegex slice) as [[m rest]|] eqn:E3.
  { eapply Htoken; eauto using directiveRegex_consumes. }
  destruct (stringRegex slice) as [[m rest]|] eqn:E4.
  { eapply Htoken; eauto using stringRegex_consumes. }
  destruct (numberRegex slice) as [[m rest]|] eqn:E5.
  { eapply Htoken; eauto using numberRegex_consumes. }
  destruct (attributeRegex slice) as [[m rest]|] eqn:E6.
  { eapply Htoken; eauto using attributeRegex_consumes. }
  destruct (identifierRegex slice) as [[m rest]|] eqn:E7.
  { eapply Htoken; eauto using identifierRegex_consumes. }
  destruct (operatorRegex slice) as [[m rest]|] eqn:E8.
  { eapply Htoken; eauto using operatorRegex_consumes. }
  right. exists 0, c0. rewrite Nat.add_0_r. split; [reflexivity|].
  split; [now rewrite Eslice|].
  unfold noGrammarMatches. simpl. tauto.
Qed.

(** ** The swizzle set *)

Lemma setHas_push (l : list string) (s x : string) :
  setHas (push l s) x = setHas l x || String.eqb x s.
Proof.
  unfold setHas, push. rewrite existsb_app. simpl. now rewrite orb_false_r.
Qed.

Lemma setHas_setAdd (l : list string) (s x : string) :
  setHas (setAdd l s) x = setHas l x || String.eqb x s.
Proof.
  unfold setAdd. destruct (setHas l s) eqn:E.
  - destruct (String.eqb x s) eqn:Ex; [|now rewrite orb_false_r].
    apply String.eqb_eq in Ex. subst. now rewrite E.
  - apply setHas_push.
Qed.

Lemma stripPrefix_append (p q x : string) :
  stripPrefix (p ++ q) x =
  match stripPrefix p x with
  | Some t => stripPrefix q t
  | None => None
  end.
Proof.
  revert x; induction p as [|a p IH]; intro x; simpl; [reflexivity|].
  destruct x as [|b x]; [reflexivity|].
  destruct (Ascii.eqb a b); [apply IH | reflexivity].
Qed.

Lemma isExtension_0 (prefix x : string) :
  isExtension prefix 0 x = String.eqb x prefix.
Proof.
  unfold isExtension. destruct (stripPrefix prefix x) as [t|] eqn:E.
  - apply stripPrefix_app in E. subst. destruct t as [|c t]; simpl.
    + rewrite append_nil_r. symmetry. apply String.eqb_refl.
    + symmetry. apply String.eqb_neq. intro H.
      apply (f_equal String.length) in H. rewrite length_append in H.
      simpl in H. lia.
  - symmetry. apply String.eqb_neq. intro H. subst.
    rewrite <- (append_nil_r prefix) in E at 2.
    rewrite stripPrefix_self in E. discriminate.
Qed.

Lemma isExtension_S (prefix : string) (n : nat) (x : string) :
  isExtension prefix (S n) x =
  existsb (fun component => isExtension (prefix ++ component) n x) components.
Proof.
  unfold isExtension, components. cbn [existsb].
  rewrite !stripPrefix_append.
  destruct (stripPrefix prefix x) as [[|a t]|]; [reflexivity | | reflexivity].
  cbn [stripPrefix String.length forallChars Nat.eqb].
  unfold isComponent at 1, setHas, components. cbn [existsb str String.eqb].
  rewrite !(Ascii.eqb_sym a).
  repeat match goal with
         | |- context [Ascii.eqb ?c a] => destruct (Ascii.eqb c a)
         end;
  destruct (String.length t =? n)%nat; destruct (forallChars isComponent t);
  reflexivity.
Qed.

Lemma setHas_generateCombinations (n : nat) :
  forall prefix result x,
  setHas (generateCombinations n prefix result) x
  = setHas result x || isExtension prefix n x.
Proof.
  induction n as [|n IH]; intros prefix result x.
  - simpl. now rewrite setHas_setAdd, isExtension_0.
  - rewrite isExtension_S. unfold components. cbn [generateCombinations fold_left existsb components].
    rewrite !IH, orb_false_r, !orb_assoc. reflexivity.
Qed.

Lemma setHas_swizzles (x : string) : setHas swizzles x = swizzleShaped x.
Proof.
  unfold swizzles, generateSwizzles. cbn [fold_left].
  rewrite !setHas_generateCombinations. unfold isExtension, swizzleShaped.
  cbn [stripPrefix setHas existsb orb].
  destruct x as [|a [|b [|c [|d [|e x]]]]]; cbn [String.length Nat.eqb Nat.leb andb orb];
    rewrite ?orb_false_r; reflexivity.
Qed.

(** The set has 4680 elements: from here on proofs use its
    characterisation and never unfold it. *)
Opaque swizzles.

Lemma isPotentialSwizzle_swizzleShaped (name : string) :
  isPotentialSwizzle name = swizzleShaped name.
Proof.
  unfold isPotentialSwizzle, swizzleShaped.
  assert (H : forall s, forallChars (fun char => setHas swizzles (str char)) s
                        = forallChars isComponent s).
  { induction s as [|c s IH]; cbn [forallChars]; [reflexivity|].
    rewrite IH, setHas_swizzles. unfold swizzleShaped.
    cbn [str String.length Nat.leb forallChars andb]. now rewrite andb_true_r. }
  rewrite H. clear H.
  destruct name as [|a [|b [|c [|d [|e x]]]]]; reflexivity.
Qed.

(** ** Maps *)

Lemma JsMap_get_set_other {V} (m : JsMap.t V) (k k' : string) (v : V) :
  k <> k' -> JsMap.get (JsMap.set m k v) k' = JsMap.get m k'.
Proof.
  intro Hk. induction m as [|[k0 v0] m IH]; simpl.
  - apply String.eqb_neq in Hk. now rewrite Hk.
  - destruct (String.eqb k0 k) eqn:E; simpl.
    + apply String.eqb_eq in E. subst.
      apply String.eqb_neq in Hk. now rewrite Hk.
    + now rewrite IH.
Qed.

Lemma JsMap_has_set_other {V} (m : JsMap.t V) (k k' : string) (v : V) :
  k <> k' -> JsMap.has (JsMap.set m k v) k' = JsMap.has m k'.
Proof. intro Hk. unfold JsMap.has. now rewrite JsMap_get_set_other. Qed.

Lemma JsMap_get_set_same {V} (m : JsMap.t V) (k : string) (v : V) :
  JsMap.get (JsMap.set m k v) k = Some v.
Proof.
  induction m as [|[k0 v0] m IH]; simpl.
  - now rewrite String.eqb_refl.
  - destruct (String.eqb k0 k) eqn:E; simpl; now rewrite E.
Qed.

Lemma JsMap_has_false {V} (m : JsMap.t V) (k : string) :
  JsMap.has m k = false -> JsMap.get m k = None.
Proof. unfold JsMap.has. now destruct (JsMap.get m k). Qed.

(** ** The collection passes register nothing else *)

Lemma registerName_other (n name : string) (st : JsMap.t string * nat) :
  n <> name ->
  JsMap.has (fst (registerName n st)) name = JsMap.has (fst st) name.
Proof.
  intro Hn. unfold registerName. destruct st as [map index].
  destruct (JsMap.has map n); [reflexivity|].
  cbn [nextName fst]. now apply JsMap_has_set_other.
Qed.

Lemma noMemberPosition_tail (name : string) (t : Token) (rest : list Token) :
  noMemberPosition name (t :: rest) = true -> noMemberPosition name rest = true.
Proof. cbn [noMemberPosition]. intro H. now apply andb_true_iff in H. Qed.

(** The struct pass leaves [name] out of its map when [name] is
    swizzle-shaped, and also when no identifier token [name] stands
    before a colon. *)
Lemma collectStructLoop_absent (name : string) :
  forall n tokens inBody st,
  List.length tokens <= n ->
  JsMap.has (fst st) name = false ->
  isPotentialSwizzle name = true \/ noMemberPosition name tokens = true ->
  JsMap.has (fst (collectStructLoop tokens inBody st)) name = false.
Proof.
  induction n as [|n IH]; intros tokens inBody st Hlen Hst Hname;
    destruct tokens as [|t rest]; cbn [collectStructLoop]; auto;
    cbn [List.length] in Hlen; [lia|].
  assert (Hrest : isPotentialSwizzle name = true \/ noMemberPosition name rest = true).
  { destruct Hname as [H|H]; [now left | right; eapply noMemberPosition_tail; eauto]. }
  assert (Hlen' : List.length rest <= n) by lia.
  destruct inBody.
  - destruct (String.eqb (value t) "}"); [now apply IH|].
    destruct (TokenType_eqb (type t) identifier && nextValueIs rest ":") eqn:Epos;
      [|now apply IH].
    destruct (isPotentialSwizzle (value t)) eqn:Esw; cbn [negb]; [now apply IH|].
    apply IH; auto. rewrite registerName_other; auto.
    intro Heq. destruct Hname as [H|H].
    + congruence.
    + cbn [noMemberPosition] in H. apply andb_true_iff in H as [H _].
      apply andb_true_iff in Epos as [E1 E2].
      rewrite E1, E2, Heq, String.eqb_refl in H. discriminate.
  - destruct (isKeyword t "struct"); [|now apply IH].
    destruct rest as [|t' rest']; [assumption|].
    apply IH; auto.
    + cbn [List.length] in Hlen'. lia.
    + destruct Hrest as [H|H]; [now left | right; eapply noMemberPosition_tail; eauto].
Qed.

(** ** Replacement leaves unmapped names alone *)

Lemma isKeyword_identifier (t : Token) (v : string) :
  type t = identifier -> isKeyword t v = false.
Proof. unfold isKeyword. now intros ->. Qed.

Lemma replaceIdentifier_unchanged
  (prev : option Token) (t : Token) (rest : list Token) (inStruct : bool)
  (im sm : JsMap.t string) :
  JsMap.has sm (value t) = false ->
  JsMap.has im (value t) = false
  \/ (inStruct && nextValueIs rest ":") || prevValueIs prev "." = true ->
  replaceIdentifier prev t rest inStruct im sm = t.
Proof.
  intros Hsm Hpos. unfold replaceIdentifier.
  rewrite Hsm, (JsMap_has_false _ _ Hsm). cbn [truthy andb].
  destruct (inStruct && nextValueIs rest ":"); [reflexivity|].
  destruct (prevValueIs prev "."); [reflexivity|].
  destruct Hpos as [H|H]; [|discriminate].
  now rewrite (JsMap_has_false _ _ H).
Qed.

Lemma replaceLoop_unchanged (im sm : JsMap.t string) (name : string) :
  JsMap.has sm name = false ->
  forall tokens prev inStruct i t,
  nth_error tokens i = Some t ->
  type t = identifier -> value t = name ->
  JsMap.has im name = false
  \/ (inStructFrom inStruct tokens i && valueIs (nth_error tokens (S i)) ":")
     || accessFrom prev tokens i = true ->
  nth_error (replaceLoop prev tokens inStruct im sm)
    (outputIndexFrom inStruct tokens i) = Some t.
Proof.
  intro Hsm. induction tokens as [|t0 rest IH]; intros prev inStruct i t Hnth Hty Hval Hpos.
  - destruct i; discriminate.
  - destruct i as [|i].
    + cbn in Hnth. inversion Hnth; subst t0. clear Hnth.
      cbn [replaceLoop outputIndexFrom].
      rewrite (isKeyword_identifier _ _ Hty), Hty. cbn [TokenType_eqb].
      destruct (inStruct && String.eqb (value t) "}"); [reflexivity|].
      cbn [nth_error]. f_equal.
      apply replaceIdentifier_unchanged; [now rewrite Hval|].
      rewrite Hval. destruct Hpos as [H|H]; [now left | right].
      cbn [inStructFrom accessFrom nth_error] in H.
      destruct rest; exact H.
    + cbn [nth_error] in Hnth.
      assert (Hpos' : JsMap.has im name = false
                \/ (inStructFrom (stepInStruct inStruct t0) rest i
                    && valueIs (nth_error rest (S i)) ":")
                   || accessFrom (Some t0) rest i = true).
      { destruct Hpos as [H|H]; [now left | right].
        cbn [inStructFrom nth_error accessFrom] in H.
        destruct i; exact H. }
      cbn [replaceLoop outputIndexFrom]. unfold pushes, stepInStruct.
      destruct (isKeyword t0 "struct") eqn:Ek.
      { cbn [orb Nat.add nth_error]. apply IH; auto.
        unfold stepInStruct in Hpos'. now rewrite Ek in Hpos'. }
      unfold stepInStruct in Hpos'. rewrite Ek in Hpos'.
      destruct (inStruct && String.eqb (value t0) "}") eqn:Eb.
      { cbn [orb Nat.add nth_error]. apply IH; auto. }
      destruct (TokenType_eqb (type t0) identifier) eqn:Ei.
      { assert (Hd : TokenType_eqb (type t0) directive = false)
          by (destruct (type t0); try discriminate; reflexivity).
        rewrite Hd. cbn [orb negb Nat.add nth_error]. apply IH; auto. }
      destruct (TokenType_eqb (type t0) directive) eqn:Ed.
      { assert (Hb : TokenType_eqb (type t0) builtin = false)
          by (destruct (type t0); try discriminate; reflexivity).
        rewrite Hb. cbn [orb negb Nat.add]. apply IH; auto. }
      rewrite orb_true_r. cbn [orb negb Nat.add nth_error]. apply IH; auto.
Qed.

(** C3.  A swizzle-shaped name (1 to 4 characters drawn from x, y, z, w,
    r, g, b, a: exactly the names [isPotentialSwizzle] accepts, and
    exactly the members of the generated swizzle set) is never registered
    in the struct-member map, and every identifier token of that name
    that stands in a struct body before a colon or directly after a dot
    is pushed unchanged by the replacement pass, whatever the identifier
    map holds. *)
Theorem swizzle_shaped_members_never_renamed
  (tokens : list Token) (index : nat) (identifierMap : JsMap.t string)
  (name : string) :
  swizzleShaped name = true ->
  let structMemberMap := fst (collectStructNames tokens index) in
  isPotentialSwizzle name = true /\
  setHas swizzles name = true /\
  JsMap.get structMemberMap name = None /\
  forall i t,
    nth_error tokens i = Some t ->
    type t = identifier -> value t = name ->
    memberDeclarationAt tokens i || memberAccessAt tokens i = true ->
    nth_error (replaceIdentifiers tokens identifierMap structMemberMap)
      (outputIndex tokens i) = Some t.
Proof.
  intros Hname structMemberMap.
  assert (Hsw : isPotentialSwizzle name = true)
    by now rewrite isPotentialSwizzle_swizzleShaped.
  assert (Hsm : JsMap.has structMemberMap name = false).
  { unfold structMemberMap, collectStructNames.
    eapply collectStructLoop_absent; eauto. }
  split; [assumption|]. split; [now rewrite setHas_swizzles|].
  split; [now apply JsMap_has_false|].
  intros i t Hnth Hty Hval Hpos.
  unfold replaceIdentifiers, outputIndex.
  apply (replaceLoop_unchanged identifierMap structMemberMap name Hsm
           tokens None false i t Hnth Hty Hval).
  right. unfold memberDeclarationAt, memberAccessAt, inStructDefinitionAt in Hpos.
  unfold accessFrom. destruct i; exact Hpos.
Qed.

(** The declaration [xy :] (index 3) and the access [. xy] (index 16)
    stay as they are, even under an identifier map that renames [xy]. *)
Lemma swizzle_shaped_members_never_renamed_witness :
  swizzleShaped "xy" = true /\
  let structMemberMap := fst (collectStructNames swizzleExample 0) in
  let out := replaceIdentifiers swizzleExample [("xy", "_7")] structMemberMap in
  nth_error out 3 = Some (mkToken identifier "xy") /\
  nth_error out 16 = Some (mkToken identifier "xy").
Proof.
  split; [reflexivity|].
  destruct (swizzle_shaped_members_never_renamed swizzleExample 0
              [("xy", "_7")] "xy" eq_refl) as (_ & _ & _ & H).
  split.
  - exact (H 3 _ eq_refl eq_refl eq_refl eq_refl).
  - exact (H 16 _ eq_refl eq_refl eq_refl eq_refl).
Defined.

Example obfuscate_keeps_swizzle_member :
  obfuscate (setHas wgslKeywords) (fun _ => false)
    "struct S { xy: vec2<f32> } fn f(v: vec2<f32>, s: S) { let xy = v.xy + s.xy; }"
  = Some (Return "struct _0{xy:vec2<f32>}fn _1(_2:vec2<f32>,_3:_0){let _4=_2.xy+_3.xy;}").
Proof. vm_compute. reflexivity. Qed.

(** ** Entry points *)

Section EntryPoint.
Variable name : string.

Lemma registerIdentifier_other (n : string) (st : Collected) :
  n <> name ->
  JsMap.has (identifierMap (registerIdentifier n st)) name
  = JsMap.has (identifierMap st) name
  /\ entryPointNames (registerIdentifier n st) = entryPointNames st.
Proof.
  intro Hn. unfold registerIdentifier.
  pose proof (registerName_other n name (identifierMap st, nameIndex st) Hn) as H.
  destruct (registerName n (identifierMap st, nameIndex st)) as [im index'].
  cbn [identifierMap entryPointNames fst] in *. auto.
Qed.




Lemma noOtherDeclaration_tail (t : Token) (rest : list Token) :
  noOtherDeclaration name (t :: rest) = true -> noOtherDeclaration name rest = true.
Proof. cbn [noOtherDeclaration]. intro H. now apply andb_true_iff in H. Qed.

Lemma noBinding_tail (t : Token) (rest : list Token) :
  noBinding name (t :: rest) = true -> noBinding name rest = true.
Proof. unfold noBinding. cbn [forallb]. intro H. now apply andb_true_iff in H. Qed.

Lemma declaredNowhereElse_tail (t : Token) (rest : list Token) :
  declaredNowhereElse name (t :: rest) -> declaredNowhereElse name rest.
Proof.
  intros (H1 & H2 & H3). repeat split;
    eauto using noOtherDeclaration_tail, noMemberPosition_tail, noBinding_tail.
Qed.


(** A name declared after [let], [var], [const] or [struct] is not
    [name]. *)
Lemma other_declaration_differs (t nameToken : Token) (rest : list Token) :
  declaredNowhereElse name (t :: nameToken :: rest) ->
  type t = keyword ->
  String.eqb (value t) "let" || String.eqb (value t) "var"
  || String.eqb (value t) "const" || String.eqb (value t) "struct" = true ->
  type nameToken = identifier ->
  value nameToken <> name.
Proof.
  intros (H & _ & _) Hty Hkw Hid Heq. cbn [noOtherDeclaration] in H.
  apply andb_true_iff in H as [H _]. unfold declares in H.
  rewrite Hty, Hkw in H. cbn [TokenType_eqb nextIsIdentifier nextValueIs negb andb] in H.
  rewrite Hid, Heq, String.eqb_refl in H. discriminate.
Qed.

(** A parameter name is not [name]. *)
Lemma member_position_differs (t : Token) (rest : list Token) :
  declaredNowhereElse name (t :: rest) ->
  TokenType_eqb (type t) identifier && nextValueIs rest ":" = true ->
  value t <> name.
Proof.
  intros (_ & H & _) Hpos Heq. cbn [noMemberPosition] in H.
  apply andb_true_iff in H as [H _].
  apply andb_true_iff in Hpos as [H1 H2].
  rewrite H1, H2, Heq, String.eqb_refl in H. discriminate.
Qed.

Lemma binding_differs (t : Token) (rest : list Token) :
  declaredNowhereElse name (t :: rest) -> isDirectiveOf "binding" name t = false.
Proof.
  intros (_ & _ & H). unfold noBinding in H. cbn [forallb] in H.
  apply andb_true_iff in H as [H _]. now apply negb_true_iff in H.
Qed.

Lemma TokenType_eqb_eq (a b : TokenType) : TokenType_eqb a b = true -> a = b.
Proof. destruct a, b; simpl; congruence. Qed.

End EntryPoint.














(** Each of the provisos is needed: with the directive in first place,
    the entry point is still renamed when [main2] is also a variable, a
    parameter or a bound name, and when the directive stands inside a
    parameter list the collection passes over it; a member [main2] is
    renamed where it is declared. *)
Example entry_point_provisos_are_needed :
  let run := obfuscate (setHas wgslKeywords) (fun _ => false) in
  let directive := "#entrypoint " ++ quoted "main2" ++ " " in
  run (directive ++ "fn main2(){} var main2 = 1;")
  = Some (Return "fn _0(){}var _0=1;") /\
  run (directive ++ "fn main2(){} fn helper(main2: f32){}")
  = Some (Return "fn _1(){}fn _0(_1:f32){}") /\
  run (directive ++ "#binding " ++ quoted "main2" ++ " fn main2(){}")
  = Some (Return ("//#!binding main2 _0" ++ newline ++ "fn _0(){}")) /\
  run ("fn f(" ++ directive ++ "){} fn main2(){}")
  = Some (Return "fn _0(){}fn _1(){}") /\
  run (directive ++ "struct S { main2: f32 } fn main2(){}")
  = Some (Return "struct _1{_0:f32}fn main2(){}").
Proof. cbv zeta. repeat split; vm_compute; reflexivity. Qed.

Example obfuscate_keeps_entry_point :
  obfuscateTokens (entrypointMain2 :: main2AndHelper)
  = "fn main2(){}fn _0(){main2();}".
Proof. vm_compute. reflexivity. Qed.

(** ** Macro expansion *)

(** C2, the failing input: the macro name occurs only inside the string
    literal, and the literal comes back with one dollar sign instead of
    two, because the literal is put back as a replacement string. *)
Lemma string_literal_with_dollars_is_altered :
  expandMacros (quoted "WIDTH $$") [("WIDTH", mkMacro "800" None)]
  = Return (quoted "WIDTH $").
Proof. vm_compute. reflexivity. Qed.

(** Without a dollar sign in it the literal survives. *)
Example string_literal_protected :
  expandMacros ("let s = " ++ quoted "WIDTH" ++ " + WIDTH;")
    [("WIDTH", mkMacro "800" None)]
  = Return ("let s = " ++ quoted "WIDTH" ++ " + 800;").
Proof. vm_compute. reflexivity. Qed.

(** ** Expression evaluation *)

Lemma forallChars_append (p : ascii -> bool) (a b : string) :
  forallChars p (a ++ b) = forallChars p a && forallChars p b.
Proof. induction a as [|c a IH]; simpl; [reflexivity|]. now rewrite IH, andb_assoc. Qed.

Lemma stripPrefix_forall (p : ascii -> bool) (pre s r : string) :
  forallChars p s = true -> stripPrefix pre s = Some r -> forallChars p r = true.
Proof.
  intros Hs H. apply stripPrefix_app in H. subst.
  rewrite forallChars_append in Hs. now apply andb_true_iff in Hs.
Qed.

Lemma word_not_space (c : ascii) : isWord c = true -> isSpace c = false.
Proof. destruct c as [[] [] [] [] [] [] [] []]; vm_compute; congruence. Qed.

Lemma trimStart_nonspace (c : ascii) (r : string) :
  isSpace c = false -> trimStart (String c r) = String c r.
Proof. intro H. unfold trimStart. cbn [span]. now rewrite H. Qed.

Lemma trimStart_word (s : string) :
  forallChars isWord s = true -> trimStart s = s.
Proof.
  destruct s as [|c r]; [reflexivity|]. cbn [forallChars]. intro H.
  apply andb_true_iff in H as [H _]. now apply trimStart_nonspace, word_not_space.
Qed.

(** An identifier: the whole of [name] matches [[a-zA-Z_][a-zA-Z0-9_]*]. *)
Lemma identifier_shape (name : string) :
  identifierRegex name = Some (name, "") ->
  exists c r, name = String c r /\ isIdentStart c = true /\ forallChars isWord r = true.
Proof.
  unfold identifierRegex. destruct name as [|c r]; [discriminate|].
  destruct (isIdentStart c) eqn:Ec; [|discriminate].
  destruct (span isWord r) as [m rest] eqn:E. intro H.
  injection H as -> ->.
  exists c, r. repeat split; auto. eapply span_forall; eauto.
Qed.

Lemma identifier_all_word (name : string) :
  identifierRegex name = Some (name, "") -> forallChars isWord name = true.
Proof.
  intro H. destruct (identifier_shape _ H) as (c & r & -> & Hc & Hr).
  cbn [forallChars]. rewrite Hr. unfold isWord. now rewrite Hc.
Qed.

Lemma identifierRegex_before (name rest : string) :
  identifierRegex name = Some (name, "") -> firstIsWord rest = false ->
  identifierRegex (name ++ rest) = Some (name, rest).
Proof.
  intros H Hrest. destruct (identifier_shape _ H) as (c & r & -> & Hc & Hr).
  cbn [append identifierRegex]. rewrite Hc, (span_all isWord r rest Hr); [reflexivity|].
  now destruct rest.
Qed.

Lemma replaceAll_skip (f : bool -> string -> option (string * string)) (s : string) :
  forall skip prevWord, String.length s <= skip -> replaceAll f skip prevWord s = "".
Proof.
  induction s as [|c r IH]; intros skip prevWord H; [reflexivity|].
  cbn [String.length] in H. destruct skip as [|k]; [lia|].
  cbn [replaceAll]. apply IH. lia.
Qed.

(** A replacement that finds nothing in runs of word characters leaves
    them alone. *)
Lemma replaceAll_words (f : bool -> string -> option (string * string)) :
  (forall prevWord s, forallChars isWord s = true -> f prevWord s = None) ->
  forall s prevWord, forallChars isWord s = true -> replaceAll f 0 prevWord s = s.
Proof.
  intros Hf. induction s as [|c r IH]; intros prevWord Hs; [reflexivity|].
  cbn [replaceAll]. rewrite (Hf _ _ Hs).
  cbn [forallChars] in Hs. apply andb_true_iff in Hs as [_ Hs].
  now rewrite IH.
Qed.

Lemma definedAt_words (s : string) : forallChars isWord s = true -> definedAt s = None.
Proof.
  intro Hs. unfold definedAt.
  destruct (stripPrefix "defined" s) as [r1|] eqn:E; [|reflexivity].
  pose proof (stripPrefix_forall _ _ _ _ Hs E) as Hr1.
  rewrite (trimStart_word _ Hr1).
  destruct r1 as [|c r]; [reflexivity|].
  cbn [forallChars] in Hr1. apply andb_true_iff in Hr1 as [Hc _].
  cbn [stripPrefix]. destruct (Ascii.eqb "(" c) eqn:Ec; [|reflexivity].
  apply Ascii.eqb_eq in Ec. subst. discriminate.
Qed.

Lemma span_words (s : string) : forallChars isWord s = true -> span isWord s = (s, "").
Proof.
  intro H. rewrite <- (append_nil_r s) at 1. now apply span_all.
Qed.

Lemma equalityAt_words (prevWord : bool) (s : string) :
  forallChars isWord s = true -> equalityAt prevWord s = None.
Proof.
  intro Hs. unfold equalityAt. destruct prevWord; [reflexivity|].
  unfold identifierRegex. destruct s as [|c r]; [reflexivity|].
  destruct (isIdentStart c); [|reflexivity].
  cbn [forallChars] in Hs. apply andb_true_iff in Hs as [_ Hs].
  now rewrite (span_words _ Hs).
Qed.

Lemma findEquality_words (s : string) :
  forall prevWord, forallChars isWord s = true -> findEquality prevWord s = None.
Proof.
  induction s as [|c r IH]; intros prevWord Hs.
  - cbn [findEquality]. now rewrite equalityAt_words.
  - cbn [findEquality]. rewrite (equalityAt_words _ _ Hs).
    cbn [forallChars] in Hs. apply andb_true_iff in Hs as [_ Hs].
    now rewrite IH.
Qed.

Lemma equalityLoop_words (fuel : nat) (defines : Defines) (s : string) :
  forallChars isWord s = true -> equalityLoop fuel defines s 0 = s.
Proof.
  intro Hs. destruct fuel; [reflexivity|].
  cbn [equalityLoop]. unfold execEquality.
  cbn [Nat.ltb Nat.leb drop]. now rewrite findEquality_words.
Qed.

Lemma replaceIdentifiersWithValues_identifier (defines : Defines) (name : string) :
  identifierRegex name = Some (name, "") ->
  replaceIdentifiersWithValues defines name = identifierValue defines name.
Proof.
  intro H. unfold replaceIdentifiersWithValues.
  destruct name as [|c r]; [discriminate|].
  cbn [replaceAll]. unfold identifierAt. rewrite H.
  rewrite replaceAll_skip; [apply append_nil_r | cbn [String.length]; lia].
Qed.

Lemma definedAt_call (name : string) :
  identifierRegex name = Some (name, "") ->
  definedAt ("defined(" ++ name ++ ")") = Some (name, "").
Proof.
  intro H. unfold definedAt.
  change ("defined(" ++ name ++ ")") with ("defined" ++ "(" ++ name ++ ")").
  rewrite stripPrefix_self.
  change ("(" ++ name ++ ")") with (String "(" (name ++ ")")).
  rewrite trimStart_nonspace by reflexivity.
  change (String "(" (name ++ ")")) with ("(" ++ (name ++ ")")).
  rewrite stripPrefix_self.
  assert (Ht : trimStart (name ++ ")") = name ++ ")").
  { destruct (identifier_shape _ H) as (c & r & -> & Hc & _).
    apply trimStart_nonspace, word_not_space. unfold isWord. now rewrite Hc. }
  rewrite Ht, (identifierRegex_before name ")" H eq_refl).
  reflexivity.
Qed.

Lemma replaceDefined_call (defines : Defines) (name : string) :
  identifierRegex name = Some (name, "") ->
  replaceDefined defines ("defined(" ++ name ++ ")")
  = if JsMap.has defines name then "1" else "0".
Proof.
  intro H. unfold replaceDefined.
  change ("defined(" ++ name ++ ")") with (String "d" ("efined(" ++ name ++ ")")).
  cbn [replaceAll].
  change (String "d" ("efined(" ++ name ++ ")")) with ("defined(" ++ name ++ ")").
  rewrite (definedAt_call _ H).
  rewrite replaceAll_skip; [apply append_nil_r | cbn [String.length]; lia].
Qed.

(** C10.  When [name] is an object-like macro with the empty replacement
    text, the identifier pass of [evaluateExpression] turns the bare name
    into the text 0, so the condition [name] evaluates to false, whereas
    [defined(name)] is rewritten to 1 and evaluates to true, and the table
    lookup of [#ifdef name] succeeds. *)
Theorem empty_macro_is_zero_but_defined
  (js_eval : Eval) (defines : Defines) (name : string) :
  identifierRegex name = Some (name, "") ->
  JsMap.get defines name = Some (mkMacro "" None) ->
  identifierValue defines name = "0" /\
  replaceIdentifiersWithValues defines name = "0" /\
  evaluateExpression js_eval name defines = Return false /\
  replaceDefined defines ("defined(" ++ name ++ ")") = "1" /\
  evaluateExpression js_eval ("defined(" ++ name ++ ")") defines = Return true /\
  JsMap.has defines name = true.
Proof.
  intros Hid Hget.
  assert (Hval : identifierValue defines name = "0").
  { unfold identifierValue. now rewrite Hget. }
  assert (Hhas : JsMap.has defines name = true).
  { unfold JsMap.has. now rewrite Hget. }
  assert (Hrep : replaceIdentifiersWithValues defines name = "0").
  { now rewrite replaceIdentifiersWithValues_identifier. }
  assert (Hdef : replaceDefined defines ("defined(" ++ name ++ ")") = "1").
  { now rewrite replaceDefined_call, Hhas. }
  pose proof (identifier_all_word _ Hid) as Hw.
  repeat split; auto.
  - unfold evaluateExpression.
    assert (H1 : replaceDefined defines name = name).
    { unfold replaceDefined. apply replaceAll_words; auto.
      intros _ s Hs. now rewrite definedAt_words. }
    rewrite H1, (equalityLoop_words _ _ _ Hw), Hrep. reflexivity.
  - unfold evaluateExpression. rewrite Hdef. reflexivity.
Qed.

Lemma empty_macro_is_zero_but_defined_witness :
  evaluateExpression (fun _ _ => Value true) "FLAG" [("FLAG", mkMacro "" None)]
  = Return false /\
  evaluateExpression (fun _ _ => Value false) "defined(FLAG)"
    [("FLAG", mkMacro "" None)]
  = Return true.
Proof.
  split.
  - exact (proj1 (proj2 (proj2 (empty_macro_is_zero_but_defined
                                  (fun _ _ => Value true)
                                  [("FLAG", mkMacro "" None)] "FLAG"
                                  eq_refl eq_refl)))).
  - exact (proj1 (proj2 (proj2 (proj2 (proj2
             (empty_macro_is_zero_but_defined
                (fun _ _ => Value false)
                [("FLAG", mkMacro "" None)] "FLAG" eq_refl eq_refl)))))).
Defined.

(** When whatever [eval] throws is an object whose message can be read,
    as every syntax error is, [evaluateExpression] returns a boolean,
    and returns false when the final evaluation throws. *)
Lemma evaluateExpression_fail_safe
  (js_eval : Eval) (expr : string) (defines : Defines) :
  (forall text table, js_eval text table <> Raises ThrownNullish) ->
  exists result,
    evaluateExpression js_eval expr defines = Return result /\
    forall text message,
      text = convertOperators
               (replaceIdentifiersWithValues defines
                  (equalityLoop (S (String.length (replaceDefined defines expr)))
                     defines (replaceDefined defines expr) 0)) ->
      standaloneNumber text = None ->
      js_eval text defines = Raises (ThrownObject message) ->
      result = false.
Proof.
  intro Hsafe. unfold evaluateExpression.
  set (text := convertOperators _).
  destruct (standaloneNumber text) eqn:En.
  - eexists. split; [reflexivity|]. intros text' message -> Hn. congruence.
  - destruct (js_eval text defines) as [truthy | [message|]] eqn:Ee.
    + eexists. split; [reflexivity|]. intros text' message -> _ H.
      fold text in H. congruence.
    + eexists. split; [reflexivity|]. reflexivity.
    + now apply Hsafe in Ee.
Qed.

(** C8, the failing input: the macro [T] stands for the text
    [throw null]; evaluating the condition [T] throws [null], the handler
    reads [e.message] of it, and the [TypeError] that raises leaves
    [evaluateExpression]. *)
Lemma evaluateExpression_propagates_thrown_null :
  evaluateExpression evalThrowNull "T" [("T", mkMacro "throw null" None)]
  = Throw (TypeError nullishMessage).
Proof. vm_compute. reflexivity. Qed.

(** ** Conditional processing *)

Lemma directiveOf_None (line : string) :
  directiveOf line = None -> directiveLineOf line = None.
Proof. unfold directiveOf. now destruct (directiveLineOf line). Qed.

Lemma directiveOf_Some (line : string) (d : Directive) :
  directiveOf line = Some d ->
  exists directiveLine,
    directiveLineOf line = Some directiveLine /\ classify directiveLine = d.
Proof.
  unfold directiveOf. destruct (directiveLineOf line) as [dl|]; [|discriminate].
  intro H. injection H as <-. now exists dl.
Qed.

Lemma isCurrentlyIncluding_Forall (stack : list ConditionalState) :
  isCurrentlyIncluding stack = true
  <-> Forall (fun frame => including frame = true) stack.
Proof. unfold isCurrentlyIncluding. rewrite forallb_forall, Forall_forall. tauto. Qed.

(** A line that is no directive *)
Lemma processLine_plain (js_eval : Eval) (line : string) (st : State) :
  directiveOf line = None ->
  processLine js_eval line st
  = if isCurrentlyIncluding (conditionalStack st) then
      expandedLine <- expandMacros line (defines st) ;;
      Return (mkState (conditionalStack st) (defines st)
                (push (resultLines st) expandedLine))
    else Return st.
Proof.
  intro H. unfold processLine. now rewrite (directiveOf_None _ H).
Qed.

Lemma processLine_ifdef (js_eval : Eval) (line name : string) (st : State) :
  directiveOf line = Some (Ifdef name) ->
  processLine js_eval line st
  = Return (pushState (if isCurrentlyIncluding (conditionalStack st)
                       then JsMap.has (defines st) name else false) st).
Proof.
  intro H. destruct (directiveOf_Some _ _ H) as (dl & H1 & H2).
  unfold processLine, processDirective. now rewrite H1, H2.
Qed.

Lemma processLine_if (js_eval : Eval) (line expr : string) (st : State) :
  directiveOf line = Some (If expr) ->
  processLine js_eval line st
  = (result <-
       (if isCurrentlyIncluding (conditionalStack st)
        then evaluateExpression js_eval expr (defines st)
        else Return false) ;;
     Return (pushState result st)).
Proof.
  intro H. destruct (directiveOf_Some _ _ H) as (dl & H1 & H2).
  unfold processLine, processDirective. now rewrite H1, H2.
Qed.

Lemma processLine_endif (js_eval : Eval) (line : string) (st : State) :
  directiveOf line = Some Endif ->
  processLine js_eval line st
  = match conditionalStack st with
    | [] => Throw (Error "Unexpected #endif without matching #if")
    | _ :: below => Return (mkState below (defines st) (resultLines st))
    end.
Proof.
  intro H. destruct (directiveOf_Some _ _ H) as (dl & H1 & H2).
  unfold processLine, processDirective. now rewrite H1, H2.
Qed.

Lemma processLine_elif (js_eval : Eval) (line expr : string) (st : State) :
  directiveOf line = Some (Elif expr) ->
  processLine js_eval line st
  = match conditionalStack st with
    | [] => Throw (Error "Unexpected #elif without matching #if")
    | currentState :: below =>
        if hasElse currentState then Throw (Error "Unexpected #elif after #else")
        else if negb (hasBeenTrue currentState) then
          if parentIncluding below then
            result <- evaluateExpression js_eval expr (defines st) ;;
            Return (setTop (mkConditionalState result
                              (if result then true else hasBeenTrue currentState)
                              (hasElse currentState)) below st)
          else
            Return (setTop (mkConditionalState false (hasBeenTrue currentState)
                              (hasElse currentState)) below st)
        else
          Return (setTop (mkConditionalState false (hasBeenTrue currentState)
                            (hasElse currentState)) below st)
    end.
Proof.
  intro H. destruct (directiveOf_Some _ _ H) as (dl & H1 & H2).
  unfold processLine, processDirective. now rewrite H1, H2.
Qed.

Lemma processLine_else (js_eval : Eval) (line : string) (st : State) :
  directiveOf line = Some Else ->
  processLine js_eval line st
  = match conditionalStack st with
    | [] => Throw (Error "Unexpected #else without matching #if")
    | currentState :: below =>
        if hasElse currentState
        then Throw (Error "Multiple #else directives for the same conditional")
        else if negb (hasBeenTrue currentState) then
          Return (setTop (mkConditionalState (parentIncluding below) true true)
                    below st)
        else
          Return (setTop (mkConditionalState false (hasBeenTrue currentState) true)
                    below st)
    end.
Proof.
  intro H. destruct (directiveOf_Some _ _ H) as (dl & H1 & H2).
  unfold processLine, processDirective. now rewrite H1, H2.
Qed.

Lemma processLines_cons (js_eval : Eval) (line : string) (rest : list string)
  (st st' : State) :
  processLine js_eval line st = Return st' ->
  processLines js_eval (line :: rest) st = processLines js_eval rest st'.
Proof. intro H. cbn [processLines]. now rewrite H. Qed.

(** C1.  A line that is no directive is pushed to the output, after
    macro expansion, exactly when every frame of the stack has
    [including] set; otherwise the state is left as it is.  For
    [#ifdef OUTER] around [#ifdef INNER], with lines [a], [b], [c] before,
    inside and after the inner conditional, the output holds [a] and [c]
    iff [OUTER] is defined and [b] iff both names are. *)
Theorem line_emitted_iff_every_frame_includes
  (js_eval : Eval) (table : Defines) (a b c a' b' c' : string) :
  directiveOf a = None -> directiveOf b = None -> directiveOf c = None ->
  expandMacros a table = Return a' ->
  expandMacros b table = Return b' ->
  expandMacros c table = Return c' ->
  (forall line st,
      directiveOf line = None ->
      (isCurrentlyIncluding (conditionalStack st) = true
       <-> Forall (fun frame => including frame = true) (conditionalStack st))
      /\
      processLine js_eval line st
      = if isCurrentlyIncluding (conditionalStack st) then
          expandedLine <- expandMacros line (defines st) ;;
          Return (mkState (conditionalStack st) (defines st)
                    (push (resultLines st) expandedLine))
        else Return st)
  /\
  processConditionals js_eval
    ["#ifdef OUTER"; a; "#ifdef INNER"; b; "#endif"; c; "#endif"] table
  = Return (if JsMap.has table "OUTER"
            then a' :: (if JsMap.has table "INNER" then [b'] else []) ++ [c']
            else [])%list.
Proof.
  intros Ha Hb Hc Ea Eb Ec. split.
  { intros line st Hline. split;
      [apply isCurrentlyIncluding_Forall | now apply processLine_plain]. }
  assert (Houter : directiveOf "#ifdef OUTER" = Some (Ifdef "OUTER")) by reflexivity.
  assert (Hinner : directiveOf "#ifdef INNER" = Some (Ifdef "INNER")) by reflexivity.
  assert (Hendif : directiveOf "#endif" = Some Endif) by reflexivity.
  unfold processConditionals.
  step processLine_ifdef Houter.
  state_simpl.
  destruct (JsMap.has table "OUTER").
  - step processLine_plain Ha. state_simpl. rewrite Ea. state_simpl.
    step processLine_ifdef Hinner. state_simpl.
    destruct (JsMap.has table "INNER").
    + step processLine_plain Hb. state_simpl. rewrite Eb. state_simpl.
      step processLine_endif Hendif. state_simpl.
      step processLine_plain Hc. state_simpl. rewrite Ec. state_simpl.
      step processLine_endif Hendif. reflexivity.
    + step processLine_plain Hb. state_simpl.
      step processLine_endif Hendif. state_simpl.
      step processLine_plain Hc. state_simpl. rewrite Ec. state_simpl.
      step processLine_endif Hendif. reflexivity.
  - step processLine_plain Ha. state_simpl.
    step processLine_ifdef Hinner. state_simpl.
    step processLine_plain Hb. state_simpl.
    step processLine_endif Hendif. state_simpl.
    step processLine_plain Hc. state_simpl.
    step processLine_endif Hendif. reflexivity.
Qed.

(** Only [OUTER] is defined: the inner line is left out, the outer lines
    stay. *)
Lemma line_emitted_iff_every_frame_includes_witness :
  processConditionals evalUnused
    ["#ifdef OUTER"; "let a = OUTER;"; "#ifdef INNER"; "let b = 2;"; "#endif";
     "let c = 3;"; "#endif"]
    [("OUTER", mkMacro "1" None)]
  = Return ["let a = 1;"; "let c = 3;"].
Proof.
  exact (proj2 (line_emitted_iff_every_frame_includes evalUnused
                  [("OUTER", mkMacro "1" None)]
                  "let a = OUTER;" "let b = 2;" "let c = 3;"
                  "let a = 1;" "let b = 2;" "let c = 3;"
                  eq_refl eq_refl eq_refl eq_refl eq_refl eq_refl)).
Defined.

(** C7.  In a chain whose [#if] condition is false and whose first
    [#elif] condition is true, only the body of that [#elif] reaches the
    output, whatever the condition of the second [#elif] is: nothing is
    assumed about its evaluation.  In general, once a branch of a chain
    has been true, a further [#elif] or [#else] of that chain (one that
    has not had its [#else] yet) sets [including] to false without
    looking at the condition, the table or the evaluator. *)
Theorem elif_chain_takes_first_true_branch
  (js_eval : Eval) (table : Defines)
  (lineIf lineElif2 lineElif3 lineEndif cond1 cond2 cond3 a b c b' : string) :
  directiveOf lineIf = Some (If cond1) ->
  directiveOf lineElif2 = Some (Elif cond2) ->
  directiveOf lineElif3 = Some (Elif cond3) ->
  directiveOf lineEndif = Some Endif ->
  directiveOf a = None -> directiveOf b = None -> directiveOf c = None ->
  evaluateExpression js_eval cond1 table = Return false ->
  evaluateExpression js_eval cond2 table = Return true ->
  expandMacros b table = Return b' ->
  processConditionals js_eval
    [lineIf; a; lineElif2; b; lineElif3; c; lineEndif] table
  = Return [b']
  /\
  (forall (other : Eval) line st currentState below,
      conditionalStack st = currentState :: below ->
      hasBeenTrue currentState = true -> hasElse currentState = false ->
      (forall expr,
          directiveOf line = Some (Elif expr) ->
          processLine other line st
          = Return (setTop (mkConditionalState false true false) below st))
      /\
      (directiveOf line = Some Else ->
       processLine other line st
       = Return (setTop (mkConditionalState false true true) below st))).
Proof.
  intros Hif Helif2 Helif3 Hendif Ha Hb Hc E1 E2 Eb. split.
  - unfold processConditionals.
    step processLine_if Hif. state_simpl. rewrite E1. state_simpl.
    step processLine_plain Ha. state_simpl.
    step processLine_elif Helif2. state_simpl. rewrite E2. state_simpl.
    step processLine_plain Hb. state_simpl. rewrite Eb. state_simpl.
    step processLine_elif Helif3. state_simpl.
    step processLine_plain Hc. state_simpl.
    step processLine_endif Hendif. reflexivity.
  - intros other line st currentState below Hstack Htrue Helse. split.
    + intros expr H. rewrite (processLine_elif _ _ _ _ H), Hstack, Helse, Htrue.
      reflexivity.
    + intro H. rewrite (processLine_else _ _ _ H), Hstack, Helse, Htrue.
      reflexivity.
Qed.

(** [#if 0], [#elif 1], [#elif 1]: only B comes out. *)
Lemma elif_chain_takes_first_true_branch_witness :
  processConditionals evalUnused
    ["#if 0"; "A"; "#elif 1"; "B"; "#elif 1"; "C"; "#endif"] []
  = Return ["B"].
Proof.
  exact (proj1 (elif_chain_takes_first_true_branch evalUnused []
                  "#if 0" "#elif 1" "#elif 1" "#endif" "0" "1" "1"
                  "A" "B" "C" "B"
                  eq_refl eq_refl eq_refl eq_refl eq_refl eq_refl eq_refl
                  eq_refl eq_refl eq_refl)).
Defined.

(** ** Definitions *)

Lemma drop_length_append (a b : string) : drop (String.length a) (a ++ b) = b.
Proof. rewrite <- (Nat.add_0_r (String.length a)). apply drop_append_r. Qed.

Lemma keywordMatch_define (sp name tail : string) :
  isEmpty sp = false -> forallChars isSpace sp = true ->
  identifierRegex name = Some (name, "") ->
  keywordMatch "#define" ("#define" ++ sp ++ name ++ tail) = Some (name ++ tail).
Proof.
  intros Hsp Hspaces Hname. unfold keywordMatch.
  rewrite stripPrefix_self.
  rewrite (span_all isSpace sp (name ++ tail) Hspaces), Hsp; [reflexivity|].
  destruct (identifier_shape _ Hname) as (c & r & -> & Hc & _).
  cbn [append]. apply word_not_space. unfold isWord. now rewrite Hc.
Qed.

(** ** The fuel of the loops is never used up

    The loops that are not structural carry a fuel; with the fuel their
    callers give them they behave as with any larger one. *)

Lemma stripPrefix_length (p s r : string) :
  stripPrefix p s = Some r -> String.length s = String.length p + String.length r.
Proof. intro H. apply stripPrefix_app in H. subst. apply length_append. Qed.

Lemma trimStart_length (s : string) : String.length (trimStart s) <= String.length s.
Proof.
  unfold trimStart. destruct (span isSpace s) as [a b] eqn:E.
  apply span_app in E. subst. rewrite length_append. cbn [snd]. lia.
Qed.

Lemma identifierRegex_length (s m rest : string) :
  identifierRegex s = Some (m, rest) -> String.length rest < String.length s.
Proof.
  intro H. destruct (identifierRegex_consumes _ _ _ H) as [-> Hm].
  apply isEmpty_false in Hm. rewrite length_append. lia.
Qed.

Lemma findCall_length (name : string) (s : string) :
  forall prevWord before afterParen,
  findCall name prevWord s = Some (before, afterParen) ->
  String.length afterParen < String.length s.
Proof.
  induction s as [|c r IH]; intros prevWord before afterParen; cbn [findCall].
  - destruct (xorb prevWord (firstIsWord name)); [|discriminate].
    destruct (stripPrefix name "") as [r1|] eqn:E1; [|discriminate].
    destruct (stripPrefix "(" (trimStart r1)) as [a|] eqn:E2; [|discriminate].
    apply stripPrefix_length in E1, E2. pose proof (trimStart_length r1).
    cbn [String.length] in *. lia.
  - assert (Hhere : forall a,
              (if xorb prevWord (firstIsWord name)
               then match stripPrefix name (String c r) with
                    | Some r1 => stripPrefix "(" (trimStart r1)
                    | None => None
                    end
               else None) = Some a ->
              String.length a < String.length (String c r)).
    { intros a. destruct (xorb prevWord (firstIsWord name)); [|discriminate].
      destruct (stripPrefix name (String c r)) as [r1|] eqn:E1; [|discriminate].
      intro E2. apply stripPrefix_length in E1, E2.
      pose proof (trimStart_length r1). cbn [String.length] in *. lia. }
    destruct (if xorb prevWord (firstIsWord name) then _ else None) as [a|] eqn:E.
    + intro H. injection H as _ <-. now apply Hhere.
    + destruct (findCall name (isWord c) r) as [[b a]|] eqn:E'; [|discriminate].
      intro H. injection H as _ <-. apply IH in E'. cbn [String.length]. lia.
Qed.

Lemma parseArgs_length (k : nat) (s : string) :
  forall args currentArg parenDepth args' rest,
  parseArgs k s args currentArg parenDepth = (args', rest) ->
  String.length rest <= String.length s.
Proof.
  induction s as [|c r IH]; intros args currentArg parenDepth args' rest;
    cbn [parseArgs].
  - intro H. injection H as _ <-. lia.
  - cbn [String.length].
    destruct (isChar "(" c); [intro H; apply IH in H; lia|].
    destruct (isChar ")" c).
    + destruct parenDepth as [|[|d]];
        try (destruct (_ || _ || _); intro H; injection H as _ <-; lia).
      intro H; apply IH in H; lia.
    + destruct (isChar "," c && (parenDepth =? 1)%nat); intro H; apply IH in H; lia.
Qed.

Lemma expandCalls_fuel (name body : string) (parameters : list string) :
  forall fuel fuel' s prevWord,
  String.length s < fuel -> String.length s < fuel' ->
  expandCalls fuel name body parameters prevWord s
  = expandCalls fuel' name body parameters prevWord s.
Proof.
  induction fuel as [|fuel IH]; intros fuel' s prevWord H H'; [lia|].
  destruct fuel' as [|fuel']; [lia|]. cbn [expandCalls].
  destruct (findCall name prevWord s) as [[before afterParen]|] eqn:E; [|reflexivity].
  destruct (parseArgs (List.length parameters) afterParen [] "" 1)
    as [args rest] eqn:Ep.
  destruct (negb _); [reflexivity|].
  apply findCall_length in E. apply parseArgs_length in Ep.
  rewrite (IH fuel' rest false); [reflexivity | lia | lia].
Qed.

Lemma moreParams_fuel :
  forall fuel fuel' s,
  String.length s < fuel -> String.length s < fuel' ->
  moreParams fuel s = moreParams fuel' s.
Proof.
  induction fuel as [|fuel IH]; intros fuel' s H H'; [lia|].
  destruct fuel' as [|fuel']; [lia|]. cbn [moreParams].
  destruct (stripPrefix ")" (trimStart s)); [reflexivity|].
  destruct (stripPrefix "," (trimStart s)) as [r1|] eqn:E1; [|reflexivity].
  destruct (identifierRegex (trimStart r1)) as [[param r2]|] eqn:E2; [|reflexivity].
  apply stripPrefix_length in E1. apply identifierRegex_length in E2.
  pose proof (trimStart_length s). pose proof (trimStart_length r1).
  cbn [String.length] in E1.
  rewrite (IH fuel' r2); [reflexivity | lia | lia].
Qed.

Lemma replaceFirst_one_length (pattern s : string) :
  isEmpty pattern = false ->
  String.length (replaceFirst pattern "1" s) <= String.length s.
Proof.
  intro Hp. unfold replaceFirst.
  destruct (splitAtFirst pattern s) as [[before after]|] eqn:E; [|lia].
  apply splitAtFirst_app in E. subst. apply isEmpty_false in Hp.
  cbn [getSubstitution]. change (isChar "$" "1") with false. cbn iota.
  rewrite !length_append. cbn [String.length]. lia.
Qed.

Lemma equalityAt_nonempty (prevWord : bool) (s m leftName rightName : string) :
  equalityAt prevWord s = Some (m, leftName, rightName) -> isEmpty m = false.
Proof.
  unfold equalityAt. destruct prevWord; [discriminate|].
  destruct (identifierRegex s) as [[l r1]|] eqn:E; [|discriminate].
  destruct (span isSpace r1) as [sp1 r2].
  destruct (stripPrefix "==" r2) as [r3|]; [|discriminate].
  destruct (span isSpace r3) as [sp2 r4].
  destruct (identifierRegex r4) as [[r' r5]|]; [|discriminate].
  intro H. injection H as <- _ _.
  destruct (identifierRegex_consumes _ _ _ E) as [_ Hl]. now destruct l.
Qed.

Lemma findEquality_nonempty (s : string) :
  forall prevWord offset m leftName rightName,
  findEquality prevWord s = Some (offset, (m, leftName, rightName)) ->
  isEmpty m = false.
Proof.
  induction s as [|c r IH]; intros prevWord offset m l r'; cbn [findEquality];
    destruct (equalityAt prevWord _) as [[[m0 l0] r0]|] eqn:E.
  - intro H. injection H as _ <- _ _. eapply equalityAt_nonempty; eauto.
  - discriminate.
  - intro H. injection H as _ <- _ _. eapply equalityAt_nonempty; eauto.
  - destruct (findEquality (isWord c) r) as [[o [[m1 l1] r1]]|] eqn:E'; [|discriminate].
    intro H. injection H as _ <- _ _. eapply IH; eauto.
Qed.

Lemma execEquality_progress (expr : string) (lastIndex index : nat)
  (m leftName rightName : string) :
  execEquality expr lastIndex = Some (index, (m, leftName, rightName)) ->
  lastIndex <= String.length expr /\ lastIndex <= index /\ isEmpty m = false.
Proof.
  unfold execEquality.
  destruct (String.length expr <? lastIndex)%nat eqn:E; [discriminate|].
  apply Nat.ltb_ge in E.
  destruct (findEquality _ (drop lastIndex expr)) as [[offset [[m0 l0] r0]]|] eqn:Ef;
    [|discriminate].
  intro H. injection H as <- <- _ _.
  repeat split; [assumption | lia | eapply findEquality_nonempty; eauto].
Qed.

(** One more unit of fuel changes nothing once the fuel covers what is
    left of the text behind [lastIndex]. *)
Lemma equalityLoop_fuel (defines : Defines) :
  forall fuel expr lastIndex,
  String.length expr + 1 - lastIndex <= fuel ->
  equalityLoop (S fuel) defines expr lastIndex
  = equalityLoop fuel defines expr lastIndex.
Proof.
  induction fuel as [|fuel IH]; intros expr lastIndex H.
  - cbn [equalityLoop].
    destruct (execEquality expr lastIndex) as [[index [[m l] r]]|] eqn:E;
      [|reflexivity].
    apply execEquality_progress in E. lia.
  - remember (S fuel) as n eqn:En. cbn [equalityLoop]. subst n. cbn [equalityLoop].
    destruct (execEquality expr lastIndex) as [[index [[m l] r]]|] eqn:E;
      [|reflexivity].
    destruct (execEquality_progress _ _ _ _ _ _ E) as (H1 & H2 & H3).
    pose proof (isEmpty_false _ H3) as Hm.
    pose proof (replaceFirst_one_length m expr H3) as Hlen.
    destruct (identityEquality defines l r); apply IH; lia.
Qed.

(** ** The conditional stack *)

Lemma nested_including (stack : list ConditionalState) :
  nested stack = true -> isCurrentlyIncluding stack = topIncluding stack.
Proof.
  destruct stack as [|top below]; [reflexivity|].
  cbn [nested isCurrentlyIncluding forallb topIncluding].
  fold (isCurrentlyIncluding below).
  destruct (including top), (isCurrentlyIncluding below); cbn; congruence.
Qed.

Lemma nested_parent (below : list ConditionalState) :
  nested below = true -> isCurrentlyIncluding below = parentIncluding below.
Proof. intro H. rewrite (nested_including _ H). now destruct below. Qed.

Lemma nested_push (result : bool) (stack : list ConditionalState) :
  nested stack = true ->
  (result = true -> isCurrentlyIncluding stack = true) ->
  nested (mkConditionalState result result false :: stack) = true.
Proof.
  intros H Hr. cbn [nested including]. rewrite H, andb_true_r.
  destruct result; [now rewrite Hr | reflexivity].
Qed.

Lemma processLine_nested (js_eval : Eval) (line : string) (st st' : State) :
  nested (conditionalStack st) = true ->
  processLine js_eval line st = Return st' ->
  nested (conditionalStack st') = true.
Proof.
  intros Hn. unfold processLine.
  destruct (directiveLineOf line) as [dl|].
  2:{ destruct (isCurrentlyIncluding (conditionalStack st)).
      - destruct (expandMacros line (defines st)); cbn [bind]; [|discriminate].
        intro H. injection H as <-. exact Hn.
      - intro H. injection H as <-. exact Hn. }
  unfold processDirective.
  destruct (classify dl) as [d|d|expr|name|name|expr| | |].
  - destruct (isCurrentlyIncluding (conditionalStack st)).
    + destruct (processDefine d (defines st)); cbn [bind]; [|discriminate].
      intro H. injection H as <-. exact Hn.
    + intro H. injection H as <-. exact Hn.
  - destruct (isCurrentlyIncluding (conditionalStack st));
      intro H; injection H as <-; exact Hn.
  - destruct (isCurrentlyIncluding (conditionalStack st)) eqn:Ei.
    + destruct (evaluateExpression js_eval expr (defines st)); cbn [bind];
        [|discriminate].
      intro H. injection H as <-. cbn [pushState conditionalStack].
      now apply nested_push.
    + cbn [bind]. intro H. injection H as <-. cbn [pushState conditionalStack].
      apply nested_push; [exact Hn | discriminate].
  - intro H. injection H as <-. cbn [pushState conditionalStack].
    apply nested_push; [exact Hn|].
    destruct (isCurrentlyIncluding (conditionalStack st)); [reflexivity | discriminate].
  - intro H. injection H as <-. cbn [pushState conditionalStack].
    apply nested_push; [exact Hn|].
    destruct (isCurrentlyIncluding (conditionalStack st)); [reflexivity | discriminate].
  - destruct (conditionalStack st) as [|cur below] eqn:Es; [discriminate|].
    cbn [nested] in Hn. apply andb_true_iff in Hn as [_ Hb].
    destruct (hasElse cur); [discriminate|].
    destruct (negb (hasBeenTrue cur)).
    + destruct (parentIncluding below) eqn:Ep.
      * destruct (evaluateExpression js_eval expr (defines st)); cbn [bind];
          [|discriminate].
        intro H. injection H as <-. cbn [setTop conditionalStack nested including].
        rewrite Hb, (nested_parent _ Hb), Ep. now destruct a.
      * intro H. injection H as <-. cbn [setTop conditionalStack nested including].
        now rewrite Hb.
    + intro H. injection H as <-. cbn [setTop conditionalStack nested including].
      now rewrite Hb.
  - destruct (conditionalStack st) as [|cur below] eqn:Es; [discriminate|].
    cbn [nested] in Hn. apply andb_true_iff in Hn as [_ Hb].
    destruct (hasElse cur); [discriminate|].
    destruct (negb (hasBeenTrue cur)).
    + intro H. injection H as <-. cbn [setTop conditionalStack nested including].
      rewrite Hb, (nested_parent _ Hb). now destruct (parentIncluding below).
    + intro H. injection H as <-. cbn [setTop conditionalStack nested including].
      now rewrite Hb.
  - destruct (conditionalStack st) as [|cur below] eqn:Es; [discriminate|].
    cbn [nested] in Hn. apply andb_true_iff in Hn as [_ Hb].
    intro H. injection H as <-. exact Hb.
  - destruct (isCurrentlyIncluding (conditionalStack st));
      intro H; injection H as <-; exact Hn.
Qed.

Lemma processLines_nested (js_eval : Eval) (lines : list string) :
  forall st st',
  nested (conditionalStack st) = true ->
  processLines js_eval lines st = Return st' ->
  nested (conditionalStack st') = true.
Proof.
  induction lines as [|line rest IH]; intros st st' Hn; cbn [processLines].
  - intro H. injection H as <-. exact Hn.
  - destruct (processLine js_eval line st) as [st1|] eqn:E; cbn [bind]; [|discriminate].
    apply IH. eapply processLine_nested; eauto.
Qed.

(** X1.  Whatever lines have been processed, every frame of the
    conditional stack whose [including] flag is set stands on frames
    that all include: [#elif] and [#else], which look at the parent frame
    only, never switch the output on below an excluded ancestor.  So the
    test run for every line, the conjunction over the whole stack, is the
    flag of the top frame. *)
Theorem conditional_stack_stays_nested
  (js_eval : Eval) (lines : list string) (st st' : State) :
  nested (conditionalStack st) = true ->
  processLines js_eval lines st = Return st' ->
  nested (conditionalStack st') = true /\
  isCurrentlyIncluding (conditionalStack st')
  = topIncluding (conditionalStack st').
Proof.
  intros Hn H. pose proof (processLines_nested _ _ _ _ Hn H) as Hn'.
  split; [exact Hn' | now apply nested_including].
Qed.

(** Below an excluded [#if 0], the [#else] of an inner conditional does
    not include. *)
Lemma conditional_stack_stays_nested_witness :
  nested [mkConditionalState false true true; mkConditionalState false false false]
  = true /\
  isCurrentlyIncluding
    [mkConditionalState false true true; mkConditionalState false false false]
  = false.
Proof.
  exact (conditional_stack_stays_nested evalUnused ["#if 0"; "#if 0"; "#else"]
           (mkState [] [] [])
           (mkState [mkConditionalState false true true;
                     mkConditionalState false false false] [] [])
           eq_refl eq_refl).
Defined.

(** ** Conditionals are balanced *)

Lemma processLine_depth (js_eval : Eval) (line : string) (st st' : State) :
  processLine js_eval line st = Return st' ->
  List.length (conditionalStack st') + (if closesConditional line then 1 else 0)
  = List.length (conditionalStack st) + (if opensConditional line then 1 else 0).
Proof.
  unfold processLine, opensConditional, closesConditional, directiveOf.
  destruct (directiveLineOf line) as [dl|].
  2:{ destruct (isCurrentlyIncluding (conditionalStack st)).
      - destruct (expandMacros line (defines st)); cbn [bind]; [|discriminate].
        intro H. injection H as <-. cbn [conditionalStack]. lia.
      - intro H. injection H as <-. lia. }
  unfold processDirective.
  destruct (classify dl) as [d|d|expr|name|name|expr| | |].
  - destruct (isCurrentlyIncluding (conditionalStack st)).
    + destruct (processDefine d (defines st)); cbn [bind]; [|discriminate].
      intro H. injection H as <-. cbn [conditionalStack]. lia.
    + intro H. injection H as <-. lia.
  - destruct (isCurrentlyIncluding (conditionalStack st));
      intro H; injection H as <-; cbn [conditionalStack]; lia.
  - destruct (if isCurrentlyIncluding (conditionalStack st)
              then evaluateExpression js_eval expr (defines st)
              else Return false); cbn [bind]; [|discriminate].
    intro H. injection H as <-. cbn [pushState conditionalStack List.length]. lia.
  - intro H. injection H as <-. cbn [pushState conditionalStack List.length]. lia.
  - intro H. injection H as <-. cbn [pushState conditionalStack List.length]. lia.
  - destruct (conditionalStack st) as [|cur below] eqn:Es; [discriminate|].
    destruct (hasElse cur); [discriminate|].
    destruct (negb (hasBeenTrue cur)); [destruct (parentIncluding below)|].
    + destruct (evaluateExpression js_eval expr (defines st)); cbn [bind];
        [|discriminate].
      intro H. injection H as <-. cbn [setTop conditionalStack List.length]. lia.
    + intro H. injection H as <-. cbn [setTop conditionalStack List.length]. lia.
    + intro H. injection H as <-. cbn [setTop conditionalStack List.length]. lia.
  - destruct (conditionalStack st) as [|cur below] eqn:Es; [discriminate|].
    destruct (hasElse cur); [discriminate|].
    destruct (negb (hasBeenTrue cur));
      intro H; injection H as <-; cbn [setTop conditionalStack List.length]; lia.
  - destruct (conditionalStack st) as [|cur below] eqn:Es; [discriminate|].
    intro H. injection H as <-. cbn [conditionalStack List.length]. lia.
  - destruct (isCurrentlyIncluding (conditionalStack st));
      intro H; injection H as <-; cbn [conditionalStack]; lia.
Qed.

Lemma countLines_cons (p : string -> bool) (line : string) (rest : list string) :
  countLines p (line :: rest) = (if p line then 1 else 0) + countLines p rest.
Proof. unfold countLines. cbn [filter]. now destruct (p line). Qed.

Lemma processLines_depth (js_eval : Eval) (lines : list string) :
  forall st st',
  processLines js_eval lines st = Return st' ->
  List.length (conditionalStack st') + countLines closesConditional lines
  = List.length (conditionalStack st) + countLines opensConditional lines.
Proof.
  induction lines as [|line rest IH]; intros st st'; cbn [processLines].
  - intro H. injection H as <-. reflexivity.
  - destruct (processLine js_eval line st) as [st1|] eqn:E; cbn [bind]; [|discriminate].
    intro H. apply IH in H. apply processLine_depth in E.
    rewrite !countLines_cons. lia.
Qed.

Lemma processLines_app (js_eval : Eval) (pre post : list string) :
  forall st,
  processLines js_eval (pre ++ post) st
  = (st' <- processLines js_eval pre st ;; processLines js_eval post st').
Proof.
  induction pre as [|line rest IH]; intro st; cbn [app processLines bind].
  - reflexivity.
  - destruct (processLine js_eval line st); cbn [bind]; [apply IH | reflexivity].
Qed.

(** X2.  When the loop over the lines runs through, the depth of the
    conditional stack is the number of [#if], [#ifdef] and [#ifndef] lines
    minus the number of [#endif] lines, counted over all lines, excluded
    ones too; [processConditionals] then returns the output when the two
    numbers are equal and throws the error about an unmatched [#if]
    otherwise. *)
Theorem conditionals_are_balanced
  (js_eval : Eval) (lines : list string) (table : Defines) (st : State) :
  processLines js_eval lines (mkState [] table []) = Return st ->
  List.length (conditionalStack st) + countLines closesConditional lines
  = countLines opensConditional lines
  /\
  processConditionals js_eval lines table
  = if (countLines opensConditional lines =? countLines closesConditional lines)%nat
    then Return (resultLines st)
    else Throw (Error "Unmatched #if, #ifdef, or #ifndef").
Proof.
  intro H. pose proof (processLines_depth _ _ _ _ H) as Hd.
  cbn [conditionalStack List.length Nat.add] in Hd. split; [exact Hd|].
  unfold processConditionals. rewrite H. cbn [bind].
  destruct (conditionalStack st) as [|frame below].
  - cbn [List.length] in Hd. cbn [Nat.add] in Hd. rewrite Hd, Nat.eqb_refl. reflexivity.
  - cbn [List.length] in Hd.
    destruct (Nat.eqb_spec (countLines opensConditional lines)
                (countLines closesConditional lines)); [lia | reflexivity].
Qed.

(** An [#ifdef] in an excluded branch still has to be closed. *)
Lemma conditionals_are_balanced_witness :
  1 + countLines closesConditional ["#if 0"; "#ifdef A"; "#endif"]
  = countLines opensConditional ["#if 0"; "#ifdef A"; "#endif"]
  /\
  processConditionals evalUnused ["#if 0"; "#ifdef A"; "#endif"] []
  = Throw (Error "Unmatched #if, #ifdef, or #ifndef").
Proof.
  exact (conditionals_are_balanced evalUnused ["#if 0"; "#ifdef A"; "#endif"] []
           (mkState [mkConditionalState false false false] [] []) eq_refl).
Defined.

(** X3.  An [#endif], [#else] or [#elif] line met when every conditional
    opened before it has been closed makes [processConditionals] throw the
    error of that directive, whatever follows the line. *)
Theorem stray_directive_is_reported
  (js_eval : Eval) (pre post : list string) (line : string) (table : Defines)
  (st : State) :
  processLines js_eval pre (mkState [] table []) = Return st ->
  countLines opensConditional pre = countLines closesConditional pre ->
  (directiveOf line = Some Endif ->
   processConditionals js_eval (pre ++ line :: post) table
   = Throw (Error "Unexpected #endif without matching #if"))
  /\
  (directiveOf line = Some Else ->
   processConditionals js_eval (pre ++ line :: post) table
   = Throw (Error "Unexpected #else without matching #if"))
  /\
  (forall expr,
   directiveOf line = Some (Elif expr) ->
   processConditionals js_eval (pre ++ line :: post) table
   = Throw (Error "Unexpected #elif without matching #if")).
Proof.
  intros H Hcount. pose proof (processLines_depth _ _ _ _ H) as Hd.
  cbn [conditionalStack List.length Nat.add] in Hd.
  assert (Hs : conditionalStack st = []).
  { destruct (conditionalStack st); [reflexivity | cbn [List.length] in Hd; lia]. }
  unfold processConditionals. rewrite processLines_app, H. cbn [bind processLines].
  repeat split.
  - intro Hl. now rewrite (processLine_endif _ _ _ Hl), Hs.
  - intro Hl. now rewrite (processLine_else _ _ _ Hl), Hs.
  - intros expr Hl. now rewrite (processLine_elif _ _ _ _ Hl), Hs.
Qed.

(** After a closed conditional, each of the three directives is
    reported. *)
Lemma stray_directive_is_reported_witness :
  processConditionals evalUnused ["#if 1"; "#endif"; "#endif"; "x"] []
  = Throw (Error "Unexpected #endif without matching #if")
  /\
  processConditionals evalUnused ["#if 1"; "#endif"; "#else"; "#endif"] []
  = Throw (Error "Unexpected #else without matching #if")
  /\
  processConditionals evalUnused ["#if 1"; "#endif"; "#elif 1"; "#endif"] []
  = Throw (Error "Unexpected #elif without matching #if").
Proof.
  exact (conj
           (proj1 (stray_directive_is_reported evalUnused
                     ["#if 1"; "#endif"] ["x"] "#endif" []
                     (mkState [] [] []) eq_refl eq_refl) eq_refl)
        (conj
           (proj1 (proj2 (stray_directive_is_reported evalUnused
                            ["#if 1"; "#endif"] ["#endif"] "#else" []
                            (mkState [] [] []) eq_refl eq_refl)) eq_refl)
           (proj2 (proj2 (stray_directive_is_reported evalUnused
                            ["#if 1"; "#endif"] ["#endif"] "#elif 1" []
                            (mkState [] [] []) eq_refl eq_refl)) "1" eq_refl))).
Defined.

(** ** Excluded regions *)

Lemma isCurrentlyIncluding_parent (top parent : ConditionalState)
  (below : list ConditionalState) :
  including parent = false ->
  isCurrentlyIncluding (top :: parent :: below) = false.
Proof.
  intro H. cbn [isCurrentlyIncluding forallb]. rewrite H.
  now rewrite andb_false_r.
Qed.

(** X4.  While the stack does not include, no line changes the output,
    and no line but an [#elif] changes the macro table (the condition of
    an [#elif] can be evaluated below an excluded [#if], and the text
    handed to [eval] has the table in its scope, so nothing is said of
    the table there); a line that is not one of the six conditional
    directives leaves the whole state as it is: nothing in it is expanded
    or defined, so it cannot fail either. *)
Theorem excluded_line_changes_nothing
  (js_eval : Eval) (line : string) (st : State) :
  isCurrentlyIncluding (conditionalStack st) = false ->
  (isConditionalDirective line = false -> processLine js_eval line st = Return st)
  /\
  (forall st',
      processLine js_eval line st = Return st' ->
      resultLines st' = resultLines st /\
      ((forall expr, directiveOf line <> Some (Elif expr)) ->
       defines st' = defines st)).
Proof.
  intro Hex. unfold isConditionalDirective, directiveOf, processLine.
  destruct (directiveLineOf line) as [dl|]; [|rewrite Hex; split; [|intros st' H; injection H as <-]; auto].
  unfold processDirective.
  destruct (classify dl) as [d|d|expr|name|name|expr| | |]; rewrite ?Hex;
    (split; [try discriminate; reflexivity|]); intros st'; cbn [bind].
  - intro H. injection H as <-. auto.
  - intro H. injection H as <-. auto.
  - intro H. injection H as <-. auto.
  - intro H. injection H as <-. auto.
  - intro H. injection H as <-. auto.
  - destruct (conditionalStack st) as [|cur below]; [discriminate|].
    destruct (hasElse cur); [discriminate|].
    destruct (negb (hasBeenTrue cur)); [destruct (parentIncluding below)|].
    + destruct (evaluateExpression js_eval expr (defines st)); cbn [bind];
        [|discriminate].
      intro H. injection H as <-. auto.
    + intro H. injection H as <-. auto.
    + intro H. injection H as <-. auto.
  - destruct (conditionalStack st) as [|cur below]; [discriminate|].
    destruct (hasElse cur); [discriminate|].
    destruct (negb (hasBeenTrue cur)); intro H; injection H as <-; auto.
  - destruct (conditionalStack st) as [|cur below]; [discriminate|].
    intro H. injection H as <-. auto.
  - intro H. injection H as <-. auto.
Qed.

(** In an excluded branch an invocation with a missing argument is not
    looked at, a [#define] defines nothing, and the [#endif] that closes
    the branch leaves the macro table and the output as they are. *)
Lemma excluded_line_changes_nothing_witness :
  let table := [("ADD", mkMacro "a + b" (Some ["a"; "b"]))] in
  let st := mkState [mkConditionalState false false false] table [] in
  let closed := mkState [] table [] in
  processLine evalUnused "ADD(1)" st = Return st /\
  processLine evalUnused "#define X 1" st = Return st /\
  processLine evalUnused "#endif" st = Return closed /\
  resultLines closed = resultLines st /\ defines closed = defines st.
Proof.
  cbv zeta. split; [|split; [|split]].
  - exact (proj1 (excluded_line_changes_nothing evalUnused "ADD(1)"
                    (mkState [mkConditionalState false false false]
                       [("ADD", mkMacro "a + b" (Some ["a"; "b"]))] [])
                    eq_refl) eq_refl).
  - exact (proj1 (excluded_line_changes_nothing evalUnused "#define X 1"
                    (mkState [mkConditionalState false false false]
                       [("ADD", mkMacro "a + b" (Some ["a"; "b"]))] [])
                    eq_refl) eq_refl).
  - reflexivity.
  - destruct (proj2 (excluded_line_changes_nothing evalUnused "#endif"
                       (mkState [mkConditionalState false false false]
                          [("ADD", mkMacro "a + b" (Some ["a"; "b"]))] [])
                       eq_refl)
                (mkState [] [("ADD", mkMacro "a + b" (Some ["a"; "b"]))] [])
                eq_refl) as [Hout Htable].
    split; [exact Hout|]. apply Htable. intros expr H. discriminate H.
Defined.

(** X5.  Below a frame that does not include, no line consults the
    evaluator, and whatever the line is, the stack does not include after
    it: a conditional nested in an excluded one stays excluded through
    its [#elif] and [#else] branches, and so does the rest of the
    excluded one once the nested conditional is closed. *)
Theorem excluded_parent_keeps_region_excluded
  (js_eval other : Eval) (line : string) (st st' : State)
  (top parent : ConditionalState) (below : list ConditionalState) :
  conditionalStack st = top :: parent :: below ->
  including parent = false ->
  processLine js_eval line st = Return st' ->
  processLine other line st = Return st' /\
  isCurrentlyIncluding (conditionalStack st') = false.
Proof.
  intros Hs Hp. pose proof (isCurrentlyIncluding_parent top parent below Hp) as Hex.
  rewrite <- Hs in Hex. unfold processLine.
  destruct (directiveLineOf line) as [dl|].
  2:{ rewrite Hex. intro H. injection H as <-. auto. }
  unfold processDirective.
  destruct (classify dl) as [d|d|expr|name|name|expr| | |]; rewrite ?Hex; cbn [bind].
  - intro H. injection H as <-. auto.
  - intro H. injection H as <-. auto.
  - intro H. injection H as <-. split; [reflexivity|].
    cbn [pushState conditionalStack isCurrentlyIncluding forallb including]. reflexivity.
  - intro H. injection H as <-. split; [reflexivity|].
    cbn [pushState conditionalStack isCurrentlyIncluding forallb including]. reflexivity.
  - intro H. injection H as <-. split; [reflexivity|].
    cbn [pushState conditionalStack isCurrentlyIncluding forallb including]. reflexivity.
  - rewrite Hs. cbn [parentIncluding]. rewrite Hp.
    destruct (hasElse top); [discriminate|].
    destruct (negb (hasBeenTrue top)); intro H; injection H as <-;
      (split; [reflexivity|]);
      cbn [setTop conditionalStack isCurrentlyIncluding forallb including]; reflexivity.
  - rewrite Hs. cbn [parentIncluding]. rewrite Hp.
    destruct (hasElse top); [discriminate|].
    destruct (negb (hasBeenTrue top)); intro H; injection H as <-;
      (split; [reflexivity|]);
      cbn [setTop conditionalStack isCurrentlyIncluding forallb including]; reflexivity.
  - rewrite Hs. intro H. injection H as <-. split; [reflexivity|].
    cbn [conditionalStack isCurrentlyIncluding forallb]. now rewrite Hp.
  - intro H. injection H as <-. auto.
Qed.

(** Under [#if 0], the [#elif] of an inner conditional is settled
    without the evaluator: one that answers true changes nothing. *)
Lemma excluded_parent_keeps_region_excluded_witness :
  let inner := mkConditionalState false false false in
  processLine (fun _ _ => Value true) "#elif X > 1"
    (mkState [inner; inner] [] [])
  = Return (mkState [inner; inner] [] []) /\
  isCurrentlyIncluding [mkConditionalState false false false;
                        mkConditionalState false false false] = false.
Proof.
  exact (excluded_parent_keeps_region_excluded evalUnused (fun _ _ => Value true)
           "#elif X > 1"
           (mkState [mkConditionalState false false false;
                     mkConditionalState false false false] [] [])
           (mkState [mkConditionalState false false false;
                     mkConditionalState false false false] [] [])
           (mkConditionalState false false false)
           (mkConditionalState false false false) [] eq_refl eq_refl eq_refl).
Defined.

(** ** Removing a macro *)

Lemma JsMap_get_absent {V} (m : JsMap.t V) (k : string) :
  ~ In k (map fst m) -> JsMap.get m k = None.
Proof.
  induction m as [|[k0 v0] r IH]; cbn [JsMap.get map fst In]; [reflexivity|].
  intro H. destruct (String.eqb_spec k0 k) as [->|_]; [tauto|].
  apply IH. tauto.
Qed.

Lemma JsMap_delete_keys {V} (m : JsMap.t V) (k x : string) :
  In x (map fst (JsMap.delete m k)) -> In x (map fst m).
Proof.
  induction m as [|[k0 v0] r IH]; cbn [JsMap.delete map fst In]; [tauto|].
  destruct (String.eqb k0 k); cbn [map fst In]; tauto.
Qed.

Lemma JsMap_delete_unique {V} (m : JsMap.t V) (k : string) :
  uniqueKeys m -> uniqueKeys (JsMap.delete m k).
Proof.
  unfold uniqueKeys. induction m as [|[k0 v0] r IH]; cbn [JsMap.delete map fst];
    [auto|].
  intro H. inversion H as [|? ? Hin Hr]; subst.
  destruct (String.eqb k0 k); [exact Hr|].
  cbn [map fst]. constructor; [|now apply IH].
  intro Hx. apply Hin. eapply JsMap_delete_keys; eauto.
Qed.

Lemma JsMap_get_delete_same {V} (m : JsMap.t V) (k : string) :
  uniqueKeys m -> JsMap.get (JsMap.delete m k) k = None.
Proof.
  unfold uniqueKeys. induction m as [|[k0 v0] r IH]; cbn [JsMap.delete map fst];
    [reflexivity|].
  intro H. inversion H as [|? ? Hin Hr]; subst.
  destruct (String.eqb_spec k0 k) as [->|Hne].
  - now apply JsMap_get_absent.
  - cbn [JsMap.get]. destruct (String.eqb_spec k0 k); [contradiction|]. now apply IH.
Qed.

Lemma JsMap_get_delete_other {V} (m : JsMap.t V) (k other : string) :
  other <> k -> JsMap.get (JsMap.delete m k) other = JsMap.get m other.
Proof.
  intro Hne. induction m as [|[k0 v0] r IH]; cbn [JsMap.delete JsMap.get];
    [reflexivity|].
  destruct (String.eqb_spec k0 k) as [->|Hk].
  - destruct (String.eqb_spec k other); [congruence | reflexivity].
  - cbn [JsMap.get]. now rewrite IH.
Qed.

Lemma keywordMatch_here (word sp rest : string) :
  isEmpty sp = false -> forallChars isSpace sp = true ->
  match rest with String c _ => isSpace c = false | "" => True end ->
  keywordMatch word (word ++ sp ++ rest) = Some rest.
Proof.
  intros Hsp Hspaces Hrest. unfold keywordMatch. rewrite stripPrefix_self.
  now rewrite (span_all isSpace sp rest Hspaces), Hsp.
Qed.

Lemma identifier_not_space (name : string) :
  identifierRegex name = Some (name, "") ->
  match name with String c _ => isSpace c = false | "" => True end.
Proof.
  intro H. destruct (identifier_shape _ H) as (c & r & -> & Hc & _).
  apply word_not_space. unfold isWord. now rewrite Hc.
Qed.

(** X6.  An [#undef] line naming an identifier, processed while
    including, removes that name from the macro table and nothing else:
    the name is no longer defined afterwards, every other name keeps its
    macro, and neither the stack nor the output changes. *)
Theorem undef_removes_macro
  (js_eval : Eval) (line sp name : string) (st : State) :
  directiveLineOf line = Some ("#undef" ++ sp ++ name) ->
  isEmpty sp = false -> forallChars isSpace sp = true ->
  identifierRegex name = Some (name, "") ->
  isCurrentlyIncluding (conditionalStack st) = true ->
  uniqueKeys (defines st) ->
  exists table,
    processLine js_eval line st
    = Return (mkState (conditionalStack st) table (resultLines st)) /\
    JsMap.has table name = false /\
    (forall other, other <> name -> JsMap.get table other = JsMap.get (defines st) other) /\
    uniqueKeys table.
Proof.
  intros Hline Hsp Hspaces Hname Hincl Huniq.
  pose proof (keywordMatch_here "#undef" sp name Hsp Hspaces
                (identifier_not_space _ Hname)) as Hkw.
  exists (JsMap.delete (defines st) name). repeat split.
  - unfold processLine, processDirective, classify. rewrite Hline.
    assert (Hdef : keywordMatch "#define" ("#undef" ++ sp ++ name) = None)
      by reflexivity.
    rewrite Hdef, Hkw, Hincl. unfold processUndef, undefMatch.
    now rewrite Hkw, Hname.
  - unfold JsMap.has. now rewrite JsMap_get_delete_same.
  - intros other Hne. now apply JsMap_get_delete_other.
  - now apply JsMap_delete_unique.
Qed.

(** [#undef B] between two other macros *)
Lemma undef_removes_macro_witness :
  exists table,
    processLine evalUnused "  #undef B // no longer needed"
      (mkState [] [("A", mkMacro "1" None); ("B", mkMacro "2" None);
                   ("C", mkMacro "3" None)] [])
    = Return (mkState [] table []) /\
    JsMap.has table "B" = false /\
    (forall other, other <> "B" ->
       JsMap.get table other
       = JsMap.get [("A", mkMacro "1" None); ("B", mkMacro "2" None);
                    ("C", mkMacro "3" None)] other) /\
    uniqueKeys table.
Proof.
  refine (undef_removes_macro evalUnused "  #undef B // no longer needed" " " "B"
            (mkState [] [("A", mkMacro "1" None); ("B", mkMacro "2" None);
                         ("C", mkMacro "3" None)] [])
            eq_refl eq_refl eq_refl eq_refl eq_refl _).
  unfold uniqueKeys. cbn [defines map fst].
  repeat constructor; cbn [In]; intuition discriminate.
Defined.

(** ** Conditions that are settled without the evaluator *)

Lemma forallChars_impl (p q : ascii -> bool) (s : string) :
  (forall c, p c = true -> q c = true) ->
  forallChars p s = true -> forallChars q s = true.
Proof.
  intro Hpq. induction s as [|c r IH]; cbn [forallChars]; [auto|].
  intro H. apply andb_true_iff in H as [Hc Hr]. now rewrite (Hpq _ Hc), IH.
Qed.

Lemma digit_word (c : ascii) : isDigit c = true -> isWord c = true.
Proof. intro H. unfold isWord. rewrite H. apply orb_true_r. Qed.

Lemma digit_not_identStart (c : ascii) : isDigit c = true -> isIdentStart c = false.
Proof. destruct c as [[] [] [] [] [] [] [] []]; vm_compute; congruence. Qed.

Lemma digits_words (s : string) :
  forallChars isDigit s = true -> forallChars isWord s = true.
Proof. apply forallChars_impl, digit_word. Qed.

(** A replacement that finds nothing in texts of one class of characters
    leaves them alone. *)
Lemma replaceAll_class (p : ascii -> bool)
  (f : bool -> string -> option (string * string)) :
  (forall prevWord s, forallChars p s = true -> f prevWord s = None) ->
  forall s prevWord, forallChars p s = true -> replaceAll f 0 prevWord s = s.
Proof.
  intros Hf. induction s as [|c r IH]; intros prevWord Hs; [reflexivity|].
  cbn [replaceAll]. rewrite (Hf _ _ Hs).
  cbn [forallChars] in Hs. apply andb_true_iff in Hs as [_ Hs].
  now rewrite IH.
Qed.

Lemma replaceDefined_words (defines : Defines) (s : string) :
  forallChars isWord s = true -> replaceDefined defines s = s.
Proof.
  intro Hs. unfold replaceDefined. apply replaceAll_words; [|exact Hs].
  intros _ t Ht. now rewrite definedAt_words.
Qed.

Lemma operatorAt_words (s : string) :
  forallChars isWord s = true -> operatorAt s = None.
Proof.
  intro Hs. unfold operatorAt. destruct s as [|c r]; [reflexivity|].
  cbn [forallChars] in Hs. apply andb_true_iff in Hs as [Hc _].
  cbn [span]. rewrite (word_not_space _ Hc).
  destruct c as [[] [] [] [] [] [] [] []]; try discriminate Hc; reflexivity.
Qed.

Lemma convertOperators_words (s : string) :
  forallChars isWord s = true -> convertOperators s = s.
Proof.
  intro Hs. unfold convertOperators. apply replaceAll_words; [|exact Hs].
  intros _ t Ht. now apply operatorAt_words.
Qed.

Lemma replaceIdentifiersWithValues_digits (defines : Defines) (s : string) :
  forallChars isDigit s = true -> replaceIdentifiersWithValues defines s = s.
Proof.
  intro Hs. unfold replaceIdentifiersWithValues.
  apply (replaceAll_class isDigit); [|exact Hs].
  intros prevWord t Ht. unfold identifierAt, identifierRegex.
  destruct prevWord; [reflexivity|]. destruct t as [|c r]; [reflexivity|].
  cbn [forallChars] in Ht. apply andb_true_iff in Ht as [Hc _].
  now rewrite (digit_not_identStart _ Hc).
Qed.

Lemma standaloneNumber_digits (s : string) :
  isEmpty s = false -> forallChars isDigit s = true -> standaloneNumber s = Some s.
Proof.
  intros Hne Hs. unfold standaloneNumber.
  rewrite (trimStart_word _ (digits_words _ Hs)).
  rewrite <- (append_nil_r s) at 1.
  rewrite (span_all isDigit s "" Hs I), Hne. reflexivity.
Qed.

Lemma identifierValue_nonempty (defines : Defines) (name : string) :
  isEmpty (identifierValue defines name) = false.
Proof.
  unfold identifierValue. destruct (objectLike (JsMap.get defines name)) as [v|];
    [|reflexivity].
  destruct (isEmpty v) eqn:E; [reflexivity | exact E].
Qed.

(** X7.  A condition that consists of decimal digits is settled by
    [evaluateExpression] itself: it is true exactly when some digit is not
    0, whatever the macro table holds, and the evaluator of the host is
    not consulted. *)
Theorem number_condition_needs_no_evaluator
  (js_eval : Eval) (defines : Defines) (digits : string) :
  isEmpty digits = false -> forallChars isDigit digits = true ->
  evaluateExpression js_eval digits defines = Return (nonZero digits).
Proof.
  intros Hne Hd. pose proof (digits_words _ Hd) as Hw.
  unfold evaluateExpression.
  rewrite (replaceDefined_words _ _ Hw), (equalityLoop_words _ _ _ Hw).
  rewrite (replaceIdentifiersWithValues_digits _ _ Hd).
  rewrite (convertOperators_words _ Hw), (standaloneNumber_digits _ Hne Hd).
  reflexivity.
Qed.

(** [#if 00] is false and [#if 10] is true, even for an evaluator that
    would answer the opposite. *)
Lemma number_condition_needs_no_evaluator_witness :
  evaluateExpression (fun _ _ => Value true) "00" [] = Return false /\
  evaluateExpression (fun _ _ => Value false) "10" [] = Return true.
Proof.
  exact (conj
           (number_condition_needs_no_evaluator (fun _ _ => Value true) [] "00"
              eq_refl eq_refl)
           (number_condition_needs_no_evaluator (fun _ _ => Value false) [] "10"
              eq_refl eq_refl)).
Defined.

(** X8.  A condition that is a single identifier is settled by the macro
    table whenever the text the table gives for it is a decimal number:
    the text is the value of an object-like macro of that name, and 0
    when the name is undefined, names a function-like macro or has the
    empty value.  The evaluator of the host is not consulted. *)
Theorem identifier_condition_needs_no_evaluator
  (js_eval : Eval) (defines : Defines) (name : string) :
  identifierRegex name = Some (name, "") ->
  forallChars isDigit (identifierValue defines name) = true ->
  evaluateExpression js_eval name defines
  = Return (nonZero (identifierValue defines name)).
Proof.
  intros Hid Hd. pose proof (identifier_all_word _ Hid) as Hw.
  pose proof (digits_words _ Hd) as Hvw.
  unfold evaluateExpression.
  rewrite (replaceDefined_words _ _ Hw), (equalityLoop_words _ _ _ Hw).
  rewrite (replaceIdentifiersWithValues_identifier _ _ Hid).
  rewrite (convertOperators_words _ Hvw).
  rewrite (standaloneNumber_digits _ (identifierValue_nonempty _ _) Hd).
  reflexivity.
Qed.

(** An undefined name and the name of a function-like macro are false, a
    macro whose value is 2 is true. *)
Lemma identifier_condition_needs_no_evaluator_witness :
  let table := [("DEBUG", mkMacro "2" None); ("F", mkMacro "1" (Some ["x"]))] in
  evaluateExpression (fun _ _ => Value true) "RELEASE" table = Return false /\
  evaluateExpression (fun _ _ => Value true) "F" table = Return false /\
  evaluateExpression (fun _ _ => Value false) "DEBUG" table = Return true.
Proof.
  exact (conj
           (identifier_condition_needs_no_evaluator (fun _ _ => Value true)
              [("DEBUG", mkMacro "2" None); ("F", mkMacro "1" (Some ["x"]))]
              "RELEASE" eq_refl eq_refl)
        (conj
           (identifier_condition_needs_no_evaluator (fun _ _ => Value true)
              [("DEBUG", mkMacro "2" None); ("F", mkMacro "1" (Some ["x"]))]
              "F" eq_refl eq_refl)
           (identifier_condition_needs_no_evaluator (fun _ _ => Value false)
              [("DEBUG", mkMacro "2" None); ("F", mkMacro "1" (Some ["x"]))]
              "DEBUG" eq_refl eq_refl))).
Defined.

(** ** Comparing two names *)

Lemma word_not_paren (c : ascii) : isWord c = true -> notChar "(" c = true.
Proof. destruct c as [[] [] [] [] [] [] [] []]; vm_compute; congruence. Qed.

Lemma space_not_paren (c : ascii) : isSpace c = true -> notChar "(" c = true.
Proof. destruct c as [[] [] [] [] [] [] [] []]; vm_compute; congruence. Qed.

Lemma space_not_word (c : ascii) : isSpace c = true -> isWord c = false.
Proof. destruct c as [[] [] [] [] [] [] [] []]; vm_compute; congruence. Qed.

Lemma definedAt_paren (s : string) :
  forallChars (notChar "(") s = true -> definedAt s = None.
Proof.
  intro Hs. unfold definedAt.
  destruct (stripPrefix "defined" s) as [r1|] eqn:E1; [|reflexivity].
  destruct (stripPrefix "(" (trimStart r1)) as [r2|] eqn:E2; [|reflexivity].
  exfalso. apply stripPrefix_app in E1, E2. subst s.
  unfold trimStart in E2. destruct (span isSpace r1) as [a b] eqn:E.
  apply span_app in E. cbn [snd] in E2. subst r1 b.
  rewrite !forallChars_append in Hs. cbn [forallChars] in Hs.
  change (notChar "(" "(") with false in Hs.
  rewrite !andb_false_r in Hs. discriminate.
Qed.

Lemma replaceDefined_paren (defines : Defines) (s : string) :
  forallChars (notChar "(") s = true -> replaceDefined defines s = s.
Proof.
  intro Hs. unfold replaceDefined. apply (replaceAll_class (notChar "(")); [|exact Hs].
  intros _ t Ht. now rewrite definedAt_paren.
Qed.

Lemma firstIsWord_spaces (sp rest : string) :
  forallChars isSpace sp = true -> firstIsWord rest = false ->
  firstIsWord (sp ++ rest) = false.
Proof.
  destruct sp as [|c r]; [auto|]. cbn [forallChars append firstIsWord].
  intros H _. apply andb_true_iff in H as [H _]. now apply space_not_word.
Qed.

Lemma span_spaces_before (sp rest : string) :
  forallChars isSpace sp = true ->
  match rest with String c _ => isSpace c = false | "" => True end ->
  span isSpace (sp ++ rest) = (sp, rest).
Proof. intros H Hr. now apply span_all. Qed.

(** The comparison as a whole is the first match of the equality
    expression. *)
Lemma equalityAt_comparison (leftName sp1 sp2 rightName : string) :
  identifierRegex leftName = Some (leftName, "") ->
  identifierRegex rightName = Some (rightName, "") ->
  forallChars isSpace sp1 = true -> forallChars isSpace sp2 = true ->
  equalityAt false (leftName ++ sp1 ++ "==" ++ sp2 ++ rightName)
  = Some (leftName ++ sp1 ++ "==" ++ sp2 ++ rightName, leftName, rightName).
Proof.
  intros Hl Hr H1 H2. unfold equalityAt.
  rewrite (identifierRegex_before leftName _ Hl
             (firstIsWord_spaces sp1 ("==" ++ sp2 ++ rightName) H1 eq_refl)).
  rewrite (span_spaces_before sp1 ("==" ++ sp2 ++ rightName) H1 eq_refl).
  rewrite stripPrefix_self.
  rewrite (span_spaces_before sp2 rightName H2 (identifier_not_space _ Hr)).
  now rewrite Hr.
Qed.

Lemma comparison_no_paren (leftName sp1 sp2 rightName : string) :
  identifierRegex leftName = Some (leftName, "") ->
  identifierRegex rightName = Some (rightName, "") ->
  forallChars isSpace sp1 = true -> forallChars isSpace sp2 = true ->
  forallChars (notChar "(") (leftName ++ sp1 ++ "==" ++ sp2 ++ rightName) = true.
Proof.
  intros Hl Hr H1 H2. rewrite !forallChars_append.
  rewrite (forallChars_impl _ _ _ word_not_paren (identifier_all_word _ Hl)).
  rewrite (forallChars_impl _ _ _ word_not_paren (identifier_all_word _ Hr)).
  rewrite (forallChars_impl _ _ _ space_not_paren H1).
  rewrite (forallChars_impl _ _ _ space_not_paren H2).
  reflexivity.
Qed.

Lemma findEquality_here (prevWord : bool) (s : string)
  (m : string * string * string) :
  equalityAt prevWord s = Some m -> findEquality prevWord s = Some (0, m).
Proof. intro H. destruct s; cbn [findEquality]; now rewrite H. Qed.

Lemma replaceFirst_whole (s : string) : replaceFirst s "1" s = "1".
Proof.
  unfold replaceFirst.
  assert (H : splitAtFirst s s = Some ("", "")).
  { apply splitAtFirst_here. rewrite <- (append_nil_r s) at 2. apply stripPrefix_self. }
  rewrite H. reflexivity.
Qed.

(** X9.  A comparison [left == right] of two names for which one of the
    three cases of the equality pass holds (the two are object-like macros
    with the same value, or one is an object-like macro whose value is the
    other name and the other name is undefined) is rewritten to 1 and is
    true; the evaluator of the host is not consulted. *)
Theorem equal_names_condition_is_true
  (js_eval : Eval) (defines : Defines) (leftName sp1 sp2 rightName : string) :
  identifierRegex leftName = Some (leftName, "") ->
  identifierRegex rightName = Some (rightName, "") ->
  forallChars isSpace sp1 = true -> forallChars isSpace sp2 = true ->
  identityEquality defines leftName rightName = true ->
  evaluateExpression js_eval (leftName ++ sp1 ++ "==" ++ sp2 ++ rightName) defines
  = Return true.
Proof.
  intros Hl Hr H1 H2 Heq.
  set (expr := leftName ++ sp1 ++ "==" ++ sp2 ++ rightName).
  assert (Hlen : 1 < String.length expr).
  { unfold expr. rewrite !length_append. cbn [String.length]. lia. }
  unfold evaluateExpression.
  rewrite (replaceDefined_paren _ _ (comparison_no_paren _ _ _ _ Hl Hr H1 H2)).
  fold expr.
  assert (Hloop : equalityLoop (S (String.length expr)) defines expr 0 = "1").
  { cbn [equalityLoop]. unfold execEquality.
    cbn [Nat.ltb Nat.leb drop].
    pose proof (findEquality_here false expr _
                  (equalityAt_comparison _ _ _ _ Hl Hr H1 H2)) as Hf.
    rewrite Hf. fold expr.
    rewrite Heq, replaceFirst_whole. cbn [Nat.add].
    destruct (String.length expr) as [|n] eqn:En; [reflexivity|].
    cbn [equalityLoop]. unfold execEquality. cbn [String.length].
    destruct (Nat.ltb_spec 1 (S n)); [reflexivity | lia]. }
  rewrite Hloop. reflexivity.
Qed.

(** [RENDERER == VULKAN] where [RENDERER] stands for [VULKAN] and
    [VULKAN] is not defined *)
Lemma equal_names_condition_is_true_witness :
  evaluateExpression (fun _ _ => Value false) "RENDERER == VULKAN"
    [("RENDERER", mkMacro "VULKAN" None)]
  = Return true.
Proof.
  exact (equal_names_condition_is_true (fun _ _ => Value false)
           [("RENDERER", mkMacro "VULKAN" None)] "RENDERER" " " " " "VULKAN"
           eq_refl eq_refl eq_refl eq_refl eq_refl).
Defined.

(** ** Protecting and restoring string literals *)

Lemma plainChar_hash (c : ascii) : plainChar c = true -> Ascii.eqb "#" c = false.
Proof.
  unfold plainChar, notChar. intro H. apply andb_true_iff in H as [H _].
  now apply negb_true_iff in H.
Qed.

Lemma plainChar_dollar (c : ascii) : plainChar c = true -> isChar "$" c = false.
Proof.
  unfold plainChar, notChar, isChar. intro H. apply andb_true_iff in H as [_ H].
  now apply negb_true_iff in H.
Qed.

Lemma getSubstitution_plain (matched before after replacement : string) :
  forallChars plainChar replacement = true ->
  getSubstitution matched before after replacement = replacement.
Proof.
  induction replacement as [|c r IH]; cbn [forallChars getSubstitution];
    [reflexivity|].
  intro H. apply andb_true_iff in H as [Hc Hr].
  now rewrite (plainChar_dollar _ Hc), (IH Hr).
Qed.

Lemma splitAtFirst_skip (a pat' b : string) :
  forallChars plainChar a = true ->
  splitAtFirst (String "#" pat') (a ++ String "#" pat' ++ b) = Some (a, b).
Proof.
  induction a as [|c a IH]; intro Ha.
  - apply splitAtFirst_here. exact (stripPrefix_self (String "#" pat') b).
  - cbn [forallChars] in Ha. apply andb_true_iff in Ha as [Hc Ha].
    cbn [append splitAtFirst stripPrefix].
    rewrite (plainChar_hash _ Hc).
    change (String "#" (pat' ++ b)) with (String "#" pat' ++ b).
    now rewrite (IH Ha).
Qed.

Lemma placeholder_hash (i : nat) :
  placeholder i = String "#" ("##STRING_LITERAL_" ++ decimal i ++ "###").
Proof. reflexivity. Qed.

Lemma replaceFirst_placeholder (i : nat) (a literal b : string) :
  forallChars plainChar a = true -> forallChars plainChar literal = true ->
  replaceFirst (placeholder i) literal (a ++ placeholder i ++ b)
  = a ++ literal ++ b.
Proof.
  intros Ha Hl. unfold replaceFirst. rewrite placeholder_hash.
  rewrite (splitAtFirst_skip a _ b Ha).
  now rewrite getSubstitution_plain.
Qed.

Lemma restoreStrings_layout (pairs : list (string * string)) :
  forall i prefix tail,
  forallChars plainChar prefix = true -> Forall plainPair pairs ->
  restoreStrings i (map snd pairs) (prefix ++ protectedOf i pairs tail)
  = prefix ++ originalOf pairs tail.
Proof.
  induction pairs as [|[seg literal] rest IH]; intros i prefix tail Hp Hall;
    cbn [map snd restoreStrings protectedOf originalOf]; [reflexivity|].
  inversion Hall as [|? ? [Hseg Hlit] Hrest]; subst. cbn [fst snd] in Hseg, Hlit.
  rewrite <- (append_assoc prefix seg).
  rewrite replaceFirst_placeholder;
    [|rewrite forallChars_append, Hp, Hseg; reflexivity | exact Hlit].
  rewrite <- (append_assoc (prefix ++ seg) literal).
  rewrite IH; [now rewrite !append_assoc | | exact Hrest].
  now rewrite !forallChars_append, Hp, Hseg, Hlit.
Qed.

Lemma protectedOf_tail (pairs : list (string * string)) :
  forall i tail x, protectedOf i pairs tail ++ x = protectedOf i pairs (tail ++ x).
Proof.
  induction pairs as [|[seg literal] rest IH]; intros i tail x;
    cbn [protectedOf]; [reflexivity|].
  now rewrite !append_assoc, IH.
Qed.

Lemma originalOf_tail (pairs : list (string * string)) :
  forall tail x, originalOf pairs tail ++ x = originalOf pairs (tail ++ x).
Proof.
  induction pairs as [|[seg literal] rest IH]; intros tail x;
    cbn [originalOf]; [reflexivity|].
  now rewrite !append_assoc, IH.
Qed.

Lemma protectedOf_snoc (pairs : list (string * string)) :
  forall i seg literal tail,
  protectedOf i (pairs ++ [(seg, literal)]) tail
  = protectedOf i pairs (seg ++ placeholder (i + List.length pairs) ++ tail).
Proof.
  induction pairs as [|[s l] rest IH]; intros i seg literal tail;
    cbn [app protectedOf List.length].
  - now rewrite Nat.add_0_r.
  - rewrite IH. now rewrite Nat.add_succ_r.
Qed.

Lemma originalOf_snoc (pairs : list (string * string)) :
  forall seg literal tail,
  originalOf (pairs ++ [(seg, literal)]) tail
  = originalOf pairs (seg ++ literal ++ tail).
Proof.
  induction pairs as [|[s l] rest IH]; intros seg literal tail;
    cbn [app originalOf]; [reflexivity|].
  now rewrite IH.
Qed.

(** Closing a literal extends the layout by one pair. *)
Lemma laidOut_close (pairs : list (string * string)) (seg literal : string)
  (st : Protection) (sc : ascii) (esc : bool) :
  laidOut pairs seg st -> forallChars plainChar literal = true ->
  laidOut (pairs ++ [(seg, literal)]) ""
    (mkProtection false sc esc ""
       (protectedLine st ++ placeholder (List.length (stringLiterals st)))
       (push (stringLiterals st) literal)).
Proof.
  intros (Hp & Hl & Hall & Hseg & Hcur) Hlit.
  unfold laidOut. cbn [protectedLine stringLiterals currentString].
  repeat split.
  - rewrite Hp, Hl, length_map, protectedOf_snoc, protectedOf_tail.
    cbn [Nat.add]. now rewrite append_nil_r.
  - unfold push. now rewrite Hl, map_app.
  - apply Forall_app. split; [exact Hall|]. constructor; [|constructor].
    split; assumption.
Qed.

Lemma protectChar_laidOut (char : ascii) (pairs : list (string * string))
  (seg : string) (st : Protection) :
  plainChar char = true -> laidOut pairs seg st ->
  exists pairs' seg',
    laidOut pairs' seg' (protectChar char st) /\
    textRead pairs' seg' (protectChar char st)
    = textRead pairs seg st ++ str char.
Proof.
  intros Hc Hlay.
  assert (Hkeep : forall esc,
            exists pairs' seg',
              laidOut pairs' seg' (keep char st esc) /\
              textRead pairs' seg' (keep char st esc)
              = textRead pairs seg st ++ str char).
  { intro esc. destruct Hlay as (Hp & Hl & Hall & Hseg & Hcur).
    unfold keep, textRead. destruct (inString st) eqn:Ein.
    - exists pairs, seg. unfold laidOut.
      cbn [protectedLine stringLiterals currentString inString].
      repeat split; auto; [|now rewrite append_assoc].
      rewrite forallChars_append, Hcur. cbn [str forallChars]. now rewrite Hc.
    - exists pairs, (seg ++ str char). unfold laidOut.
      cbn [protectedLine stringLiterals currentString inString].
      repeat split; auto.
      + now rewrite Hp, protectedOf_tail.
      + rewrite forallChars_append, Hseg. cbn [str forallChars]. now rewrite Hc.
      + now rewrite !append_nil_r, originalOf_tail. }
  unfold protectChar.
  destruct (escaped st); [apply Hkeep|].
  destruct (isChar "\" char); [apply Hkeep|].
  destruct ((isChar dquote char || isChar squote char)
            && (negb (inString st) || Ascii.eqb char (stringChar st)));
    [|apply Hkeep].
  destruct (inString st) eqn:Ein.
  - exists (pairs ++ [(seg, (currentString st ++ str char)%string)])%list, "".
    split.
    + apply laidOut_close; [exact Hlay|].
      destruct Hlay as (_ & _ & _ & _ & Hcur).
      rewrite forallChars_append, Hcur. cbn [str forallChars]. now rewrite Hc.
    + unfold textRead. cbn [inString]. rewrite Ein.
      now rewrite originalOf_snoc, <- !originalOf_tail, !append_nil_r, !append_assoc.
  - exists pairs, seg. destruct Hlay as (Hp & Hl & Hall & Hseg & Hcur). split.
    + unfold laidOut. cbn [protectedLine stringLiterals currentString].
      repeat split; auto. cbn [str forallChars]. now rewrite Hc.
    + unfold textRead. cbn [inString currentString]. rewrite Ein.
      now rewrite append_nil_r.
Qed.

Lemma protectLoop_laidOut (line : string) :
  forall pairs seg st,
  forallChars plainChar line = true -> laidOut pairs seg st ->
  exists pairs' seg',
    laidOut pairs' seg' (protectLoop line st) /\
    textRead pairs' seg' (protectLoop line st) = textRead pairs seg st ++ line.
Proof.
  induction line as [|char rest IH]; intros pairs seg st Hline Hlay;
    cbn [protectLoop].
  - exists pairs, seg. split; [exact Hlay | now rewrite append_nil_r].
  - cbn [forallChars] in Hline. apply andb_true_iff in Hline as [Hc Hrest].
    destruct (protectChar_laidOut char pairs seg st Hc Hlay)
      as (pairs1 & seg1 & Hlay1 & Htext1).
    destruct (IH pairs1 seg1 _ Hrest Hlay1) as (pairs2 & seg2 & Hlay2 & Htext2).
    exists pairs2, seg2. split; [exact Hlay2|].
    rewrite Htext2, Htext1. now rewrite append_assoc.
Qed.

Lemma protectStrings_restore (line : string) :
  forallChars plainChar line = true ->
  restoreStrings 0 (snd (protectStrings line)) (fst (protectStrings line)) = line.
Proof.
  intro Hline. unfold protectStrings.
  set (st0 := mkProtection false "000"%char false "" "" []).
  assert (Hlay0 : laidOut [] "" st0) by (repeat split; constructor).
  destruct (protectLoop_laidOut line [] "" st0 Hline Hlay0)
    as (pairs & seg & Hlay & Htext).
  change (textRead [] "" st0 ++ line) with line in Htext.
  set (st := protectLoop line st0) in *.
  unfold textRead in Htext. destruct (inString st) eqn:Ein; cbn [fst snd].
  - pose proof (laidOut_close pairs seg (currentString st) st "000"%char false Hlay)
      as Hclose.
    destruct Hlay as (_ & _ & _ & _ & Hcur). specialize (Hclose Hcur).
    destruct Hclose as (Hp & Hl & Hall & _ & _).
    cbn [protectedLine stringLiterals] in Hp, Hl. rewrite Hp, Hl.
    pose proof (restoreStrings_layout (pairs ++ [(seg, currentString st)]) 0 "" ""
                  eq_refl Hall) as Hr.
    cbn [append] in Hr. rewrite Hr, originalOf_snoc, <- Htext.
    now rewrite <- !originalOf_tail, !append_nil_r.
  - destruct Hlay as (Hp & Hl & Hall & _ & _). rewrite Hp, Hl.
    pose proof (restoreStrings_layout pairs 0 "" seg eq_refl Hall) as Hr.
    cbn [append] in Hr. rewrite Hr, <- Htext. now rewrite append_nil_r.
Qed.

(** X10.  For a line that holds neither [#] nor [$], taking the string
    literals out and putting them back gives the line again, whatever
    quotes and backslashes it holds and whether or not its last literal
    is closed; with an empty macro table [expandMacros] returns such a
    line as it is. *)
Theorem plain_line_survives_protection (line : string) :
  forallChars plainChar line = true ->
  restoreStrings 0 (snd (protectStrings line)) (fst (protectStrings line)) = line
  /\
  expandMacros line [] = Return line.
Proof.
  intro Hline. pose proof (protectStrings_restore line Hline) as Hr.
  split; [exact Hr|].
  unfold expandMacros. destruct (protectStrings line) as [protectedLine literals].
  cbn [fst snd] in Hr. cbn. now rewrite Hr.
Qed.

(** Two literals, an escaped quote and an unclosed literal *)
Lemma plain_line_survives_protection_witness :
  let line := "f('a\'b', " ++ quoted "c d" ++ ") + 'open" in
  restoreStrings 0 (snd (protectStrings line)) (fst (protectStrings line)) = line
  /\
  expandMacros line [] = Return line.
Proof.
  exact (plain_line_survives_protection
           ("f('a\'b', " ++ quoted "c d" ++ ") + 'open") eq_refl).
Defined.

(** ** Macros and other identifiers *)

Lemma protectLoop_words (s : string) :
  forall sc acc,
  forallChars isWord s = true ->
  protectLoop s (mkProtection false sc false "" acc [])
  = mkProtection false sc false "" (acc ++ s) [].
Proof.
  induction s as [|c r IH]; intros sc acc Hs; cbn [protectLoop].
  - now rewrite append_nil_r.
  - cbn [forallChars] in Hs. apply andb_true_iff in Hs as [Hc Hr].
    assert (Hstep : protectChar c (mkProtection false sc false "" acc [])
                    = mkProtection false sc false "" (acc ++ str c) []).
    { unfold protectChar, keep. cbn [escaped inString stringChar currentString
                                      protectedLine stringLiterals].
      destruct c as [[] [] [] [] [] [] [] []]; try discriminate Hc; reflexivity. }
    rewrite Hstep, (IH _ _ Hr). now rewrite append_assoc.
Qed.

Lemma protectStrings_words (s : string) :
  forallChars isWord s = true -> protectStrings s = (s, []).
Proof.
  intro Hs. unfold protectStrings. now rewrite (protectLoop_words s _ "" Hs).
Qed.

Lemma lastIsWord_words (s : string) :
  isEmpty s = false -> forallChars isWord s = true -> lastIsWord s = true.
Proof.
  induction s as [|c r IH]; [discriminate|]. intros _ Hs.
  cbn [forallChars] in Hs. apply andb_true_iff in Hs as [Hc Hr].
  destruct r as [|c' r']; [exact Hc|].
  change (lastIsWord (String c (String c' r'))) with (lastIsWord (String c' r')).
  now apply IH.
Qed.

Lemma firstIsWord_words (s : string) :
  isEmpty s = false -> forallChars isWord s = true -> firstIsWord s = true.
Proof.
  destruct s as [|c r]; [discriminate|]. intros _ Hs.
  cbn [forallChars] in Hs. now apply andb_true_iff in Hs as [Hc _].
Qed.

Lemma wordAt_after_word (name s : string) :
  firstIsWord name = true -> wordAt name true s = None.
Proof. intro H. unfold wordAt. now rewrite H. Qed.

Lemma wordAt_other_identifier (name ident : string) :
  identifierRegex name = Some (name, "") ->
  forallChars isWord ident = true -> name <> ident ->
  wordAt name false ident = None.
Proof.
  intros Hname Hident Hne. unfold wordAt.
  destruct (xorb false (firstIsWord name)); [|reflexivity].
  destruct (stripPrefix name ident) as [rest|] eqn:E; [|reflexivity].
  pose proof (stripPrefix_forall _ _ _ _ Hident E) as Hrest.
  apply stripPrefix_app in E. subst ident.
  destruct rest as [|c r]; [now rewrite append_nil_r in Hne|].
  rewrite (firstIsWord_words (String c r) eq_refl Hrest).
  rewrite lastIsWord_words; [reflexivity | | now apply identifier_all_word].
  destruct (identifier_shape _ Hname) as (c0 & r0 & -> & _). reflexivity.
Qed.

Lemma replaceWordLoop_words (name : string)
  (replacement : string -> string -> string) (s : string) :
  firstIsWord name = true ->
  forall before,
  forallChars isWord s = true ->
  replaceWordLoop name replacement 0 true before s = (s, false).
Proof.
  intro Hname. induction s as [|c r IH]; intros before Hs; [reflexivity|].
  cbn [replaceWordLoop]. rewrite (wordAt_after_word name _ Hname).
  cbn [forallChars] in Hs. apply andb_true_iff in Hs as [Hc Hr].
  now rewrite Hc, (IH _ Hr).
Qed.

Lemma replaceWord_other_identifier (name ident : string)
  (replacement : string -> string -> string) :
  identifierRegex name = Some (name, "") ->
  forallChars isWord ident = true -> name <> ident ->
  replaceWord name replacement ident = (ident, false).
Proof.
  intros Hname Hident Hne. unfold replaceWord.
  destruct ident as [|c r]; [reflexivity|].
  cbn [replaceWordLoop]. rewrite (wordAt_other_identifier _ _ Hname Hident Hne).
  cbn [forallChars] in Hident. apply andb_true_iff in Hident as [Hc Hr].
  rewrite Hc, replaceWordLoop_words; [reflexivity | | exact Hr].
  destruct (identifier_shape _ Hname) as (c0 & r0 & -> & Hc0 & _).
  cbn [firstIsWord]. unfold isWord. now rewrite Hc0.
Qed.

Lemma findCall_words (name : string) (s : string) :
  forall prevWord, forallChars isWord s = true -> findCall name prevWord s = None.
Proof.
  assert (Hhere : forall prevWord t,
            forallChars isWord t = true ->
            (if xorb prevWord (firstIsWord name)
             then match stripPrefix name t with
                  | Some r => stripPrefix "(" (trimStart r)
                  | None => None
                  end
             else None) = None).
  { intros prevWord t Ht. destruct (xorb prevWord (firstIsWord name)); [|reflexivity].
    destruct (stripPrefix name t) as [r|] eqn:E; [|reflexivity].
    pose proof (stripPrefix_forall _ _ _ _ Ht E) as Hr.
    rewrite (trimStart_word _ Hr). destruct r as [|c r']; [reflexivity|].
    cbn [forallChars] in Hr. apply andb_true_iff in Hr as [Hc _].
    destruct c as [[] [] [] [] [] [] [] []]; try discriminate Hc; reflexivity. }
  induction s as [|c r IH]; intros prevWord Hs; cbn [findCall].
  - now rewrite (Hhere prevWord "" Hs).
  - rewrite (Hhere prevWord _ Hs).
    cbn [forallChars] in Hs. apply andb_true_iff in Hs as [_ Hr].
    now rewrite (IH _ Hr).
Qed.

Lemma insertByLength_In (e x : string * Macro) (sorted : list (string * Macro)) :
  In x (insertByLength e sorted) -> x = e \/ In x sorted.
Proof.
  induction sorted as [|e' rest IH]; cbn [insertByLength In]; [intuition|].
  destruct (String.length (fst e') <=? String.length (fst e))%nat; cbn [In];
    intuition.
Qed.

Lemma sortMacros_In (x : string * Macro) (defines : Defines) :
  In x (sortMacros defines) -> In x defines.
Proof.
  unfold sortMacros, JsMap.entries.
  induction defines as [|e rest IH]; cbn [fold_right In]; [auto|].
  intro H. apply insertByLength_In in H as [->|H]; auto.
Qed.

(** What the theorem below asks of a macro of the table, for the
    identifier [ident]. *)
Lemma macroPass_other_identifier (ident : string) (macros : list (string * Macro)) :
  forallChars isWord ident = true ->
  (forall name macro,
      In (name, macro) macros ->
      identifierRegex name = Some (name, "") /\
      (params macro = None -> name <> ident /\ singleLetter name = None)) ->
  forall changed, macroPass macros ident changed = Return (ident, changed).
Proof.
  intros Hident. induction macros as [|[name macro] rest IH]; intros Hall changed;
    cbn [macroPass]; [reflexivity|].
  destruct (Hall name macro (or_introl eq_refl)) as [Hname Hobj].
  assert (Hrest : forall n m, In (n, m) rest ->
            identifierRegex n = Some (n, "") /\
            (params m = None -> n <> ident /\ singleLetter n = None)).
  { intros n m Hin. apply Hall. now right. }
  destruct (params macro) as [ps|].
  - unfold expandFunctionLike. cbn [expandCalls].
    rewrite (findCall_words name ident false Hident). cbn [bind snd].
    now apply IH.
  - destruct (Hobj eq_refl) as [Hne Hletter].
    destruct (isDefinedRegex name ident || isDefinedInPreprocessorRegex name ident);
      [now apply IH|].
    rewrite Hletter, (replaceWord_other_identifier _ _ _ Hname Hident Hne).
    rewrite String.eqb_refl. cbn [negb]. rewrite orb_false_r. now apply IH.
Qed.

(** X11.  An identifier standing alone is not touched by the macros of
    other names: object-like macros are replaced at word boundaries only,
    so a macro whose name is part of the identifier does not apply, and a
    function-like macro does not apply without its parenthesis, not even
    to its own name.  One-letter object-like macros are left aside: they
    are also replaced after a digit inside an identifier. *)
Theorem other_identifier_is_not_expanded (defines : Defines) (ident : string) :
  identifierRegex ident = Some (ident, "") ->
  (forall name macro,
      In (name, macro) defines ->
      identifierRegex name = Some (name, "") /\
      (params macro = None -> name <> ident /\ singleLetter name = None)) ->
  expandMacros ident defines = Return ident.
Proof.
  intros Hid Hall. pose proof (identifier_all_word _ Hid) as Hw.
  unfold expandMacros. rewrite (protectStrings_words _ Hw).
  assert (Hpass : forall changed,
            macroPass (sortMacros defines) ident changed = Return (ident, changed)).
  { apply macroPass_other_identifier; [exact Hw|].
    intros name macro Hin. apply Hall. now apply sortMacros_In. }
  unfold MAX_ITERATIONS. cbn [expandLoop]. rewrite Hpass. reflexivity.
Qed.

(** [WIDTH2] and [MY_WIDTH] with [WIDTH] defined, and the bare name of a
    function-like macro *)
Lemma other_identifier_is_not_expanded_witness :
  let table := [("WIDTH", mkMacro "800" None); ("SQ", mkMacro "x*x" (Some ["x"]))] in
  expandMacros "WIDTH2" table = Return "WIDTH2" /\
  expandMacros "MY_WIDTH" table = Return "MY_WIDTH" /\
  expandMacros "SQ" table = Return "SQ".
Proof.
  assert (H : forall ident, ident <> "WIDTH" ->
            forall name macro,
              In (name, macro)
                [("WIDTH", mkMacro "800" None); ("SQ", mkMacro "x*x" (Some ["x"]))] ->
              identifierRegex name = Some (name, "") /\
              (params macro = None -> name <> ident /\ singleLetter name = None)).
  { intros ident Hne name macro [H|[H|[]]]; injection H as <- <-;
      (split; [reflexivity|]); cbn [params]; [|discriminate].
    intros _. split; [congruence | reflexivity]. }
  exact (conj
           (other_identifier_is_not_expanded _ "WIDTH2" eq_refl
              (H "WIDTH2" ltac:(discriminate)))
        (conj
           (other_identifier_is_not_expanded _ "MY_WIDTH" eq_refl
              (H "MY_WIDTH" ltac:(discriminate)))
           (other_identifier_is_not_expanded _ "SQ" eq_refl
              (H "SQ" ltac:(discriminate))))).
Defined.

(** The one-letter macro [f] is replaced at the end of [vec2f]. *)
Example one_letter_macro_after_digit :
  expandMacros "vec2f" [("f", mkMacro "1.0" None)] = Return "vec21.0".
Proof. vm_compute. reflexivity. Qed.

(** ** The two tokenizers *)

Lemma attributeRegex_excludes (slice : string) (m : string * string) :
  attributeRegex slice = Some m ->
  stringRegex slice = None /\ numberRegex slice = None.
Proof.
  unfold attributeRegex.
  destruct (stripPrefix "@" slice) as [r|] eqn:E; [|discriminate].
  apply stripPrefix_app in E. subst slice. intros _. split; reflexivity.
Qed.

Lemma filter_push (keep : Token -> bool) (tokens : list Token) (t : Token) :
  filter keep (push tokens t)
  = if keep t then push (filter keep tokens) t else filter keep tokens.
Proof.
  unfold push. rewrite filter_app. cbn [filter].
  destruct (keep t); [reflexivity | apply app_nil_r].
Qed.

Lemma tokenizeLoops_agree (kw bi : string -> bool) :
  forall fuel slice index tokens tokens',
  filter notComment tokens' = tokens ->
  agree (tokenizeLoop kw bi fuel slice index tokens)
        (Tokenization.tokenizeLoop kw bi fuel slice tokens').
Proof.
  induction fuel as [|fuel IH]; intros slice index tokens tokens' Hf; [exact I|].
  cbn [tokenizeLoop Tokenization.tokenizeLoop].
  destruct slice as [|c0 s0]; [exact Hf|].
  remember (String c0 s0) as slice eqn:Eslice.
  assert (Hpush : forall t, notComment t = true ->
            filter notComment (push tokens' t) = push tokens t).
  { intros t Ht. now rewrite filter_push, Ht, Hf. }
  destruct (whitespaceRegex slice) as [[m rest]|]; [now apply IH|].
  destruct (commentRegex slice) as [[m rest]|].
  { apply IH. now rewrite filter_push. }
  destruct (directiveRegex slice) as [[m rest]|]; [now apply IH, Hpush|].
  destruct (attributeRegex slice) as [[m rest]|] eqn:Ea.
  { destruct (attributeRegex_excludes _ _ Ea) as [-> ->]. now apply IH, Hpush. }
  destruct (stringRegex slice) as [[m rest]|]; [now apply IH, Hpush|].
  destruct (numberRegex slice) as [[m rest]|]; [now apply IH, Hpush|].
  destruct (identifierRegex slice) as [[m rest]|].
  { apply IH, Hpush. unfold notComment. cbn [type].
    now destruct (kw m), (bi m). }
  destruct (operatorRegex slice) as [[m rest]|]; [now apply IH, Hpush|].
  cbn [agree]. now exists index, c0.
Qed.

(** X12.  The tokenizer of tokenizeWgsl.ts and the tokenizer of
    tokenization/tokenize-wgsl.ts, which tries attributes before strings
    and numbers and keeps comments as tokens, agree on every input: either
    both return, and the first returns the tokens of the second without
    the comments, or both throw for the same character.  Neither fails to
    terminate. *)
Theorem tokenizers_agree_up_to_comments (kw bi : string -> bool) (code : string) :
  (exists tokens,
      Tokenization.tokenizeWgsl kw bi code = Some (Return tokens) /\
      tokenizeWgsl kw bi code = Some (Return (filter notComment tokens)))
  \/
  (exists index c,
      tokenizeWgsl kw bi code = Some (Throw (unexpectedCharacter index c)) /\
      Tokenization.tokenizeWgsl kw bi code
      = Some (Throw (Tokenization.unexpectedCharacter c))).
Proof.
  pose proof (tokenizeLoops_agree kw bi (S (String.length code)) code 0 [] []
                eq_refl) as H.
  unfold tokenizeWgsl, Tokenization.tokenizeWgsl.
  destruct (tokenizeLoop_spec kw bi (S (String.length code)) code 0 [])
    as [(segs & H1 & _) | (k & c & H1 & _)]; [lia | |]; rewrite H1 in H |- *.
  - left.
    destruct (Tokenization.tokenizeLoop kw bi (S (String.length code)) code [])
      as [[tokens'|e]|]; cbn [agree] in H; try contradiction.
    exists tokens'. now rewrite H.
  - right.
    destruct (Tokenization.tokenizeLoop kw bi (S (String.length code)) code [])
      as [[tokens'|e]|]; cbn [agree] in H; try contradiction.
    destruct H as (index & c' & He & ->).
    exists index, c'. now rewrite He.
Qed.

(** ** Tokens are complete lexemes *)

Lemma identifierRegex_full (s m rest : string) :
  identifierRegex s = Some (m, rest) -> fullMatch identifierRegex m.
Proof.
  unfold fullMatch, identifierRegex. destruct s as [|c r]; [discriminate|].
  destruct (isIdentStart c) eqn:Ec; [|discriminate].
  destruct (span isWord r) as [a b] eqn:E. intro H. injection H as <- <-.
  now rewrite Ec, (span_idem _ _ _ _ E).
Qed.

Lemma span_quoted (q : string) :
  forallChars (notChar dquote) q = true ->
  span (notChar dquote) (q ++ str dquote) = (q, str dquote).
Proof. intro H. now apply span_all. Qed.

Lemma stringRegex_quoted (q : string) :
  forallChars (notChar dquote) q = true ->
  stringRegex (quoted q) = Some (quoted q, "").
Proof.
  intro H. unfold stringRegex, quoted.
  replace (isChar dquote dquote) with true by reflexivity.
  now rewrite (span_quoted q H).
Qed.

Lemma stringRegex_full (s m rest : string) :
  stringRegex s = Some (m, rest) -> fullMatch stringRegex m.
Proof.
  unfold fullMatch. unfold stringRegex at 1. destruct s as [|c r]; [discriminate|].
  destruct (isChar dquote c); [|discriminate].
  destruct (span (notChar dquote) r) as [q r1] eqn:E.
  destruct r1 as [|c1 rest']; [discriminate|].
  destruct (isChar dquote c1); [|discriminate].
  intro H. injection H as <- <-.
  apply stringRegex_quoted. eapply span_forall; eauto.
Qed.

Lemma directiveRegex_full (s m rest : string) :
  directiveRegex s = Some (m, rest) -> fullMatch directiveRegex m.
Proof.
  unfold fullMatch. unfold directiveRegex at 1, directiveParts.
  destruct (stripPrefix "#" s) as [r|]; [|discriminate].
  destruct (span isWord r) as [w r1] eqn:E1.
  destruct (isEmpty w) eqn:Ew; [discriminate|].
  destruct (span isSpace r1) as [sp r2] eqn:E2.
  destruct (isEmpty sp) eqn:Esp; [discriminate|].
  destruct r2 as [|c3 r3]; [discriminate|].
  destruct (isChar dquote c3); [|discriminate].
  destruct (span (notChar dquote) r3) as [q r4] eqn:E4.
  destruct (isEmpty q) eqn:Eq; [discriminate|].
  destruct r4 as [|c5 r5]; [discriminate|].
  destruct (isChar dquote c5); [|discriminate].
  intro H. injection H as <- <-.
  pose proof (span_forall _ _ _ _ E1) as Hw.
  pose proof (span_forall _ _ _ _ E2) as Hsp.
  pose proof (span_forall _ _ _ _ E4) as Hq.
  unfold directiveRegex, directiveParts.
  change ("#" ++ w ++ sp ++ quoted q) with (String "#" (w ++ sp ++ quoted q)).
  cbn [stripPrefix]. replace (Ascii.eqb "#" "#") with true by reflexivity.
  assert (Hb1 : match sp ++ quoted q with
                | String c _ => isWord c = false | "" => True end).
  { destruct sp as [|c sp']; [discriminate|]. cbn [append].
    cbn [forallChars] in Hsp. apply andb_true_iff in Hsp as [Hc _].
    now apply space_not_word. }
  rewrite (span_all isWord w (sp ++ quoted q) Hw Hb1), Ew.
  rewrite (span_all isSpace sp (quoted q) Hsp eq_refl), Esp.
  unfold quoted at 1. replace (isChar dquote dquote) with true by reflexivity.
  rewrite (span_quoted q Hq), Eq.
  cbn [str]. replace (isChar dquote dquote) with true by reflexivity.
  reflexivity.
Qed.

Lemma optChar_boundary (p q : ascii -> bool) (s a r1 suf rest : string) :
  span p s = (a, r1) -> optChar q r1 = (suf, rest) ->
  match suf with String c _ => p c = false | "" => True end.
Proof.
  intros Hs Ho. pose proof (span_rest _ _ _ _ Hs) as Hr.
  destruct r1 as [|c r']; cbn [optChar] in Ho.
  - injection Ho as <- _. exact I.
  - destruct (q c); injection Ho as <- _; [exact Hr | exact I].
Qed.

Lemma optChar_idem (q : ascii -> bool) (r1 suf rest : string) :
  optChar q r1 = (suf, rest) -> optChar q suf = (suf, "").
Proof.
  destruct r1 as [|c r']; cbn [optChar].
  - intro H. injection H as <- _. reflexivity.
  - destruct (q c) eqn:Ec; intro H; injection H as <- _; [|reflexivity].
    cbn [str optChar]. now rewrite Ec.
Qed.

Lemma hexNumber_full (s m rest : string) :
  hexNumber s = Some (m, rest) -> fullMatch hexNumber m.
Proof.
  unfold fullMatch. unfold hexNumber at 1.
  destruct (stripPrefix "0" s) as [[|x r]|]; try discriminate.
  destruct (isChar "x" x || isChar "X" x) eqn:Ex; [|discriminate].
  destruct (span isHex r) as [h r1] eqn:Eh.
  destruct (isEmpty h) eqn:Ehe; [discriminate|].
  destruct (optChar isUIF r1) as [suf rest'] eqn:Es.
  intro H. injection H as <- <-.
  unfold hexNumber.
  change ("0" ++ str x ++ h ++ suf) with (String "0" (String x (h ++ suf))).
  cbn [stripPrefix]. replace (Ascii.eqb "0" "0") with true by reflexivity.
  rewrite Ex.
  rewrite (span_all isHex h suf (span_forall _ _ _ _ Eh)
             (optChar_boundary _ _ _ _ _ _ _ Eh Es)), Ehe.
  now rewrite (optChar_idem _ _ _ _ Es).
Qed.

Lemma decimalNumber_full (s m rest : string) :
  decimalNumber s = Some (m, rest) -> fullMatch decimalNumber m.
Proof.
  unfold fullMatch. unfold decimalNumber at 1.
  destruct (span isDigit s) as [d r] eqn:Ed.
  destruct (isEmpty d) eqn:Ede; [discriminate|].
  pose proof (span_forall _ _ _ _ Ed) as Hd.
  destruct (stripPrefix "." r) as [r1|] eqn:Edot.
  - destruct (span isDigit r1) as [f r2] eqn:Ef.
    destruct (optChar isUIF r2) as [suf rest'] eqn:Es.
    intro H. injection H as <- <-.
    unfold decimalNumber.
    rewrite (span_all isDigit d (String "." (f ++ suf)) Hd eq_refl), Ede.
    cbn [stripPrefix]. replace (Ascii.eqb "." ".") with true by reflexivity.
    rewrite (span_all isDigit f suf (span_forall _ _ _ _ Ef)
               (optChar_boundary _ _ _ _ _ _ _ Ef Es)).
    now rewrite (optChar_idem _ _ _ _ Es).
  - destruct (optChar isUIF r) as [suf rest'] eqn:Es.
    intro H. injection H as <- <-.
    unfold decimalNumber.
    pose proof (optChar_boundary _ _ _ _ _ _ _ Ed Es) as Hb.
    rewrite (span_all isDigit d suf Hd Hb), Ede.
    assert (Hnodot : stripPrefix "." suf = None).
    { destruct r as [|c r']; cbn [optChar] in Es.
      - injection Es as <- _. reflexivity.
      - destruct (isUIF c) eqn:Ec; injection Es as <- _; [|reflexivity].
        cbn [str stripPrefix].
        destruct (Ascii.eqb "." c) eqn:E; [|reflexivity].
        apply Ascii.eqb_eq in E. subst c. discriminate. }
    rewrite Hnodot. now rewrite (optChar_idem _ _ _ _ Es).
Qed.

Lemma fractionNumber_full (s m rest : string) :
  span isDigit s = ("", s) ->
  fractionNumber s = Some (m, rest) ->
  fullMatch fractionNumber m /\ stripPrefix "." m <> None.
Proof.
  intros Hs. unfold fullMatch. unfold fractionNumber at 1. rewrite Hs.
  destruct (stripPrefix "." s) as [r1|]; [|discriminate].
  destruct (span isDigit r1) as [f r2] eqn:Ef.
  destruct (isEmpty f) eqn:Efe; [discriminate|].
  destruct (optChar (isChar "f") r2) as [suf rest'] eqn:Es.
  intro H. injection H as <- <-. split; [|discriminate].
  unfold fractionNumber. cbn [append span].
  replace (isDigit ".") with false by reflexivity.
  cbn [stripPrefix]. replace (Ascii.eqb "." ".") with true by reflexivity.
  rewrite (span_all isDigit f suf (span_forall _ _ _ _ Ef)
             (optChar_boundary _ _ _ _ _ _ _ Ef Es)), Efe.
  now rewrite (optChar_idem _ _ _ _ Es).
Qed.

Lemma hexNumber_prefix (m rest : string) :
  hexNumber m <> None -> hexNumber (m ++ rest) <> None.
Proof.
  unfold hexNumber.
  destruct (stripPrefix "0" m) as [[|x r]|] eqn:E0; try congruence.
  rewrite (stripPrefix_more _ _ _ rest E0). cbn [append].
  destruct (isChar "x" x || isChar "X" x); [|congruence].
  destruct r as [|c r']; cbn [span append]; [intro H; now contradiction H|].
  destruct (isHex c); [|intro H; now contradiction H].
  destruct (span isHex r') as [a b], (span isHex (r' ++ rest)) as [a' b'].
  cbn [isEmpty]. destruct (optChar isUIF b'). discriminate.
Qed.

Lemma decimalNumber_prefix (m rest : string) :
  decimalNumber m <> None -> decimalNumber (m ++ rest) <> None.
Proof.
  unfold decimalNumber.
  destruct m as [|c r]; cbn [span append]; [intro H; now contradiction H|].
  destruct (isDigit c); [|intro H; now contradiction H].
  destruct (span isDigit r) as [a b], (span isDigit (r ++ rest)) as [a' b'].
  cbn [isEmpty]. intros _.
  destruct (stripPrefix "." b') as [r1|].
  - destruct (span isDigit r1) as [f r2]. destruct (optChar isUIF r2). discriminate.
  - destruct (optChar isUIF b'). discriminate.
Qed.

Lemma decimalNumber_None (s : string) :
  decimalNumber s = None -> span isDigit s = ("", s).
Proof.
  unfold decimalNumber. destruct (span isDigit s) as [d r] eqn:E.
  destruct (isEmpty d) eqn:Ed.
  - intros _. apply isEmpty_true in Ed. subst d.
    pose proof (span_app _ _ _ _ E) as Happ. cbn [append] in Happ.
    now subst s.
  - destruct (stripPrefix "." r) as [r1|].
    + destruct (span isDigit r1) as [f r2]. destruct (optChar isUIF r2). discriminate.
    + destruct (optChar isUIF r). discriminate.
Qed.

Lemma numberRegex_full (s m rest : string) :
  numberRegex s = Some (m, rest) -> fullMatch numberRegex m.
Proof.
  unfold fullMatch. unfold numberRegex at 1, orElse.
  destruct (hexNumber s) as [p|] eqn:Eh.
  { intro H. rewrite H in Eh. unfold numberRegex.
    now rewrite (hexNumber_full _ _ _ Eh). }
  destruct (decimalNumber s) as [p|] eqn:Ed.
  { intro H. rewrite H in Ed.
    destruct (decimalNumber_consumes _ _ _ Ed) as [-> _].
    assert (Hh : hexNumber m = None).
    { destruct (hexNumber m) eqn:E; [|reflexivity].
      exfalso. apply (hexNumber_prefix m rest); congruence. }
    unfold numberRegex. rewrite Hh. cbn [orElse].
    now rewrite (decimalNumber_full _ _ _ Ed). }
  intro H. destruct (fractionNumber_full _ _ _ (decimalNumber_None _ Ed) H)
    as [Hf Hdot].
  destruct (stripPrefix "." m) as [r|] eqn:E; [|congruence].
  apply stripPrefix_app in E. subst m.
  unfold numberRegex. rewrite Hf. reflexivity.
Qed.

Lemma attributeArgs_full (inner : bool) (s m rest : string) :
  attributeArgs inner s = Some (m, rest) -> attributeArgs inner m = Some (m, "").
Proof.
  revert inner m rest; induction s as [|c s IH]; intros inner m rest;
    cbn [attributeArgs]; [discriminate|].
  destruct (isChar ")" c) eqn:Ec.
  - destruct inner.
    + destruct (attributeArgs false s) as [[m' r']|] eqn:E; [|discriminate].
      intro H. injection H as <- <-. cbn [attributeArgs].
      now rewrite Ec, (IH _ _ _ E).
    + intro H. injection H as <- <-. cbn [str attributeArgs]. now rewrite Ec.
  - destruct (isChar "(" c) eqn:Eo.
    + destruct inner; [discriminate|].
      destruct (attributeArgs true s) as [[m' r']|] eqn:E; [|discriminate].
      intro H. injection H as <- <-. cbn [attributeArgs].
      now rewrite Ec, Eo, (IH _ _ _ E).
    + destruct (attributeArgs inner s) as [[m' r']|] eqn:E; [|discriminate].
      intro H. injection H as <- <-. cbn [attributeArgs].
      now rewrite Ec, Eo, (IH _ _ _ E).
Qed.

Lemma attributeRegex_full (s m rest : string) :
  attributeRegex s = Some (m, rest) -> fullMatch attributeRegex m.
Proof.
  unfold fullMatch. unfold attributeRegex at 1.
  destruct (stripPrefix "@" s) as [r|]; [|discriminate].
  destruct (identifierRegex r) as [[name r1]|] eqn:En; [|discriminate].
  pose proof (identifierRegex_full _ _ _ En) as Hname. unfold fullMatch in Hname.
  assert (Hbare : attributeRegex ("@" ++ name) = Some ("@" ++ name, "")).
  { unfold attributeRegex. rewrite stripPrefix_self, Hname. reflexivity. }
  destruct (stripPrefix "(" r1) as [r2|]; [|intro H; injection H as <- <-; exact Hbare].
  destruct (attributeArgs false r2) as [[args rest']|] eqn:Ea;
    [|intro H; injection H as <- <-; exact Hbare].
  intro H. injection H as <- <-.
  change (String "@" (name ++ String "(" args)) with ("@" ++ name ++ "(" ++ args).
  unfold attributeRegex. rewrite (stripPrefix_self "@" (name ++ "(" ++ args)).
  rewrite (identifierRegex_before name ("(" ++ args) Hname eq_refl).
  rewrite (stripPrefix_self "(" args), (attributeArgs_full _ _ _ _ Ea).
  reflexivity.
Qed.

Lemma lexeme_identifier (kw bi : string -> bool) (s m rest : string) :
  identifierRegex s = Some (m, rest) ->
  lexeme kw bi
    (mkToken (if kw m then keyword else if bi m then builtin else identifier) m).
Proof.
  intro H. apply identifierRegex_full in H. unfold lexeme.
  destruct (kw m) eqn:Ek; [|destruct (bi m) eqn:Eb]; cbn [type value]; auto.
Qed.

Lemma tokenizationLoop_lexemes (kw bi : string -> bool) :
  forall fuel slice tokens result,
  Forall (lexeme kw bi) tokens ->
  Tokenization.tokenizeLoop kw bi fuel slice tokens = Some (Return result) ->
  Forall (lexeme kw bi) result.
Proof.
  induction fuel as [|fuel IH]; intros slice tokens result Hall; [discriminate|].
  cbn [Tokenization.tokenizeLoop].
  destruct slice as [|c0 s0]; [intro H; injection H as <-; exact Hall|].
  remember (String c0 s0) as slice eqn:Eslice.
  assert (Hpush : forall t, lexeme kw bi t -> Forall (lexeme kw bi) (push tokens t)).
  { intros t Ht. unfold push. apply Forall_app. split; [exact Hall | now constructor]. }
  destruct (whitespaceRegex slice) as [[m rest]|]; [now apply IH|].
  destruct (commentRegex slice) as [[m rest]|] eqn:E1.
  { apply IH, Hpush. exact (commentRegex_full _ _ _ E1). }
  destruct (directiveRegex slice) as [[m rest]|] eqn:E2.
  { apply IH, Hpush. exact (directiveRegex_full _ _ _ E2). }
  destruct (attributeRegex slice) as [[m rest]|] eqn:E3.
  { apply IH, Hpush. exact (attributeRegex_full _ _ _ E3). }
  destruct (stringRegex slice) as [[m rest]|] eqn:E4.
  { apply IH, Hpush. exact (stringRegex_full _ _ _ E4). }
  destruct (numberRegex slice) as [[m rest]|] eqn:E5.
  { apply IH, Hpush. exact (numberRegex_full _ _ _ E5). }
  destruct (identifierRegex slice) as [[m rest]|] eqn:E6.
  { apply IH, Hpush. exact (lexeme_identifier kw bi _ _ _ E6). }
  destruct (operatorRegex slice) as [[m rest]|] eqn:E7; [|discriminate].
  apply IH, Hpush. exact (proj2 (firstPrefix_app _ _ _ _ E7)).
Qed.

Lemma Forall_filter {A} (P : A -> Prop) (keep : A -> bool) (l : list A) :
  Forall P l -> Forall (fun x => P x /\ keep x = true) (filter keep l).
Proof.
  induction 1 as [|x l Hx Hl IH]; cbn [filter]; [constructor|].
  destruct (keep x) eqn:E; [constructor; auto | exact IH].
Qed.

(** X13.  Every token the tokenizers return is a complete lexeme of its
    class: the expression of the class matches the whole text of the
    token, identifiers are classified by the keyword and builtin tables,
    and no token has the type [unknown].  This holds of the tokens of
    tokenization/tokenize-wgsl.ts and of those of tokenizeWgsl.ts, which
    are the same without the comments. *)
Theorem tokens_are_lexemes
  (kw bi : string -> bool) (code : string) (tokens : list Token) :
  Tokenization.tokenizeWgsl kw bi code = Some (Return tokens) ->
  Forall (lexeme kw bi) tokens /\
  exists tokens1,
    tokenizeWgsl kw bi code = Some (Return tokens1) /\
    Forall (fun t => lexeme kw bi t /\ notComment t = true) tokens1.
Proof.
  intro H.
  assert (Hall : Forall (lexeme kw bi) tokens).
  { unfold Tokenization.tokenizeWgsl in H.
    eapply tokenizationLoop_lexemes; [|exact H]. constructor. }
  split; [exact Hall|].
  exists (filter notComment tokens). split; [|now apply Forall_filter].
  pose proof (tokenizeLoops_agree kw bi (S (String.length code)) code 0 [] []
                eq_refl) as Ha.
  unfold Tokenization.tokenizeWgsl in H. unfold tokenizeWgsl. rewrite H in Ha.
  destruct (tokenizeLoop kw bi (S (String.length code)) code 0 [])
    as [[tokens1|e]|]; cbn [agree] in Ha; try contradiction.
  now rewrite Ha.
Qed.

(** The tokens of a declaration followed by a comment *)
Lemma tokens_are_lexemes_witness :
  let kw := setHas wgslKeywords in
  let bi := fun _ : string => false in
  let tokens :=
    [ mkToken attribute "@group(0)"; mkToken keyword "var"; mkToken identifier "x";
      mkToken operator "="; mkToken number "1.5f"; mkToken operator ";";
      mkToken comment "// c" ] in
  Forall (lexeme kw bi) tokens /\
  exists tokens1,
    tokenizeWgsl kw bi "@group(0) var x = 1.5f; // c" = Some (Return tokens1) /\
    Forall (fun t => lexeme kw bi t /\ notComment t = true) tokens1.
Proof.
  exact (tokens_are_lexemes (setHas wgslKeywords) (fun _ => false)
           "@group(0) var x = 1.5f; // c"
           [ mkToken attribute "@group(0)"; mkToken keyword "var";
             mkToken identifier "x"; mkToken operator "="; mkToken number "1.5f";
             mkToken operator ";"; mkToken comment "// c" ]
           eq_refl).
Defined.

(** ** Generated names *)

Lemma digit36_code (d : nat) :
  d < 36 -> nat_of_ascii (digit36 d) = if (d <? 10)%nat then 48 + d else 87 + d.
Proof.
  intro H. unfold digit36.
  destruct (d <? 10)%nat; apply nat_ascii_embedding; lia.
Qed.

Lemma digit36_inj (d d' : nat) :
  d < 36 -> d' < 36 -> digit36 d = digit36 d' -> d = d'.
Proof.
  intros H H' E. apply (f_equal nat_of_ascii) in E.
  rewrite !digit36_code in E by assumption.
  destruct (Nat.ltb_spec d 10), (Nat.ltb_spec d' 10); lia.
Qed.

Lemma digit36_word (d : nat) : d < 36 -> isWord (digit36 d) = true.
Proof.
  intro H. do 36 (destruct d as [|d]; [reflexivity|]). lia.
Qed.

Lemma base36Aux_length (fuel n : nat) :
  forall acc, 0 < fuel -> String.length acc < String.length (base36Aux fuel n acc).
Proof.
  revert n. induction fuel as [|fuel IH]; intros n acc H; [lia|].
  cbn [base36Aux]. destruct (n <? 36)%nat; [cbn [String.length]; lia|].
  destruct fuel as [|fuel']; [cbn [base36Aux String.length]; lia|].
  specialize (IH (n / 36) (String (digit36 (n mod 36)) acc) ltac:(lia)).
  cbn [String.length] in IH. lia.
Qed.

Lemma base36Aux_inj :
  forall fuel fuel' n m acc acc',
  n < fuel -> m < fuel' -> String.length acc = String.length acc' ->
  base36Aux fuel n acc = base36Aux fuel' m acc' -> n = m /\ acc = acc'.
Proof.
  induction fuel as [|fuel IH]; intros fuel' n m acc acc' Hn Hm Hlen; [lia|].
  destruct fuel' as [|fuel']; [lia|]. cbn [base36Aux].
  pose proof (Nat.mod_upper_bound n 36 ltac:(lia)) as Hn36.
  pose proof (Nat.mod_upper_bound m 36 ltac:(lia)) as Hm36.
  pose proof (Nat.div_mod_eq n 36) as Hdn.
  pose proof (Nat.div_mod_eq m 36) as Hdm.
  assert (Hqn : 36 <= n -> n / 36 < n) by (intro; apply Nat.div_lt; lia).
  assert (Hqm : 36 <= m -> m / 36 < m) by (intro; apply Nat.div_lt; lia).
  remember (n mod 36) as dn eqn:Edn. remember (m mod 36) as dm eqn:Edm.
  remember (n / 36) as qn eqn:Eqn. remember (m / 36) as qm eqn:Eqm.
  clear Edn Edm Eqn Eqm.
  destruct (Nat.ltb_spec n 36) as [Hlt|Hge], (Nat.ltb_spec m 36) as [Hlt'|Hge'].
  - intro E. injection E as Ed ->. apply digit36_inj in Ed; [|assumption..].
    split; [nia | reflexivity].
  - intro E. apply (f_equal String.length) in E.
    pose proof (base36Aux_length fuel' qm (String (digit36 dm) acc')
                  ltac:(lia)) as Hl.
    cbn [String.length] in E, Hl. lia.
  - intro E. apply (f_equal String.length) in E.
    pose proof (base36Aux_length fuel qn (String (digit36 dn) acc)
                  ltac:(lia)) as Hl.
    cbn [String.length] in E, Hl. lia.
  - intro E.
    apply IH in E; [|lia|lia|cbn [String.length]; lia].
    destruct E as [Ediv Eacc]. injection Eacc as Ed ->.
    apply digit36_inj in Ed; [|assumption..]. split; [lia | reflexivity].
Qed.

Lemma base36Aux_words (fuel : nat) :
  forall n acc,
  forallChars isWord acc = true -> forallChars isWord (base36Aux fuel n acc) = true.
Proof.
  induction fuel as [|fuel IH]; intros n acc Hacc; cbn [base36Aux]; [exact Hacc|].
  assert (H : forallChars isWord (String (digit36 (n mod 36)) acc) = true).
  { cbn [forallChars]. rewrite Hacc, digit36_word; [reflexivity|].
    apply Nat.mod_upper_bound. lia. }
  destruct (n <? 36)%nat; [exact H | now apply IH].
Qed.

Lemma generated_name_shape (index : nat) :
  exists r, fst (nextName index) = String "_" r /\ forallChars isWord r = true.
Proof.
  exists (toString36 index). split; [reflexivity|].
  unfold toString36. now apply base36Aux_words.
Qed.

(** X14.  The names the obfuscator generates are pairwise different for
    different values of the counter, and each of them is an identifier
    that begins with an underscore: it is neither swizzle-shaped nor the
    default entry point [main], and none of the keywords of
    wgsl-keywords.ts. *)
Theorem generated_names_are_fresh_identifiers (i j : nat) :
  String.eqb (fst (nextName i)) (fst (nextName j)) = (i =? j)%nat /\
  snd (nextName i) = S i /\
  fullMatch identifierRegex (fst (nextName i)) /\
  isPotentialSwizzle (fst (nextName i)) = false /\
  String.eqb (fst (nextName i)) "main" = false /\
  setHas wgslKeywords (fst (nextName i)) = false.
Proof.
  split; [|split; [reflexivity|]].
  - destruct (Nat.eqb_spec i j) as [->|Hne]; [apply String.eqb_refl|].
    apply String.eqb_neq. cbn [nextName fst]. intro E. injection E as E.
    unfold toString36 in E.
    apply base36Aux_inj in E; [tauto | lia | lia | reflexivity].
  - destruct (generated_name_shape i) as (r & Hr & Hw). rewrite Hr.
    repeat split.
    + unfold fullMatch, identifierRegex.
      replace (isIdentStart "_") with true by reflexivity.
      now rewrite (span_words r Hw).
    + rewrite isPotentialSwizzle_swizzleShaped. unfold swizzleShaped.
      cbn [forallChars]. replace (isComponent "_") with false by reflexivity.
      cbn [andb]. apply andb_false_r.
Qed.

(** ** The collected maps *)

Lemma JsMap_get_None_keys {V} (m : JsMap.t V) (k : string) :
  JsMap.get m k = None -> ~ In k (map fst m).
Proof.
  induction m as [|[k0 v0] r IH]; cbn [JsMap.get map fst In]; [tauto|].
  destruct (String.eqb_spec k0 k) as [->|Hne]; [discriminate|].
  intros H [H'|H']; [contradiction | now apply IH].
Qed.

Lemma JsMap_set_absent {V} (m : JsMap.t V) (k : string) (v : V) :
  JsMap.get m k = None -> JsMap.set m k v = (m ++ [(k, v)])%list.
Proof.
  induction m as [|[k0 v0] r IH]; cbn [JsMap.get JsMap.set app]; [reflexivity|].
  destruct (String.eqb k0 k); [discriminate|]. intro H. now rewrite IH.
Qed.

Lemma generatedNames_S (lo hi : nat) :
  lo <= hi ->
  generatedNames lo (S hi) = (generatedNames lo hi ++ [fst (nextName hi)])%list.
Proof.
  intro H. unfold generatedNames.
  replace (S hi - lo) with (S (hi - lo)) by lia.
  rewrite seq_S, map_app. cbn [map].
  now replace (lo + (hi - lo)) with hi by lia.
Qed.

Lemma registerName_namedInOrder (lo : nat) (name : string)
  (st : JsMap.t string * nat) :
  namedInOrder lo st -> namedInOrder lo (registerName name st).
Proof.
  destruct st as [m index]. intros (Hu & Hlo & Hv). cbn [fst snd] in *.
  unfold registerName, JsMap.has.
  destruct (JsMap.get m name) eqn:E; [repeat split; assumption|].
  cbn [nextName]. rewrite (JsMap_set_absent _ _ _ E).
  unfold namedInOrder, uniqueKeys, mapValues in *. cbn [fst snd].
  rewrite !map_app. cbn [map fst snd]. repeat split.
  - apply NoDup_app; [exact Hu | repeat constructor; intros [] |].
    intros x Hx [<-|[]]. now apply (JsMap_get_None_keys _ _ E).
  - lia.
  - rewrite Hv. symmetry. now apply generatedNames_S.
Qed.

Lemma collectStructLoop_namedInOrder (lo : nat) :
  forall n tokens inBody st,
  List.length tokens <= n ->
  namedInOrder lo st -> namedInOrder lo (collectStructLoop tokens inBody st).
Proof.
  induction n as [|n IH]; intros tokens inBody st Hlen Hst;
    destruct tokens as [|t rest]; cbn [collectStructLoop]; auto;
    cbn [List.length] in Hlen; [lia|].
  assert (Hlen' : List.length rest <= n) by lia.
  destruct inBody.
  - destruct (String.eqb (value t) "}"); [now apply IH|].
    destruct (TokenType_eqb (type t) identifier && nextValueIs rest ":");
      [|now apply IH].
    destruct (negb (isPotentialSwizzle (value t))); [|now apply IH].
    apply IH; [exact Hlen'|]. now apply registerName_namedInOrder.
  - destruct (isKeyword t "struct"); [|now apply IH].
    destruct rest as [|t' rest']; [assumption|].
    apply IH; [cbn [List.length] in Hlen'; lia | assumption].
Qed.

(** The invariants of the collection of declared identifiers: a
    property kept by its three registering steps is kept by the loop. *)
Lemma collectLoop_invariant (P : Collected -> Prop) :
  (forall name st, P st -> P (registerIdentifier name st)) ->
  (forall token st, P st -> P (collectDirective token st)) ->
  forall n tokens inParams st,
  List.length tokens <= n -> P st -> P (collectLoop tokens inParams st).
Proof.
  intros Hreg Hdir.
  assert (Hfn : forall name st, P st -> P (collectFunctionName name st)).
  { intros name st Hst. unfold collectFunctionName.
    destruct (negb _); [now apply Hreg | assumption]. }
  induction n as [|n IH]; intros tokens inParams st Hlen Hst;
    destruct tokens as [|t rest]; cbn [collectLoop]; auto;
    cbn [List.length] in Hlen; [lia|].
  assert (Hlen' : List.length rest <= n) by lia.
  assert (Hskip :
            P match rest with
              | [] => st
              | nameToken :: rest' =>
                  collectLoop rest' false (registerIdentifier (value nameToken) st)
              end).
  { destruct rest as [|t' rest']; [assumption|].
    apply IH; [cbn [List.length] in Hlen'; lia | now apply Hreg]. }
  destruct inParams.
  - destruct (String.eqb (value t) ")"); [now apply IH|].
    destruct (TokenType_eqb (type t) identifier && nextValueIs rest ":");
      [|now apply IH].
    destruct rest as [|t' rest']; [assumption|].
    apply IH; [cbn [List.length] in Hlen'; lia | now apply Hreg].
  - destruct (type t); try (now apply IH).
    + destruct (String.eqb (value t) "fn" && nextIsIdentifier rest).
      { destruct rest as [|nameToken rest']; [assumption|].
        cbn [List.length] in Hlen'.
        destruct (nextValueIs rest' "(").
        - destruct rest' as [|t'' rest'']; [now apply Hfn|].
          apply IH; [cbn [List.length] in Hlen'; lia | now apply Hfn].
        - apply IH; [lia | now apply Hfn]. }
      destruct ((String.eqb (value t) "let" || String.eqb (value t) "var"
                 || String.eqb (value t) "const") && nextIsIdentifier rest);
        [exact Hskip|].
      destruct (String.eqb (value t) "struct" && nextIsIdentifier rest);
        [exact Hskip | now apply IH].
    + apply IH; [exact Hlen' | now apply Hdir].
Qed.

Lemma registerIdentifier_namedInOrder (lo : nat) (name : string) (st : Collected) :
  namedInOrder lo (identifierMap st, nameIndex st) ->
  namedInOrder lo (identifierMap (registerIdentifier name st),
                   nameIndex (registerIdentifier name st)).
Proof.
  intro H. apply (registerName_namedInOrder lo name) in H.
  unfold registerIdentifier.
  destruct (registerName name (identifierMap st, nameIndex st)) as [im index].
  exact H.
Qed.

Lemma collectDirective_namedInOrder (lo : nat) (token : Token) (st : Collected) :
  namedInOrder lo (identifierMap st, nameIndex st) ->
  namedInOrder lo (identifierMap (collectDirective token st),
                   nameIndex (collectDirective token st)).
Proof.
  intro H. unfold collectDirective.
  destruct (directiveParts (value token)) as [[[[w sp] q] rest]|]; [|exact H].
  destruct (String.eqb w "binding").
  - pose proof (registerIdentifier_namedInOrder lo q st H) as H'.
    destruct (JsMap.get (identifierMap (registerIdentifier q st)) q); exact H'.
  - destruct (String.eqb w "entrypoint"); exact H.
Qed.

Lemma nextName_inj (i j : nat) : fst (nextName i) = fst (nextName j) -> i = j.
Proof.
  cbn [nextName fst]. intro E. injection E as E. unfold toString36 in E.
  apply base36Aux_inj in E; [tauto | lia | lia | reflexivity].
Qed.

Lemma NoDup_map_injective {A B} (f : A -> B) (l : list A) :
  (forall x y, f x = f y -> x = y) -> NoDup l -> NoDup (map f l).
Proof.
  intros Hf. induction 1 as [|x l Hx Hl IH]; cbn [map]; constructor; [|exact IH].
  intro Hin. apply in_map_iff in Hin as (y & Hy & Hin).
  apply Hf in Hy. now subst y.
Qed.

Lemma generatedNames_app (lo mid hi : nat) :
  lo <= mid -> mid <= hi ->
  (generatedNames lo mid ++ generatedNames mid hi)%list = generatedNames lo hi.
Proof.
  intros H1 H2. unfold generatedNames. rewrite <- map_app. f_equal.
  replace (hi - lo) with ((mid - lo) + (hi - mid)) by lia.
  rewrite seq_app. now replace (lo + (mid - lo)) with mid by lia.
Qed.

(** X15.  In a run of the obfuscator the k-th name registered gets the
    k-th generated name: the struct member map holds the names generated
    for the counter values before [index], the identifier map those
    generated from [index] on, each in the order of insertion.  So no two
    different members and no two different identifiers are renamed to the
    same name, and no member shares its new name with an identifier. *)
Theorem obfuscated_names_are_distinct (tokens : list Token) :
  let structMemberMap := fst (collectStructNames tokens 0) in
  let index := snd (collectStructNames tokens 0) in
  let collected := collectDeclaredIdentifiersAndEntryPoints tokens index in
  mapValues structMemberMap = generatedNames 0 index /\
  mapValues (identifierMap collected) = generatedNames index (nameIndex collected) /\
  uniqueKeys structMemberMap /\ uniqueKeys (identifierMap collected) /\
  NoDup (mapValues structMemberMap ++ mapValues (identifierMap collected)).
Proof.
  intros structMemberMap index collected.
  assert (H1 : namedInOrder 0 (collectStructNames tokens 0)).
  { unfold collectStructNames.
    apply (collectStructLoop_namedInOrder 0 (List.length tokens)); [lia|].
    repeat split; [constructor | lia]. }
  assert (H2 : namedInOrder index (identifierMap collected, nameIndex collected)).
  { unfold collected, collectDeclaredIdentifiersAndEntryPoints.
    apply (collectLoop_invariant
             (fun st => namedInOrder index (identifierMap st, nameIndex st)))
      with (n := List.length tokens); [| |lia|].
    - intros name st. apply registerIdentifier_namedInOrder.
    - intros token st. apply collectDirective_namedInOrder.
    - unfold namedInOrder, uniqueKeys, mapValues, generatedNames.
      cbn [identifierMap nameIndex fst snd map]. rewrite Nat.sub_diag.
      repeat split; [constructor | lia]. }
  destruct H1 as (Hu1 & _ & Hv1). destruct H2 as (Hu2 & Hle & Hv2).
  cbn [fst snd] in Hu2, Hle, Hv2.
  fold structMemberMap in Hu1, Hv1. fold index in Hv1.
  repeat split; try assumption.
  rewrite Hv1, Hv2, generatedNames_app; [|lia|exact Hle].
  unfold generatedNames. apply NoDup_map_injective; [|apply seq_NoDup].
  intros x y. apply nextName_inj.
Qed.

(** ** The replacement pass keeps the shape of the tokens *)

Lemma replaceIdentifier_type (prev : option Token) (token : Token)
  (rest : list Token) (inStruct : bool) (im sm : JsMap.t string) :
  type (replaceIdentifier prev token rest inStruct im sm) = type token.
Proof.
  unfold replaceIdentifier.
  destruct (inStruct && nextValueIs rest ":").
  - now destruct (truthy (JsMap.get sm (value token))).
  - destruct (prevValueIs prev ".").
    + destruct (JsMap.has sm (value token) && negb (setHas swizzles (value token)));
        [|reflexivity].
      now destruct (JsMap.get sm (value token)).
    + now destruct (truthy (JsMap.get im (value token))).
Qed.

Lemma replaceLoop_shape (im sm : JsMap.t string) :
  forall tokens prev inStruct,
  directivesAreNotBraces tokens = true ->
  Forall2 standsFor (filter notDirective tokens)
    (replaceLoop prev tokens inStruct im sm).
Proof.
  induction tokens as [|t rest IH]; intros prev inStruct Hd;
    cbn [filter replaceLoop]; [constructor|].
  cbn [directivesAreNotBraces forallb] in Hd.
  apply andb_true_iff in Hd as [Ht Hrest]. fold (directivesAreNotBraces rest) in Hrest.
  assert (Hsame : standsFor t t) by (split; auto).
  unfold notDirective at 1.
  destruct (isKeyword t "struct") eqn:Ek.
  { unfold isKeyword in Ek. apply andb_true_iff in Ek as [Ek _].
    apply TokenType_eqb_eq in Ek. rewrite Ek. cbn [TokenType_eqb negb].
    constructor; [exact Hsame | now apply IH]. }
  destruct (inStruct && String.eqb (value t) "}") eqn:Eb.
  { apply andb_true_iff in Eb as [_ Eb]. rewrite Eb, andb_true_r in Ht.
    rewrite Ht. constructor; [exact Hsame | now apply IH]. }
  destruct (TokenType_eqb (type t) identifier) eqn:Ei.
  { apply TokenType_eqb_eq in Ei. rewrite Ei. cbn [TokenType_eqb negb].
    constructor; [|now apply IH].
    split; [now rewrite replaceIdentifier_type | now rewrite Ei]. }
  destruct (TokenType_eqb (type t) directive) eqn:Edir.
  - replace (TokenType_eqb (type t) builtin) with false
      by (destruct (type t); try discriminate; reflexivity).
    cbn [negb orb]. now apply IH.
  - rewrite orb_true_r. cbn [negb]. constructor; [exact Hsame | now apply IH].
Qed.

(** X16.  The replacement pass of the obfuscator returns the tokens
    without the directives, in their order: every token keeps its type,
    and only tokens of type identifier can get another text. *)
Theorem replaceIdentifiers_keeps_token_shape
  (tokens : list Token) (identifierMap structMemberMap : JsMap.t string) :
  directivesAreNotBraces tokens = true ->
  Forall2 standsFor (filter notDirective tokens)
    (replaceIdentifiers tokens identifierMap structMemberMap).
Proof. intro H. unfold replaceIdentifiers. now apply replaceLoop_shape. Qed.

(** A binding directive in front of a declaration of the bound name *)
Lemma replaceIdentifiers_keeps_token_shape_witness :
  Forall2 standsFor
    [ mkToken keyword "var"; mkToken identifier "data"; mkToken operator ";" ]
    [ mkToken keyword "var"; mkToken identifier "_0"; mkToken operator ";" ].
Proof.
  exact (replaceIdentifiers_keeps_token_shape
           [ mkToken directive ("#binding " ++ quoted "data");
             mkToken keyword "var"; mkToken identifier "data"; mkToken operator ";" ]
           [("data", "_0")] [] eq_refl).
Defined.

(** ** The default entry point *)

Lemma registerIdentifier_mainKept (n : string) (st : Collected) :
  n <> "main" -> mainKept st -> mainKept (registerIdentifier n st).
Proof.
  intros Hn [HE Him]. destruct (registerIdentifier_other "main" n st Hn) as [H1 H2].
  split; [now rewrite H2 | now rewrite H1].
Qed.

Lemma collectFunctionName_mainKept (funcName : string) (st : Collected) :
  mainKept st -> mainKept (collectFunctionName funcName st).
Proof.
  intros Hst. pose proof Hst as [HE Him]. unfold collectFunctionName, isEntryPoint.
  rewrite HE. cbn [setHas existsb List.length Nat.eqb orb andb].
  destruct (String.eqb_spec funcName "main") as [->|Hne]; cbn [negb]; [exact Hst|].
  now apply registerIdentifier_mainKept.
Qed.

Lemma collectDirective_mainKept (token : Token) (st : Collected) :
  type token = directive ->
  isEntryPointDirective token = false ->
  isDirectiveOf "binding" "main" token = false ->
  mainKept st -> mainKept (collectDirective token st).
Proof.
  unfold isEntryPointDirective, isDirectiveOf, collectDirective.
  intros Hty He Hb Hst. rewrite Hty in He, Hb. cbn [TokenType_eqb andb] in He, Hb.
  destruct (directiveParts (value token)) as [[[[w sp] q] r]|]; [|exact Hst].
  rewrite He. destruct (String.eqb w "binding"); [|exact Hst].
  cbn [andb] in Hb. apply String.eqb_neq in Hb.
  pose proof (registerIdentifier_mainKept q st Hb Hst) as [H1 H2].
  destruct (JsMap.get (identifierMap (registerIdentifier q st)) q);
    split; assumption.
Qed.

Lemma noEntryPointDirective_tail (t : Token) (rest : list Token) :
  noEntryPointDirective (t :: rest) = true -> noEntryPointDirective rest = true.
Proof.
  unfold noEntryPointDirective. cbn [forallb]. intro H.
  now apply andb_true_iff in H as [_ H].
Qed.

Lemma collectLoop_mainKept :
  forall n tokens inParams st,
  List.length tokens <= n ->
  mainKept st -> declaredNowhereElse "main" tokens ->
  noEntryPointDirective tokens = true ->
  mainKept (collectLoop tokens inParams st).
Proof.
  induction n as [|n IH]; intros tokens inParams st Hlen Hst Hdecl Hno;
    (destruct tokens as [|t rest]; [exact Hst|]);
    cbn [List.length] in Hlen; [lia|].
  cbn [collectLoop].
  assert (Hlen' : List.length rest <= n) by lia.
  pose proof (declaredNowhereElse_tail _ _ _ Hdecl) as Hrest.
  pose proof (noEntryPointDirective_tail _ _ Hno) as Hno'.
  assert (Htail2 : forall t' rest', rest = t' :: rest' ->
            List.length rest' <= n /\ declaredNowhereElse "main" rest' /\
            noEntryPointDirective rest' = true).
  { intros t' rest' ->. cbn [List.length] in Hlen'. split; [lia | split].
    - eapply declaredNowhereElse_tail; eauto.
    - eapply noEntryPointDirective_tail; eauto. }
  destruct inParams.
  - destruct (String.eqb (value t) ")"); [now apply IH|].
    destruct (TokenType_eqb (type t) identifier && nextValueIs rest ":") eqn:Epos;
      [|now apply IH].
    destruct rest as [|t' rest']; [assumption|].
    destruct (Htail2 t' rest' eq_refl) as (H1 & H2 & H3).
    apply IH; auto. apply registerIdentifier_mainKept; [|exact Hst].
    eapply member_position_differs; eauto.
  - destruct (type t) eqn:Ety; try (now apply IH).
    + destruct (String.eqb (value t) "fn" && nextIsIdentifier rest) eqn:Efn.
      { destruct rest as [|nameToken rest']; [assumption|].
        destruct (Htail2 nameToken rest' eq_refl) as (H1 & H2 & H3).
        pose proof (collectFunctionName_mainKept (value nameToken) st Hst) as Hst'.
        destruct (nextValueIs rest' "(").
        - destruct rest' as [|t'' rest'']; [assumption|].
          apply IH; auto.
          + cbn [List.length] in H1. lia.
          + eapply declaredNowhereElse_tail; eauto.
          + eapply noEntryPointDirective_tail; eauto.
        - now apply IH. }
      assert (Hother : forall nameToken rest',
                rest = nameToken :: rest' -> nextIsIdentifier rest = true ->
                String.eqb (value t) "let" || String.eqb (value t) "var"
                || String.eqb (value t) "const" || String.eqb (value t) "struct"
                = true ->
                mainKept (collectLoop rest' false
                            (registerIdentifier (value nameToken) st))).
      { intros nameToken rest' -> Hid Hkw.
        destruct (Htail2 nameToken rest' eq_refl) as (H1 & H2 & H3).
        apply IH; auto. apply registerIdentifier_mainKept; [|exact Hst].
        eapply other_declaration_differs; eauto.
        cbn [nextIsIdentifier] in Hid. now apply TokenType_eqb_eq. }
      destruct ((String.eqb (value t) "let" || String.eqb (value t) "var"
                 || String.eqb (value t) "const") && nextIsIdentifier rest) eqn:Elet.
      { apply andb_true_iff in Elet as [Hkw Hid].
        destruct rest as [|nameToken rest']; [assumption|].
        apply Hother; auto. now rewrite Hkw. }
      destruct (String.eqb (value t) "struct" && nextIsIdentifier rest) eqn:Estruct.
      { apply andb_true_iff in Estruct as [Hkw Hid].
        destruct rest as [|nameToken rest']; [assumption|].
        apply Hother; auto. now rewrite Hkw, orb_true_r. }
      now apply IH.
    + apply IH; auto. apply collectDirective_mainKept; auto.
      * unfold noEntryPointDirective in Hno. cbn [forallb] in Hno.
        apply andb_true_iff in Hno as [Hno _]. now apply negb_true_iff in Hno.
      * eapply binding_differs; eauto.
Qed.

(** X17.  When the tokens hold no [#entrypoint] directive, a function
    named [main] is the entry point: provided [main] is declared by [fn]
    only (it is no variable, struct or parameter and is named by no
    binding), it is not given a new name, and every identifier token
    [main] is pushed to the output as it is. *)
Theorem default_entry_point_main_is_preserved (tokens : list Token) (index : nat) :
  noEntryPointDirective tokens = true ->
  noOtherDeclaration "main" tokens = true ->
  noMemberPosition "main" tokens = true ->
  noBinding "main" tokens = true ->
  let structMemberMap := fst (collectStructNames tokens index) in
  let collected :=
    collectDeclaredIdentifiersAndEntryPoints tokens
      (snd (collectStructNames tokens index)) in
  JsMap.has (identifierMap collected) "main" = false /\
  forall i t,
    nth_error tokens i = Some t -> type t = identifier -> value t = "main" ->
    nth_error (replaceIdentifiers tokens (identifierMap collected) structMemberMap)
      (outputIndex tokens i) = Some t.
Proof.
  intros Hno H1 H2 H3 structMemberMap collected.
  assert (Hdecl : declaredNowhereElse "main" tokens) by (repeat split; assumption).
  assert (Him : JsMap.has (identifierMap collected) "main" = false).
  { unfold collected, collectDeclaredIdentifiersAndEntryPoints.
    apply (collectLoop_mainKept (List.length tokens)); auto. now split. }
  assert (Hsm : JsMap.has structMemberMap "main" = false).
  { unfold structMemberMap, collectStructNames.
    eapply collectStructLoop_absent; eauto. }
  split; [exact Him|].
  intros i t Hnth Hid Hval. unfold replaceIdentifiers, outputIndex.
  apply (replaceLoop_unchanged (identifierMap collected) structMemberMap "main" Hsm
           tokens None false i t Hnth Hid Hval).
  now left.
Qed.

(** The tokens of [fn helper ( ) { } fn main ( ) { helper ( ) ; }] *)
Lemma default_entry_point_main_is_preserved_witness :
  let tokens :=
    [ mkToken keyword "fn"; mkToken identifier "helper"; mkToken operator "(";
      mkToken operator ")"; mkToken operator "{"; mkToken operator "}";
      mkToken keyword "fn"; mkToken identifier "main"; mkToken operator "(";
      mkToken operator ")"; mkToken operator "{"; mkToken identifier "helper";
      mkToken operator "("; mkToken operator ")"; mkToken operator ";";
      mkToken operator "}" ] in
  JsMap.has
    (identifierMap
       (collectDeclaredIdentifiersAndEntryPoints tokens
          (snd (collectStructNames tokens 0)))) "main" = false /\
  forall i t,
    nth_error tokens i = Some t -> type t = identifier -> value t = "main" ->
    nth_error
      (replaceIdentifiers tokens
         (identifierMap
            (collectDeclaredIdentifiersAndEntryPoints tokens
               (snd (collectStructNames tokens 0))))
         (fst (collectStructNames tokens 0)))
      (outputIndex tokens i) = Some t.
Proof.
  exact (default_entry_point_main_is_preserved
           [ mkToken keyword "fn"; mkToken identifier "helper"; mkToken operator "(";
             mkToken operator ")"; mkToken operator "{"; mkToken operator "}";
             mkToken keyword "fn"; mkToken identifier "main"; mkToken operator "(";
             mkToken operator ")"; mkToken operator "{"; mkToken identifier "helper";
             mkToken operator "("; mkToken operator ")"; mkToken operator ";";
             mkToken operator "}" ] 0 eq_refl eq_refl eq_refl eq_refl).
Defined.

(** With an [#entrypoint] directive for another function, [main] is
    renamed. *)
Example main_is_renamed_beside_another_entry_point :
  obfuscateTokens
    [ mkToken directive ("#entrypoint " ++ quoted "start");
      mkToken keyword "fn"; mkToken identifier "start"; mkToken operator "(";
      mkToken operator ")"; mkToken operator "{"; mkToken operator "}";
      mkToken keyword "fn"; mkToken identifier "main"; mkToken operator "(";
      mkToken operator ")"; mkToken operator "{"; mkToken operator "}" ]
  = "fn start(){}fn _0(){}".
Proof. vm_compute. reflexivity. Qed.

(** ** The blank lines of the preprocessed text *)

Lemma collapseEmptyLines_noBlankRun (lines : list string) :
  forall previous,
  noBlankRunFrom previous (collapseEmptyLines previous lines) = true.
Proof.
  induction lines as [|line rest IH]; intro previous;
    cbn [collapseEmptyLines]; [reflexivity|].
  fold (isBlank line).
  destruct (isBlank line && previous) eqn:E; [apply IH|].
  cbn [noBlankRunFrom]. now rewrite E, IH.
Qed.

Lemma collapseEmptyLines_notBlank (lines : list string) :
  forall previous,
  filter notBlank (collapseEmptyLines previous lines) = filter notBlank lines.
Proof.
  induction lines as [|line rest IH]; intro previous;
    cbn [collapseEmptyLines filter]; [reflexivity|].
  fold (isBlank line). unfold notBlank at 2.
  destruct (isBlank line) eqn:E; cbn [andb negb].
  - destruct previous; [apply IH|].
    cbn [filter]. unfold notBlank at 1. rewrite E. cbn [negb]. apply IH.
  - cbn [filter]. unfold notBlank at 1. rewrite E. cbn [negb]. now rewrite IH.
Qed.

Lemma dropEmptyLines_spec (reversed : list string) :
  exists blanks,
    reversed = (blanks ++ dropEmptyLines reversed)%list /\
    filter notBlank blanks = [] /\
    match dropEmptyLines reversed with
    | line :: _ => isBlank line = false
    | [] => True
    end.
Proof.
  induction reversed as [|line rest IH]; cbn [dropEmptyLines].
  - now exists [].
  - fold (isBlank line). destruct (isBlank line) eqn:E.
    + destruct IH as (blanks & H1 & H2 & H3). exists (line :: blanks).
      cbn [app filter]. unfold notBlank at 1. rewrite E. cbn [negb].
      repeat split; [now f_equal | assumption..].
    + exists []. repeat split. exact E.
Qed.

Lemma noBlankRunFrom_app (a b : list string) :
  forall previous,
  noBlankRunFrom previous (a ++ b) = true -> noBlankRunFrom previous a = true.
Proof.
  induction a as [|line rest IH]; intro previous; cbn [app noBlankRunFrom];
    [reflexivity|].
  intro H. apply andb_true_iff in H as [H1 H2]. now rewrite H1, (IH _ H2).
Qed.

(** X18.  The text [preprocessWgsl] returns is made of the lines
    [processConditionals] returns, of which only blank ones are left out:
    it holds no two blank lines in a row and does not end with a blank
    line, and its lines that are not blank are those of
    [processConditionals], in their order. *)
Theorem preprocessed_text_has_no_blank_runs
  (js_eval : Eval) (code : string) (resultLines : list string) :
  processConditionals js_eval (splitLines "" code) [] = Return resultLines ->
  exists cleanedLines,
    preprocessWgsl js_eval code = Return (join newline cleanedLines) /\
    noBlankRun cleanedLines = true /\
    endsBlank cleanedLines = false /\
    filter notBlank cleanedLines = filter notBlank resultLines.
Proof.
  intro H. unfold preprocessWgsl. rewrite H. cbn [bind].
  set (collapsed := collapseEmptyLines false resultLines).
  destruct (dropEmptyLines_spec (rev collapsed)) as (blanks & H1 & H2 & H3).
  exists (rev (dropEmptyLines (rev collapsed))).
  assert (Hsplit : collapsed
                   = (rev (dropEmptyLines (rev collapsed)) ++ rev blanks)%list).
  { rewrite <- rev_app_distr, <- H1. symmetry. apply rev_involutive. }
  repeat split.
  - unfold noBlankRun. apply (noBlankRunFrom_app _ (rev blanks)).
    rewrite <- Hsplit. apply collapseEmptyLines_noBlankRun.
  - unfold endsBlank. rewrite rev_involutive.
    destruct (dropEmptyLines (rev collapsed)); [reflexivity | exact H3].
  - rewrite <- (collapseEmptyLines_notBlank resultLines false). fold collapsed.
    rewrite Hsplit at 2. rewrite filter_app.
    assert (Hb : filter notBlank (rev blanks) = []).
    { rewrite filter_rev, H2. reflexivity. }
    rewrite Hb. now rewrite app_nil_r.
Qed.

(** Three blank lines between two declarations and two at the end *)
Lemma preprocessed_text_has_no_blank_runs_witness :
  exists cleanedLines,
    preprocessWgsl evalUnused
      (join newline ["let a = 1;"; ""; "  "; ""; "let b = 2;"; ""; ""])
    = Return (join newline cleanedLines) /\
    noBlankRun cleanedLines = true /\
    endsBlank cleanedLines = false /\
    filter notBlank cleanedLines = filter notBlank
      ["let a = 1;"; ""; "  "; ""; "let b = 2;"; ""; ""].
Proof.
  exact (preprocessed_text_has_no_blank_runs evalUnused
           (join newline ["let a = 1;"; ""; "  "; ""; "let b = 2;"; ""; ""])
           ["let a = 1;"; ""; "  "; ""; "let b = 2;"; ""; ""] eq_refl).
Defined.

(** ** Minification and obfuscation work on the tokens *)

Lemma filter_idem {A} (keep : A -> bool) (l : list A) :
  filter keep (filter keep l) = filter keep l.
Proof.
  induction l as [|x l IH]; cbn [filter]; [reflexivity|].
  destruct (keep x) eqn:E; cbn [filter]; [now rewrite E, IH | exact IH].
Qed.

Lemma minifyTokens_comments (allTokens : list Token) :
  minifyTokens (filter notComment allTokens) = minifyTokens allTokens.
Proof.
  unfold minifyTokens. fold notComment. now rewrite filter_idem.
Qed.

Lemma obfuscateTokens_comments (allTokens : list Token) :
  obfuscateTokens (filter notComment allTokens) = obfuscateTokens allTokens.
Proof.
  unfold obfuscateTokens. fold notComment. now rewrite filter_idem.
Qed.

(** X19.  [minify] and [obfuscate], which tokenize with
    tokenization/tokenize-wgsl.ts and drop the comment tokens, are
    functions of the tokens of tokenizeWgsl.ts: comments and white space
    have no influence on their results beyond separating tokens. *)
Theorem minify_and_obfuscate_work_on_tokens
  (kw bi : string -> bool) (code : string) (tokens : list Token) :
  tokenizeWgsl kw bi code = Some (Return tokens) ->
  minify kw bi code = Some (Return (minifyTokens tokens)) /\
  obfuscate kw bi code = Some (Return (obfuscateTokens tokens)).
Proof.
  intro H.
  pose proof (tokenizeLoops_agree kw bi (S (String.length code)) code 0 [] []
                eq_refl) as Ha.
  unfold tokenizeWgsl in H. rewrite H in Ha.
  unfold minify, obfuscate, Tokenization.tokenizeWgsl.
  destruct (Tokenization.tokenizeLoop kw bi (S (String.length code)) code [])
    as [[allTokens|e]|]; cbn [agree] in Ha; try contradiction.
  subst tokens. now rewrite minifyTokens_comments, obfuscateTokens_comments.
Qed.

(** Two texts with the same tokens *)
Lemma minify_and_obfuscate_work_on_tokens_witness :
  let kw := setHas wgslKeywords in
  let bi := fun _ : string => false in
  let tokens := [ mkToken keyword "let"; mkToken identifier "x";
                  mkToken operator "="; mkToken number "1"; mkToken operator ";" ] in
  (minify kw bi "let x = 1;" = Some (Return (minifyTokens tokens)) /\
   obfuscate kw bi "let x = 1;" = Some (Return (obfuscateTokens tokens))) /\
  (minify kw bi "let /* the value */ x=1 ; // done"
   = Some (Return (minifyTokens tokens)) /\
   obfuscate kw bi "let /* the value */ x=1 ; // done"
   = Some (Return (obfuscateTokens tokens))).
Proof.
  exact (conj
           (minify_and_obfuscate_work_on_tokens (setHas wgslKeywords)
              (fun _ => false) "let x = 1;"
              [ mkToken keyword "let"; mkToken identifier "x";
                mkToken operator "="; mkToken number "1"; mkToken operator ";" ]
              eq_refl)
           (minify_and_obfuscate_work_on_tokens (setHas wgslKeywords)
              (fun _ => false) "let /* the value */ x=1 ; // done"
              [ mkToken keyword "let"; mkToken identifier "x";
                mkToken operator "="; mkToken number "1"; mkToken operator ";" ]
              eq_refl)).
Defined.

(** ** The semicolons the minifier leaves out *)

Lemma findStructEnd_spec (tokens : list Token) :
  forall j k,
  findStructEnd j tokens = Some k ->
  exists n brace semi,
    k = S (j + n) /\
    nth_error tokens n = Some brace /\ nth_error tokens (S n) = Some semi /\
    isOperator brace "}" = true /\ isOperator semi ";" = true.
Proof.
  induction tokens as [|tj rest IH]; intros j k; cbn [findStructEnd];
    [discriminate|].
  destruct rest as [|tj1 rest']; [discriminate|].
  destruct (isOperator tj "}" && isOperator tj1 ";") eqn:E.
  - intro H. injection H as <-. apply andb_true_iff in E as [E1 E2].
    exists 0, tj, tj1. rewrite Nat.add_0_r. repeat split; assumption.
  - intro H. apply IH in H as (n & brace & semi & -> & H1 & H2 & H3 & H4).
    exists (S n), brace, semi. repeat split; try assumption. lia.
Qed.

Lemma indexAdd_In (l : list nat) (i k : nat) :
  In k (indexAdd l i) -> In k l \/ k = i.
Proof.
  unfold indexAdd, push. destruct (indexHas l i); [now left|].
  intro H. apply in_app_or in H as [H|[H|[]]]; auto.
Qed.

Lemma nth_error_skipn {A} (l : list A) (m n : nat) :
  nth_error (skipn m l) n = nth_error l (m + n).
Proof.
  revert l. induction m as [|m IH]; intro l; [reflexivity|].
  destruct l as [|x l]; cbn [skipn Nat.add nth_error]; [now destruct n|].
  apply IH.
Qed.

Lemma markSemicolons_spec (Q : nat -> Prop) (all : list Token) :
  (forall i j structToken brace semi,
      nth_error all i = Some structToken -> isKeyword structToken "struct" = true ->
      i + 3 <= j ->
      nth_error all j = Some brace -> nth_error all (S j) = Some semi ->
      isOperator brace "}" = true -> isOperator semi ";" = true ->
      Q (S j)) ->
  forall tokens i skipIndices,
  (forall n, nth_error tokens n = nth_error all (i + n)) ->
  (forall k, In k skipIndices -> Q k) ->
  forall k, In k (markSemicolons i tokens skipIndices) -> Q k.
Proof.
  intros HQ. induction tokens as [|ti rest IH]; intros i skipIndices Hall Hskip k;
    cbn [markSemicolons]; [apply Hskip|].
  destruct rest as [|t1 [|t2 rest']]; try apply Hskip.
  apply IH.
  - intro n. pose proof (Hall (S n)) as Hn. cbn [nth_error] in Hn.
    rewrite Hn. f_equal. lia.
  - intros k' Hk'. destruct (isKeyword ti "struct") eqn:Es; [|now apply Hskip].
    destruct (findStructEnd (i + 3) (skipn 2 (t1 :: t2 :: rest'))) as [k0|] eqn:Ef;
      [|now apply Hskip].
    apply indexAdd_In in Hk' as [Hk' | ->]; [now apply Hskip|].
    apply findStructEnd_spec in Ef as (n & brace & semi & -> & H1 & H2 & H3 & H4).
    cbn [skipn] in H1, H2.
    apply (HQ i (i + 3 + n) ti brace semi); auto; try lia.
    + pose proof (Hall 0) as H0. rewrite Nat.add_0_r in H0. now rewrite <- H0.
    + pose proof (Hall (3 + n)) as Hn. cbn [Nat.add nth_error] in Hn.
      rewrite H1 in Hn. replace (i + 3 + n) with (i + S (S (S n))) by lia.
      now rewrite <- Hn.
    + pose proof (Hall (4 + n)) as Hn.
      change (nth_error (ti :: t1 :: t2 :: rest') (4 + n))
        with (nth_error rest' (S n)) in Hn.
      cbn [Nat.add] in Hn. rewrite H2 in Hn. replace (S (i + 3 + n)) with (i + S (S (S (S n)))) by lia.
      now rewrite <- Hn.
Qed.

(** X20.  The minifier leaves out no token but semicolons that stand
    directly after a closing brace, at least four tokens after a [struct]
    keyword: every index its first pass marks holds such a semicolon. *)
Theorem minify_drops_only_closing_semicolons (tokens : list Token) (k : nat) :
  In k (markSemicolons 0 tokens []) ->
  exists i j structToken brace semi,
    k = S j /\ i + 3 <= j /\
    nth_error tokens i = Some structToken /\
    isKeyword structToken "struct" = true /\
    nth_error tokens j = Some brace /\ isOperator brace "}" = true /\
    nth_error tokens k = Some semi /\ isOperator semi ";" = true.
Proof.
  apply (markSemicolons_spec
           (fun k => exists i j structToken brace semi,
              k = S j /\ i + 3 <= j /\
              nth_error tokens i = Some structToken /\
              isKeyword structToken "struct" = true /\
              nth_error tokens j = Some brace /\ isOperator brace "}" = true /\
              nth_error tokens k = Some semi /\ isOperator semi ";" = true)
           tokens); auto.
  - intros i j structToken brace semi H1 H2 H3 H4 H5 H6 H7.
    exists i, j, structToken, brace, semi. repeat split; assumption.
  - intros k' [].
Qed.

(** The tokens of [struct S { a : f32 } ;]: the semicolon at index 7 *)
Lemma minify_drops_only_closing_semicolons_witness :
  let tokens :=
    [ mkToken keyword "struct"; mkToken identifier "S"; mkToken operator "{";
      mkToken identifier "a"; mkToken operator ":"; mkToken keyword "f32";
      mkToken operator "}"; mkToken operator ";" ] in
  exists i j structToken brace semi,
    7 = S j /\ i + 3 <= j /\
    nth_error tokens i = Some structToken /\
    isKeyword structToken "struct" = true /\
    nth_error tokens j = Some brace /\ isOperator brace "}" = true /\
    nth_error tokens 7 = Some semi /\ isOperator semi ";" = true.
Proof.
  exact (minify_drops_only_closing_semicolons
           [ mkToken keyword "struct"; mkToken identifier "S"; mkToken operator "{";
             mkToken identifier "a"; mkToken operator ":"; mkToken keyword "f32";
             mkToken operator "}"; mkToken operator ";" ] 7 (or_introl eq_refl)).
Defined.

(** ** Splitting into lines and joining them *)

Lemma splitLines_plain (text : string) :
  forall current,
  forallChars notLineFeed text = true -> splitLines current text = [current ++ text].
Proof.
  induction text as [|c r IH]; intros current Ht; cbn [splitLines].
  - now rewrite append_nil_r.
  - cbn [forallChars] in Ht. apply andb_true_iff in Ht as [Hc Hr].
    unfold notLineFeed in Hc. apply negb_true_iff in Hc. rewrite Hc.
    rewrite (IH _ Hr). now rewrite append_assoc.
Qed.

Lemma splitLines_line (line rest : string) :
  forall current,
  forallChars notLineFeed line = true ->
  splitLines current (line ++ newline ++ rest)
  = (current ++ line) :: splitLines "" rest.
Proof.
  induction line as [|c r IH]; intros current Hl.
  - cbn [append newline str splitLines].
    replace (code (ascii_of_nat 10) =? 10)%N with true by reflexivity.
    now rewrite append_nil_r.
  - cbn [forallChars] in Hl. apply andb_true_iff in Hl as [Hc Hr].
    unfold notLineFeed in Hc. apply negb_true_iff in Hc.
    cbn [append splitLines]. rewrite Hc, (IH _ Hr). now rewrite append_assoc.
Qed.

Lemma splitLines_join (lines : list string) :
  lines <> [] -> Forall (fun line => forallChars notLineFeed line = true) lines ->
  splitLines "" (join newline lines) = lines.
Proof.
  induction lines as [|line rest IH]; [contradiction|]. intros _ Hall.
  inversion Hall as [|? ? Hline Hrest]; subst.
  destruct rest as [|line' rest'].
  - cbn [join]. now rewrite splitLines_plain.
  - change (join newline (line :: line' :: rest'))
      with (line ++ newline ++ join newline (line' :: rest')).
    rewrite (splitLines_line _ _ "" Hline). cbn [append].
    now rewrite IH.
Qed.

Lemma splitLines_noLineFeed (text : string) :
  forall current,
  forallChars notLineFeed current = true ->
  Forall (fun line => forallChars notLineFeed line = true)
    (splitLines current text).
Proof.
  induction text as [|c r IH]; intros current Hc; cbn [splitLines].
  - now constructor.
  - destruct (code c =? 10)%N eqn:E.
    + constructor; [exact Hc | now apply IH].
    + apply IH. rewrite forallChars_append, Hc. cbn [str forallChars].
      unfold notLineFeed. now rewrite E.
Qed.

Lemma splitLines_nonempty (text : string) :
  forall current, splitLines current text <> [].
Proof.
  induction text as [|c r IH]; intro current; cbn [splitLines]; [discriminate|].
  destruct (code c =? 10)%N; [discriminate | apply IH].
Qed.

Lemma join_splitLines (text : string) :
  forall current, join newline (splitLines current text) = current ++ text.
Proof.
  induction text as [|c r IH]; intro current; cbn [splitLines].
  - cbn [join]. now rewrite append_nil_r.
  - destruct (code c =? 10)%N eqn:E.
    + assert (Hc : c = ascii_of_nat 10).
      { apply N.eqb_eq in E. unfold code in E.
        rewrite <- (ascii_N_embedding c), E. reflexivity. }
      specialize (IH ""). cbn [append] in IH.
      pose proof (splitLines_nonempty r "") as Hne.
      destruct (splitLines "" r) as [|x l]; [contradiction|].
      change (join newline (current :: x :: l))
        with (current ++ newline ++ join newline (x :: l)).
      rewrite IH, Hc. reflexivity.
    + rewrite IH. now rewrite append_assoc.
Qed.

(** X21.  [removeBindingDirectives] takes the [#binding] and
    [#entrypoint] directive lines out of a text and nothing else: the
    lines of its result are the other lines of the text, in their order
    (one empty line when none is left), so that none of them is such a
    directive, a text without such lines comes back as it is, and
    applying the function twice is applying it once. *)
Theorem removeBindingDirectives_removes_exactly_the_directives (text : string) :
  let kept := filter notCustomDirective (splitLines "" text) in
  splitLines "" (removeBindingDirectives text)
  = (if (List.length kept =? 0)%nat then [""] else kept) /\
  forallb notCustomDirective (splitLines "" (removeBindingDirectives text)) = true /\
  removeBindingDirectives (removeBindingDirectives text)
  = removeBindingDirectives text /\
  (if forallb notCustomDirective (splitLines "" text)
   then removeBindingDirectives text else text) = text.
Proof.
  intro kept.
  assert (Hkept : Forall (fun line => forallChars notLineFeed line = true) kept).
  { apply Forall_forall. intros line Hin. apply filter_In in Hin as [Hin _].
    pose proof (splitLines_noLineFeed text "" eq_refl) as Hall.
    rewrite Forall_forall in Hall. now apply Hall. }
  assert (Hnot : forallb notCustomDirective kept = true).
  { apply forallb_forall. intros line Hin. now apply filter_In in Hin as [_ Hin]. }
  assert (Hsplit : splitLines "" (removeBindingDirectives text)
                   = if (List.length kept =? 0)%nat then [""] else kept).
  { unfold removeBindingDirectives. fold notCustomDirective. fold kept.
    destruct kept as [|line rest] eqn:Ek; [reflexivity|].
    now apply splitLines_join. }
  assert (Hall : forallb notCustomDirective
                   (splitLines "" (removeBindingDirectives text)) = true).
  { rewrite Hsplit. destruct (List.length kept =? 0)%nat; [reflexivity | exact Hnot]. }
  assert (Hid : forall l, forallb notCustomDirective l = true ->
                          filter notCustomDirective l = l).
  { induction l as [|x l IH]; cbn [forallb filter]; [reflexivity|].
    intro H. apply andb_true_iff in H as [Hx Hl]. now rewrite Hx, IH. }
  repeat split; [exact Hsplit | exact Hall | |].
  - unfold removeBindingDirectives at 1. fold notCustomDirective.
    rewrite (Hid _ Hall). apply join_splitLines.
  - destruct (forallb notCustomDirective (splitLines "" text)) eqn:E;
      [|reflexivity].
    unfold removeBindingDirectives. fold notCustomDirective.
    rewrite (Hid _ E). apply join_splitLines.
Qed.

(** The binding directive, with its comment, and the entry-point
    directive are taken out; a directive followed by other text stays. *)
Example removeBindingDirectives_sample :
  removeBindingDirectives
    (join newline ["#entrypoint " ++ quoted "main2";
                   "var a : f32;";
                   "  #binding " ++ quoted "data" ++ " // the buffer";
                   "var data : f32;";
                   "#binding " ++ quoted "x" ++ " var x : f32;"])
  = join newline ["var a : f32;"; "var data : f32;";
                  "#binding " ++ quoted "x" ++ " var x : f32;"].
Proof. vm_compute. reflexivity. Qed.

(** ** The binding comments *)

Lemma registerName_keeps (n name v : string) (st : JsMap.t string * nat) :
  JsMap.get (fst st) name = Some v ->
  JsMap.get (fst (registerName n st)) name = Some v.
Proof.
  destruct st as [m index]. cbn [fst]. intro H. unfold registerName, JsMap.has.
  destruct (JsMap.get m n) eqn:E; [exact H|]. cbn [nextName fst].
  destruct (String.eqb_spec n name) as [->|Hne]; [congruence|].
  now rewrite JsMap_get_set_other.
Qed.

Lemma registerIdentifier_keeps (n name v : string) (st : Collected) :
  JsMap.get (identifierMap st) name = Some v ->
  JsMap.get (identifierMap (registerIdentifier n st)) name = Some v
  /\ bindingMap (registerIdentifier n st) = bindingMap st.
Proof.
  intro H. unfold registerIdentifier.
  pose proof (registerName_keeps n name v (identifierMap st, nameIndex st) H) as H'.
  destruct (registerName n (identifierMap st, nameIndex st)) as [im index].
  split; [exact H' | reflexivity].
Qed.

Lemma registerIdentifier_bindingMap (n : string) (st : Collected) :
  bindingMap (registerIdentifier n st) = bindingMap st.
Proof.
  unfold registerIdentifier.
  now destruct (registerName n (identifierMap st, nameIndex st)).
Qed.

Lemma registerIdentifier_bindingsAgree (n : string) (st : Collected) :
  bindingsAgree st -> bindingsAgree (registerIdentifier n st).
Proof.
  intros H name newName Hb. rewrite registerIdentifier_bindingMap in Hb.
  now apply registerIdentifier_keeps, H.
Qed.

Lemma collectDirective_bindingsAgree (token : Token) (st : Collected) :
  bindingsAgree st -> bindingsAgree (collectDirective token st).
Proof.
  intro H. unfold collectDirective.
  destruct (directiveParts (value token)) as [[[[w sp] q] rest]|]; [|exact H].
  destruct (String.eqb w "binding").
  - pose proof (registerIdentifier_bindingsAgree q st H) as H'.
    destruct (JsMap.get (identifierMap (registerIdentifier q st)) q) as [n|] eqn:E;
      [|exact H'].
    intros name newName. cbn [bindingMap identifierMap].
    destruct (String.eqb_spec q name) as [->|Hne].
    + rewrite JsMap_get_set_same. now intros [= <-].
    + rewrite JsMap_get_set_other by exact Hne. apply H'.
  - destruct (String.eqb w "entrypoint"); exact H.
Qed.

(** X22.  The new name a [//#!binding] comment reports for a bound name
    is the name the identifier map holds for it, the one its occurrences
    in the code are replaced by: every entry of the binding map is an
    entry of the identifier map. *)
Theorem binding_comments_report_the_names_in_use
  (tokens : list Token) (index : nat) (name newName : string) :
  let collected := collectDeclaredIdentifiersAndEntryPoints tokens index in
  JsMap.get (bindingMap collected) name = Some newName ->
  JsMap.get (identifierMap collected) name = Some newName.
Proof.
  intro collected. revert name newName. fold (bindingsAgree collected).
  unfold collected, collectDeclaredIdentifiersAndEntryPoints.
  apply (collectLoop_invariant bindingsAgree) with (n := List.length tokens);
    [| |lia|].
  - intros n st. apply registerIdentifier_bindingsAgree.
  - intros token st. apply collectDirective_bindingsAgree.
  - intros n v H. discriminate H.
Qed.

(** The bound name [data], declared before the directive is met *)
Lemma binding_comments_report_the_names_in_use_witness :
  JsMap.get
    (identifierMap
       (collectDeclaredIdentifiersAndEntryPoints
          [ mkToken keyword "var"; mkToken identifier "other"; mkToken operator ";";
            mkToken keyword "var"; mkToken identifier "data"; mkToken operator ";";
            mkToken directive ("#binding " ++ quoted "data") ] 0))
    "data" = Some "_1".
Proof.
  exact (binding_comments_report_the_names_in_use
           [ mkToken keyword "var"; mkToken identifier "other"; mkToken operator ";";
             mkToken keyword "var"; mkToken identifier "data"; mkToken operator ";";
             mkToken directive ("#binding " ++ quoted "data") ] 0
           "data" "_1" eq_refl).
Defined.

(** ** Mapped names are replaced *)

Lemma nextValueIs_skipn (tokens : list Token) (n : nat) (v : string) :
  nextValueIs (skipn n tokens) v = valueIs (nth_error tokens n) v.
Proof.
  revert tokens. induction n as [|n IH]; intros [|t rest];
    cbn [skipn nth_error nextValueIs valueIs]; auto.
Qed.

Lemma replaceLoop_nth (im sm : JsMap.t string) :
  forall tokens prev inStruct i t,
  nth_error tokens i = Some t ->
  type t = identifier -> String.eqb (value t) "}" = false ->
  nth_error (replaceLoop prev tokens inStruct im sm)
    (outputIndexFrom inStruct tokens i)
  = Some (replaceIdentifier (previousAt prev tokens i) t (skipn (S i) tokens)
            (inStructFrom inStruct tokens i) im sm).
Proof.
  induction tokens as [|t0 rest IH]; intros prev inStruct i t Hnth Hty Hbrace.
  - destruct i; discriminate.
  - destruct i as [|i].
    + cbn in Hnth. inversion Hnth; subst t0. clear Hnth.
      cbn [replaceLoop outputIndexFrom previousAt skipn inStructFrom].
      rewrite (isKeyword_identifier _ _ Hty), Hty, Hbrace, andb_false_r.
      reflexivity.
    + cbn [nth_error] in Hnth.
      assert (Hprev : previousAt prev (t0 :: rest) (S i)
                      = previousAt (Some t0) rest i) by now destruct i.
      rewrite Hprev.
      change (skipn (S (S i)) (t0 :: rest)) with (skipn (S i) rest).
      cbn [replaceLoop outputIndexFrom inStructFrom]. unfold pushes, stepInStruct.
      destruct (isKeyword t0 "struct") eqn:Ek.
      { cbn [orb Nat.add nth_error]. now apply IH. }
      destruct (inStruct && String.eqb (value t0) "}") eqn:Eb.
      { cbn [orb Nat.add nth_error]. now apply IH. }
      destruct (TokenType_eqb (type t0) identifier) eqn:Ei.
      { assert (Hd : TokenType_eqb (type t0) directive = false)
          by (destruct (type t0); try discriminate; reflexivity).
        rewrite Hd. cbn [orb negb Nat.add nth_error]. now apply IH. }
      destruct (TokenType_eqb (type t0) directive) eqn:Ed.
      { assert (Hb : TokenType_eqb (type t0) builtin = false)
          by (destruct (type t0); try discriminate; reflexivity).
        rewrite Hb. cbn [orb negb Nat.add]. now apply IH. }
      rewrite orb_true_r. cbn [orb negb Nat.add nth_error]. now apply IH.
Qed.

(** X23.  An identifier token for whose text the map that applies at
    its position holds a name is pushed with that name: the member map
    applies to a member declaration (a name before a colon inside a
    struct) and, unless the swizzle set holds the text, to a member access
    (a name after a dot), the identifier map everywhere else.  So all
    occurrences of a declared name in the same kind of position get the
    same new name. *)
Theorem mapped_names_are_replaced
  (tokens : list Token) (identifierMap structMemberMap : JsMap.t string)
  (i : nat) (t : Token) (newName : string) :
  nth_error tokens i = Some t ->
  type t = identifier -> String.eqb (value t) "}" = false ->
  lookupAt tokens i t identifierMap structMemberMap = Some newName ->
  isEmpty newName = false ->
  nth_error (replaceIdentifiers tokens identifierMap structMemberMap)
    (outputIndex tokens i)
  = Some (mkToken identifier newName).
Proof.
  intros Hnth Hty Hbrace Hlook Hne. unfold replaceIdentifiers, outputIndex.
  rewrite (replaceLoop_nth _ _ tokens None false i t Hnth Hty Hbrace).
  f_equal. unfold lookupAt, memberDeclarationAt, inStructDefinitionAt in Hlook.
  unfold replaceIdentifier. rewrite nextValueIs_skipn, Hty.
  destruct (inStructFrom false tokens i && valueIs (nth_error tokens (S i)) ":").
  { rewrite Hlook. cbn [truthy]. now rewrite Hne. }
  assert (Hacc : prevValueIs (previousAt None tokens i) "." = memberAccessAt tokens i)
    by now destruct i.
  rewrite Hacc. destruct (memberAccessAt tokens i).
  - destruct (setHas swizzles (value t)); [discriminate|].
    unfold JsMap.has. now rewrite Hlook.
  - rewrite Hlook. cbn [truthy]. now rewrite Hne.
Qed.

(** In [struct S { size : f32 } ; let size = v . size ;] with the member
    [size] mapped to [_0] and the variable [size] to [_1], the access at
    index 13 gets the name of the member. *)
Lemma mapped_names_are_replaced_witness :
  nth_error
    (replaceIdentifiers
       [ mkToken keyword "struct"; mkToken identifier "S"; mkToken operator "{";
         mkToken identifier "size"; mkToken operator ":"; mkToken keyword "f32";
         mkToken operator "}"; mkToken operator ";";
         mkToken keyword "let"; mkToken identifier "size"; mkToken operator "=";
         mkToken identifier "v"; mkToken operator "."; mkToken identifier "size";
         mkToken operator ";" ]
       [("size", "_1")] [("size", "_0")])
    13
  = Some (mkToken identifier "_0").
Proof.
  refine (mapped_names_are_replaced
            [ mkToken keyword "struct"; mkToken identifier "S"; mkToken operator "{";
              mkToken identifier "size"; mkToken operator ":"; mkToken keyword "f32";
              mkToken operator "}"; mkToken operator ";";
              mkToken keyword "let"; mkToken identifier "size"; mkToken operator "=";
              mkToken identifier "v"; mkToken operator "."; mkToken identifier "size";
              mkToken operator ";" ]
            [("size", "_1")] [("size", "_0")] 13 (mkToken identifier "size") "_0"
            eq_refl eq_refl eq_refl _ eq_refl).
  vm_compute. reflexivity.
Defined.

(** ** The two branches of a conditional *)

Lemma isPlainLine_directiveOf (line : string) :
  isPlainLine line = true -> directiveOf line = None.
Proof. unfold isPlainLine. now destruct (directiveOf line). Qed.

Lemma processLines_plain_excluded (js_eval : Eval) (lines : list string) (st : State) :
  forallb isPlainLine lines = true ->
  isCurrentlyIncluding (conditionalStack st) = false ->
  processLines js_eval lines st = Return st.
Proof.
  intros Hplain Hex. induction lines as [|line rest IH]; [reflexivity|].
  cbn [forallb] in Hplain. apply andb_true_iff in Hplain as [Hl Hrest].
  cbn [processLines].
  rewrite (processLine_plain _ _ _ (isPlainLine_directiveOf _ Hl)), Hex.
  cbn [bind]. now apply IH.
Qed.

Lemma processLines_plain_including (js_eval : Eval) (lines : list string) :
  forall st out,
  forallb isPlainLine lines = true ->
  isCurrentlyIncluding (conditionalStack st) = true ->
  expandAll (defines st) lines = Return out ->
  processLines js_eval lines st
  = Return (mkState (conditionalStack st) (defines st) (resultLines st ++ out)%list).
Proof.
  induction lines as [|line rest IH]; intros st out Hplain Hincl;
    cbn [expandAll processLines].
  - intro H. injection H as <-. rewrite app_nil_r. now destruct st.
  - cbn [forallb] in Hplain. apply andb_true_iff in Hplain as [Hl Hrest].
    rewrite (processLine_plain _ _ _ (isPlainLine_directiveOf _ Hl)), Hincl.
    destruct (expandMacros line (defines st)) as [expanded|]; cbn [bind];
      [|discriminate].
    destruct (expandAll (defines st) rest) as [expandedRest|] eqn:E; cbn [bind];
      [|discriminate].
    intro H. injection H as <-.
    rewrite (IH (mkState (conditionalStack st) (defines st)
                   (push (resultLines st) expanded))
               expandedRest Hrest Hincl E).
    cbn [conditionalStack defines resultLines]. unfold push.
    now rewrite <- app_assoc.
Qed.

(** X24.  Of [#if cond], lines, [#else], lines, [#endif] exactly one
    group of lines reaches the output: the first when the condition is
    true, the second when it is false.  The lines of the other group are
    not expanded, so an error in them is not raised. *)
Theorem if_else_takes_exactly_one_branch
  (js_eval : Eval) (table : Defines) (lineIf lineElse lineEndif cond : string)
  (thenLines elseLines out : list string) (result : bool) :
  directiveOf lineIf = Some (If cond) ->
  directiveOf lineElse = Some Else ->
  directiveOf lineEndif = Some Endif ->
  forallb isPlainLine thenLines = true ->
  forallb isPlainLine elseLines = true ->
  evaluateExpression js_eval cond table = Return result ->
  expandAll table (if result then thenLines else elseLines) = Return out ->
  processConditionals js_eval
    (lineIf :: thenLines ++ lineElse :: elseLines ++ [lineEndif])%list table
  = Return out.
Proof.
  intros Hif Helse Hendif Hthen Helse' Hcond Hout.
  unfold processConditionals.
  step processLine_if Hif. state_simpl. rewrite Hcond. state_simpl.
  rewrite processLines_app.
  destruct result.
  - rewrite (processLines_plain_including js_eval thenLines _ out Hthen);
      [|reflexivity | exact Hout].
    state_simpl. step processLine_else Helse. state_simpl.
    rewrite processLines_app.
    rewrite (processLines_plain_excluded js_eval elseLines _ Helse');
      [|reflexivity].
    state_simpl. step processLine_endif Hendif. reflexivity.
  - rewrite (processLines_plain_excluded js_eval thenLines _ Hthen);
      [|reflexivity].
    state_simpl. step processLine_else Helse. state_simpl.
    rewrite processLines_app.
    rewrite (processLines_plain_including js_eval elseLines _ out Helse');
      [|reflexivity | exact Hout].
    state_simpl. step processLine_endif Hendif. reflexivity.
Qed.

(** With [#if 0], the first group, whose invocation lacks an argument,
    is passed over. *)
Lemma if_else_takes_exactly_one_branch_witness :
  processConditionals evalUnused
    ["#if 0"; "let a = ADD(1);"; "#else"; "let b = ADD(1, 2);"; "let c = 3;";
     "#endif"]
    [("ADD", mkMacro "a + b" (Some ["a"; "b"]))]
  = Return ["let b = 1 + 2;"; "let c = 3;"].
Proof.
  exact (if_else_takes_exactly_one_branch evalUnused
           [("ADD", mkMacro "a + b" (Some ["a"; "b"]))]
           "#if 0" "#else" "#endif" "0"
           ["let a = ADD(1);"] ["let b = ADD(1, 2);"; "let c = 3;"]
           ["let b = 1 + 2;"; "let c = 3;"] false
           eq_refl eq_refl eq_refl eq_refl eq_refl eq_refl eq_refl).
Defined.

(** ** Include guards *)

Lemma processLine_ifndef (js_eval : Eval) (line name : string) (st : State) :
  directiveOf line = Some (Ifndef name) ->
  processLine js_eval line st
  = Return (pushState (if isCurrentlyIncluding (conditionalStack st)
                       then negb (JsMap.has (defines st) name) else false) st).
Proof.
  intro H. destruct (directiveOf_Some _ _ H) as (dl & H1 & H2).
  unfold processLine, processDirective. now rewrite H1, H2.
Qed.

Lemma classify_define (directiveLine rest : string) :
  keywordMatch "#define" directiveLine = Some rest ->
  classify directiveLine = Define directiveLine.
Proof. intro H. unfold classify. now rewrite H. Qed.

Lemma processLine_define_excluded (js_eval : Eval) (line directiveLine rest : string)
  (st : State) :
  directiveLineOf line = Some directiveLine ->
  keywordMatch "#define" directiveLine = Some rest ->
  isCurrentlyIncluding (conditionalStack st) = false ->
  processLine js_eval line st = Return st.
Proof.
  intros Hline Hkw Hex. unfold processLine, processDirective.
  now rewrite Hline, (classify_define _ _ Hkw), Hex.
Qed.

(** A [#define] line with a name and nothing else defines the name; the
    value is cut out of the directive line behind the first occurrence of
    the name in it. *)
Lemma processLine_define_name (js_eval : Eval) (line sp name : string) (st : State) :
  directiveLineOf line = Some ("#define" ++ sp ++ name) ->
  isEmpty sp = false -> forallChars isSpace sp = true ->
  identifierRegex name = Some (name, "") ->
  isCurrentlyIncluding (conditionalStack st) = true ->
  processLine js_eval line st
  = (expandedValue <-
       (if isEmpty (objectLikeValue ("#define" ++ sp ++ name) name) then Return ""
        else expandMacros (objectLikeValue ("#define" ++ sp ++ name) name)
               (defines st)) ;;
     Return (mkState (conditionalStack st)
               (JsMap.set (defines st) name (mkMacro expandedValue None))
               (resultLines st))).
Proof.
  intros Hline Hsp Hspaces Hname Hincl.
  pose proof (keywordMatch_here "#define" sp name Hsp Hspaces
                (identifier_not_space _ Hname)) as Hkw.
  unfold processLine, processDirective.
  rewrite Hline, (classify_define _ _ Hkw), Hincl.
  unfold processDefine, functionLikeRegex, macroNameMatch. rewrite Hkw, Hname.
  cbn [trimStart span snd stripPrefix].
  destruct (isEmpty (objectLikeValue ("#define" ++ sp ++ name) name));
    [reflexivity|].
  destruct (expandMacros _ (defines st)); reflexivity.
Qed.

(** When the name does not occur in the line before its own position,
    nothing follows it and the value is empty. *)
Lemma objectLikeValue_flag (sp name : string) :
  indexOf ("#define" ++ sp ++ name) name = Some (String.length ("#define" ++ sp)) ->
  objectLikeValue ("#define" ++ sp ++ name) name = "".
Proof.
  intro Hindex. unfold objectLikeValue. rewrite Hindex.
  assert (Hdrop : drop (String.length ("#define" ++ sp) + String.length name)
                    ("#define" ++ sp ++ name) = "").
  { rewrite <- length_append.
    replace ("#define" ++ sp ++ name) with ((("#define" ++ sp) ++ name) ++ "")
      by (rewrite append_nil_r; now rewrite !append_assoc).
    apply drop_length_append. }
  now rewrite Hdrop.
Qed.

(** X25.  A block of lines between [#ifndef name], [#define name] and
    [#endif] that is met twice reaches the output once: the first time
    the name is not defined and the block is expanded with the name
    defined, the second time the whole block is passed over.  The value
    the name is defined with is the text the code cuts out of the
    [#define] line behind the first occurrence of the name, expanded; it
    is the empty text whenever the name does not occur in the line before
    its own position (it does for names such as [n], [e] or [fine], which
    are part of the word [#define]). *)
Theorem include_guard_admits_its_block_once
  (js_eval : Eval) (table : Defines)
  (lineIfndef lineDefine lineEndif sp name v : string) (block out : list string) :
  directiveOf lineIfndef = Some (Ifndef name) ->
  directiveLineOf lineDefine = Some ("#define" ++ sp ++ name) ->
  isEmpty sp = false -> forallChars isSpace sp = true ->
  identifierRegex name = Some (name, "") ->
  directiveOf lineEndif = Some Endif ->
  forallb isPlainLine block = true ->
  JsMap.has table name = false ->
  (if isEmpty (objectLikeValue ("#define" ++ sp ++ name) name) then Return ""
   else expandMacros (objectLikeValue ("#define" ++ sp ++ name) name) table)
  = Return v ->
  expandAll (JsMap.set table name (mkMacro v None)) block = Return out ->
  processConditionals js_eval
    ((lineIfndef :: lineDefine :: block ++ [lineEndif])
     ++ lineIfndef :: lineDefine :: block ++ [lineEndif])%list table
  = Return out
  /\
  (indexOf ("#define" ++ sp ++ name) name = Some (String.length ("#define" ++ sp)) ->
   v = "").
Proof.
  intros Hifndef Hdefine Hsp Hspaces Hname Hendif Hblock Hfresh Hvalue Hout.
  split.
  2:{ intro Hindex. rewrite (objectLikeValue_flag sp name Hindex) in Hvalue.
      cbn [isEmpty] in Hvalue. now injection Hvalue as <-. }
  pose proof (keywordMatch_here "#define" sp name Hsp Hspaces
                (identifier_not_space _ Hname)) as Hkw.
  assert (Hhas : JsMap.has (JsMap.set table name (mkMacro v None)) name = true).
  { unfold JsMap.has. now rewrite JsMap_get_set_same. }
  unfold processConditionals. rewrite processLines_app.
  cbn [processLines].
  rewrite (processLine_ifndef _ _ _ _ Hifndef). state_simpl. rewrite Hfresh.
  state_simpl.
  rewrite (processLine_define_name js_eval lineDefine sp name _ Hdefine Hsp Hspaces
             Hname); [|reflexivity].
  state_simpl. rewrite Hvalue. state_simpl. rewrite processLines_app.
  rewrite (processLines_plain_including js_eval block _ out Hblock);
    [|reflexivity | exact Hout].
  state_simpl. step processLine_endif Hendif. state_simpl.
  cbn [processLines].
  rewrite (processLine_ifndef _ _ _ _ Hifndef). state_simpl. rewrite Hhas.
  state_simpl.
  rewrite (processLine_define_excluded js_eval lineDefine _ _ _ Hdefine Hkw);
    [|reflexivity].
  state_simpl. rewrite processLines_app.
  rewrite (processLines_plain_excluded js_eval block _ Hblock); [|reflexivity].
  state_simpl. step processLine_endif Hendif. reflexivity.
Qed.

(** A guarded constant, included twice; with the guard name [e] the name
    is defined as [fine e], and the block is still admitted once. *)
Lemma include_guard_admits_its_block_once_witness :
  processConditionals evalUnused
    ["#ifndef COMMON_WGSL"; "#define COMMON_WGSL"; "const PI = 3.14;"; "#endif";
     "#ifndef COMMON_WGSL"; "#define COMMON_WGSL"; "const PI = 3.14;"; "#endif"]
    []
  = Return ["const PI = 3.14;"]
  /\
  processConditionals evalUnused
    ["#ifndef e"; "#define e"; "const PI = 3.14;"; "#endif";
     "#ifndef e"; "#define e"; "const PI = 3.14;"; "#endif"]
    []
  = Return ["const PI = 3.14;"].
Proof.
  split.
  - exact (proj1 (include_guard_admits_its_block_once evalUnused []
                    "#ifndef COMMON_WGSL" "#define COMMON_WGSL" "#endif" " "
                    "COMMON_WGSL" "" ["const PI = 3.14;"] ["const PI = 3.14;"]
                    eq_refl eq_refl eq_refl eq_refl eq_refl eq_refl eq_refl eq_refl
                    eq_refl eq_refl)).
  - exact (proj1 (include_guard_admits_its_block_once evalUnused []
                    "#ifndef e" "#define e" "#endif" " "
                    "e" "fine e" ["const PI = 3.14;"] ["const PI = 3.14;"]
                    eq_refl eq_refl eq_refl eq_refl eq_refl eq_refl eq_refl eq_refl
                    eq_refl eq_refl)).
Defined.

(** ** The prettifier changes white space only *)

Lemma squeeze_append (a b : string) : squeeze (a ++ b) = squeeze a ++ squeeze b.
Proof.
  induction a as [|c a IH]; cbn [append squeeze]; [reflexivity|].
  destruct (isSpace c); cbn [append]; now rewrite IH.
Qed.

Lemma squeeze_spaces (s : string) : forallChars isSpace s = true -> squeeze s = "".
Proof.
  induction s as [|c s IH]; cbn [forallChars squeeze]; [reflexivity|].
  intro H. apply andb_true_iff in H as [-> H]. now apply IH.
Qed.

Lemma squeeze_trimStart (s : string) : squeeze (trimStart s) = squeeze s.
Proof.
  unfold trimStart. destruct (span isSpace s) as [a b] eqn:E. cbn [snd].
  rewrite (span_app _ _ _ _ E), squeeze_append.
  now rewrite (squeeze_spaces a (span_forall _ _ _ _ E)).
Qed.

Lemma reverse_append (a b : string) : reverse (a ++ b) = reverse b ++ reverse a.
Proof.
  induction a as [|c a IH]; cbn [append reverse].
  - now rewrite append_nil_r.
  - now rewrite IH, append_assoc.
Qed.

Lemma reverse_involutive (s : string) : reverse (reverse s) = s.
Proof.
  induction s as [|c s IH]; cbn [reverse]; [reflexivity|].
  rewrite reverse_append, IH. reflexivity.
Qed.

Lemma squeeze_reverse (s : string) : squeeze (reverse s) = reverse (squeeze s).
Proof.
  induction s as [|c s IH]; cbn [reverse squeeze]; [reflexivity|].
  rewrite squeeze_append, IH. unfold str. cbn [squeeze].
  destruct (isSpace c); cbn [reverse]; [now rewrite append_nil_r | reflexivity].
Qed.

Lemma squeeze_trim (s : string) : squeeze (trim s) = squeeze s.
Proof.
  unfold trim, trimEnd.
  now rewrite squeeze_reverse, squeeze_trimStart, squeeze_reverse,
    reverse_involutive, squeeze_trimStart.
Qed.

Lemma squeeze_indent (level : nat) : squeeze (Prettify.indent level) = "".
Proof. induction level as [|level IH]; [reflexivity | exact IH]. Qed.

Lemma squeeze_push (lines : list string) (x : string) :
  squeeze (join newline (push lines x))
  = squeeze (join newline lines) ++ squeeze x.
Proof.
  unfold push. induction lines as [|a lines IH]; [reflexivity|].
  destruct lines as [|b lines].
  - cbn [app join]. now rewrite !squeeze_append.
  - change (squeeze (a ++ newline ++ join newline ((b :: lines) ++ [x])%list)
            = squeeze (a ++ newline ++ join newline (b :: lines)) ++ squeeze x).
    now rewrite !squeeze_append, IH, !append_assoc.
Qed.

Lemma squeeze_pushed_line (lines : list string) (level : nat) (text : string) :
  squeeze (join newline (push lines (Prettify.indent level ++ trim text)))
  = squeeze (join newline lines) ++ squeeze text.
Proof. now rewrite squeeze_push, squeeze_append, squeeze_indent, squeeze_trim. Qed.

Lemma spacing_blank (before : list Token) (token nextToken : Token) (inFor : bool) :
  squeeze (Prettify.spacing before token nextToken inFor) = "".
Proof.
  unfold Prettify.spacing. cbv zeta.
  repeat match goal with
         | |- context [if ?c then _ else _] => destruct c
         end; reflexivity.
Qed.

Lemma spacing_before_semicolon (before : list Token) (token nextToken : Token)
  (inFor : bool) :
  value token = "}" -> value nextToken = ";" ->
  Prettify.spacing before token nextToken inFor = "".
Proof.
  intros Hv Hn. unfold Prettify.spacing. cbv zeta. rewrite Hv, Hn. reflexivity.
Qed.

Lemma endsWithBrace_brace (a : string) : Prettify.endsWithBrace (a ++ "}") = true.
Proof.
  induction a as [|c a IH]; [reflexivity|].
  cbn [append Prettify.endsWithBrace].
  destruct (a ++ "}") eqn:E; [destruct a; discriminate | exact IH].
Qed.

Lemma trimStart_last (l : string) (c : ascii) :
  isSpace c = false -> exists w, trimStart (l ++ str c) = w ++ str c.
Proof.
  intro Hc. unfold trimStart.
  induction l as [|d l IH]; cbn [append str span].
  - rewrite Hc. now exists "".
  - destruct (isSpace d).
    + destruct IH as [w Hw]. exists w.
      destruct (span isSpace (l ++ str c)) as [a b]. exact Hw.
    + now exists (String d l).
Qed.

Lemma trim_last (l : string) (c : ascii) :
  isSpace c = false -> exists w, trim (l ++ str c) = w ++ str c.
Proof.
  intro Hc. destruct (trimStart_last l c Hc) as [w Hw]. exists w.
  unfold trim, trimEnd. rewrite Hw, reverse_append.
  change (reverse (str c) ++ reverse w) with (String c (reverse w)).
  unfold trimStart at 1. cbn [span]. rewrite Hc. cbn [snd reverse].
  now rewrite reverse_involutive.
Qed.

(** One iteration at a token that is no comment adds the text of the
    token, and that of the semicolon it skips, to the lines and the
    pending line. *)
Lemma step_text (before : list Token) (token : Token) (rest : list Token)
  (st st' : Prettify.State) (skip : bool) :
  notComment token = true ->
  Prettify.step before token rest st = (st', skip) ->
  squeeze (join newline (Prettify.formattedLines st'))
    ++ squeeze (Prettify.line st')
  = (squeeze (join newline (Prettify.formattedLines st))
       ++ squeeze (Prettify.line st))
      ++ squeeze (value token) ++ (if skip then ";" else "")
  /\ (if skip then nextValueIs rest ";" else true) = true.
Proof.
  intros Hc. unfold notComment in Hc. apply negb_true_iff in Hc.
  unfold Prettify.step. rewrite Hc.
  set (inFor := if isKeyword token "for" then true
                else if Prettify.inForLoop st && String.eqb (value token) ")"
                     then false else Prettify.inForLoop st).
  set (gap := match rest with
              | nextToken :: _ => Prettify.spacing before token nextToken inFor
              | [] => ""
              end).
  assert (Hgap : squeeze gap = "").
  { subst gap. destruct rest; [reflexivity | apply spacing_blank]. }
  assert (Hline : squeeze (Prettify.line st ++ value token ++ gap)
                  = squeeze (Prettify.line st) ++ squeeze (value token)).
  { now rewrite !squeeze_append, Hgap, append_nil_r. }
  destruct ((String.eqb (value token) ";" && negb inFor)
            || (Prettify.inStructDefinition st && String.eqb (value token) ",")).
  { intro H. injection H as <- <-.
    cbn [Prettify.formattedLines Prettify.line squeeze].
    rewrite squeeze_pushed_line, Hline, !append_nil_r, append_assoc. auto. }
  destruct (String.eqb (value token) "{").
  { intro H. injection H as <- <-.
    cbn [Prettify.formattedLines Prettify.line squeeze].
    rewrite squeeze_pushed_line, Hline, !append_nil_r, append_assoc. auto. }
  destruct (String.eqb (value token) "}") eqn:Ev.
  - apply String.eqb_eq in Ev.
    destruct (nextValueIs rest ";") eqn:En; intro H; injection H as <- <-;
      cbn [Prettify.formattedLines Prettify.line squeeze].
    + split; [|reflexivity].
      destruct rest as [|nextToken rest']; [discriminate|].
      cbn [nextValueIs] in En. apply String.eqb_eq in En.
      subst gap. rewrite (spacing_before_semicolon _ _ _ _ Ev En), Ev.
      destruct (trim_last (Prettify.line st) "}" eq_refl) as [w Hw].
      change ("}" ++ "") with (str "}").
      assert (Hs : squeeze (w ++ str "}") = squeeze (Prettify.line st) ++ "}").
      { now rewrite <- Hw, squeeze_trim, squeeze_append. }
      unfold Prettify.closeDefinition. rewrite Hw, <- append_assoc.
      rewrite endsWithBrace_brace, squeeze_push, (squeeze_append _ ";").
      rewrite (append_assoc (Prettify.indent _) w (str "}")).
      rewrite (squeeze_append (Prettify.indent _)).
      rewrite squeeze_indent, Hs. cbn [append].
      change (squeeze ";") with ";". change (squeeze "}") with "}".
      now rewrite !append_nil_r, !append_assoc.
    + rewrite squeeze_pushed_line, Hline, !append_nil_r, append_assoc. auto.
  - intro H. injection H as <- <-.
    cbn [Prettify.formattedLines Prettify.line].
    rewrite Hline, !append_nil_r, !append_assoc. auto.
Qed.

Lemma loop_text :
  forall rest before skip st,
  forallb notComment rest = true ->
  let st' := Prettify.loop before rest skip st in
  squeeze (join newline (Prettify.formattedLines st'))
    ++ squeeze (Prettify.line st')
  = (squeeze (join newline (Prettify.formattedLines st))
       ++ squeeze (Prettify.line st))
      ++ squeeze (valuesOf (if skip then tl rest else rest)).
Proof.
  induction rest as [|token rest IH]; intros before skip st Hall; cbn zeta.
  - cbn [Prettify.loop]. destruct skip; cbn [tl valuesOf squeeze];
      now rewrite append_nil_r.
  - cbn [forallb] in Hall. apply andb_true_iff in Hall as [Ht Hall].
    cbn [Prettify.loop]. destruct skip.
    + exact (IH (token :: before) false st Hall).
    + destruct (Prettify.step before token rest st) as [st1 skip1] eqn:Es.
      destruct (step_text _ _ _ _ _ _ Ht Es) as [H1 H2].
      pose proof (IH (token :: before) skip1 st1 Hall) as H. cbn zeta in H.
      rewrite H, H1. cbn [valuesOf]. rewrite squeeze_append, !append_assoc.
      do 3 f_equal. destruct skip1; [|reflexivity].
      destruct rest as [|nextToken rest']; [discriminate|].
      cbn [nextValueIs] in H2. apply String.eqb_eq in H2.
      cbn [tl valuesOf]. now rewrite H2.
Qed.

Lemma prettifyTokens_text (tokens : list Token) :
  forallb notComment tokens = true ->
  squeeze (Prettify.prettifyTokens tokens) = squeeze (valuesOf tokens).
Proof.
  intro Hall. unfold Prettify.prettifyTokens. cbv zeta.
  pose proof (loop_text tokens [] false (Prettify.mkState [] 0 false false "") Hall)
    as H. cbv zeta in H. cbn [Prettify.formattedLines Prettify.line join squeeze
                              append] in H.
  rewrite <- H.
  set (st := Prettify.loop [] tokens false (Prettify.mkState [] 0 false false "")).
  destruct (isEmpty (trim (Prettify.line st))) eqn:E.
  - apply isEmpty_true in E. rewrite <- (squeeze_trim (Prettify.line st)), E.
    now rewrite append_nil_r.
  - apply squeeze_pushed_line.
Qed.

(** The tokens of tokenization/tokenize-wgsl.ts hold all the text of the
    input but its white space. *)
Lemma tokenizationLoop_text (kw bi : string -> bool) :
  forall fuel slice tokens result,
  Tokenization.tokenizeLoop kw bi fuel slice tokens = Some (Return result) ->
  squeeze (valuesOf result) = squeeze (valuesOf tokens) ++ squeeze slice.
Proof.
  assert (Hvalues : forall tokens t,
            squeeze (valuesOf (push tokens t))
            = squeeze (valuesOf tokens) ++ squeeze (value t)).
  { intros tokens t. unfold push.
    induction tokens as [|a tokens IH]; cbn [app valuesOf].
    - now rewrite append_nil_r.
    - now rewrite !squeeze_append, IH, append_assoc. }
  induction fuel as [|fuel IH]; intros slice tokens result; [discriminate|].
  cbn [Tokenization.tokenizeLoop].
  destruct slice as [|c0 s0].
  { intro H. injection H as <-. cbn [squeeze]. now rewrite append_nil_r. }
  remember (String c0 s0) as slice eqn:Eslice.
  assert (Hpush : forall re ty m rest,
            re slice = Some (m, rest) -> consumes re ->
            Tokenization.tokenizeLoop kw bi fuel rest (push tokens (mkToken ty m))
              = Some (Return result) ->
            squeeze (valuesOf result) = squeeze (valuesOf tokens) ++ squeeze slice).
  { intros re ty m rest Hre Hcons H.
    rewrite (IH _ _ _ H), Hvalues, (proj1 (Hcons _ _ _ Hre)).
    cbn [value]. now rewrite squeeze_append, append_assoc. }
  destruct (whitespaceRegex slice) as [[m rest]|] eqn:E0.
  { intro H. rewrite (IH _ _ _ H).
    rewrite (proj1 (whitespaceRegex_consumes _ _ _ E0)), squeeze_append.
    unfold whitespaceRegex in E0.
    destruct (span isSpace slice) as [a b] eqn:Es.
    destruct (isEmpty a); [discriminate|]. injection E0 as <- <-.
    now rewrite (squeeze_spaces a (span_forall _ _ _ _ Es)). }
  destruct (commentRegex slice) as [[m rest]|] eqn:E1.
  { exact (Hpush _ _ _ _ E1 commentRegex_consumes). }
  destruct (directiveRegex slice) as [[m rest]|] eqn:E2.
  { exact (Hpush _ _ _ _ E2 directiveRegex_consumes). }
  destruct (attributeRegex slice) as [[m rest]|] eqn:E3.
  { exact (Hpush _ _ _ _ E3 attributeRegex_consumes). }
  destruct (stringRegex slice) as [[m rest]|] eqn:E4.
  { exact (Hpush _ _ _ _ E4 stringRegex_consumes). }
  destruct (numberRegex slice) as [[m rest]|] eqn:E5.
  { exact (Hpush _ _ _ _ E5 numberRegex_consumes). }
  destruct (identifierRegex slice) as [[m rest]|] eqn:E6.
  { exact (Hpush _ _ _ _ E6 identifierRegex_consumes). }
  destruct (operatorRegex slice) as [[m rest]|] eqn:E7; [|discriminate].
  exact (Hpush _ _ _ _ E7 operatorRegex_consumes).
Qed.

(** X26.  Prettifying a text without comments changes white space only:
    when the tokenizer returns tokens none of which is a comment,
    [prettify] returns a text that, once its white space is removed, is
    the input with its white space removed.  Indentation, spaces and line
    breaks are all that it adds, and white space is all that it drops. *)
Theorem prettify_changes_white_space_only (kw bi : string -> bool)
  (code : string) (tokens : list Token) :
  Tokenization.tokenizeWgsl kw bi code = Some (Return tokens) ->
  forallb notComment tokens = true ->
  exists out,
    Prettify.prettify kw bi code = Some (Return out) /\
    squeeze out = squeeze code.
Proof.
  intros Ht Hall. exists (Prettify.prettifyTokens tokens).
  unfold Prettify.prettify. rewrite Ht. split; [reflexivity|].
  rewrite (prettifyTokens_text tokens Hall).
  unfold Tokenization.tokenizeWgsl in Ht.
  now rewrite (tokenizationLoop_text kw bi _ _ _ _ Ht).
Qed.

(** A structure and a function written on one line *)
Lemma prettify_changes_white_space_only_witness :
  let kw := setHas wgslKeywords in
  let bi := fun _ : string => false in
  let code := "struct S{a:i32,b:u32};fn f(v:S)->i32{for(var i=0;i<4;i++){g(i);}return v.a;}" in
  exists out,
    Prettify.prettify kw bi code = Some (Return out) /\
    squeeze out = squeeze code.
Proof.
  cbv zeta.
  eapply prettify_changes_white_space_only;
    [vm_compute; reflexivity | vm_compute; reflexivity].
Defined.

(** A comment inside a statement is pushed as a line of its own before the
    line that holds the statement, so with comments the text is not kept in
    order. *)
Example prettify_moves_a_comment :
  Prettify.prettify (setHas wgslKeywords) (fun _ => false) "f(a /* c */, b);"
  = Some (Return ("/* c */" ++ newline ++ "f(a , b);")).
Proof. vm_compute. reflexivity. Qed.

(** ** The tokenizer covers its input or reports *)

(** One round of the loop takes the match of the grammars. *)
Lemma tokenizeLoop_step (kw bi : string -> bool) (fuel : nat) (c0 : ascii)
  (s0 : string) (index : nat) (tokens : list Token) :
  tokenizeLoop kw bi (S fuel) (String c0 s0) index tokens
  = match grammarMatch kw bi (String c0 s0) with
    | Some (seg, rest) =>
        tokenizeLoop kw bi fuel rest (index + String.length (segmentText seg))
          (tokens ++ emittedTokens [seg])%list
    | None => Some (Throw (unexpectedCharacter index c0))
    end.
Proof.
  cbn [tokenizeLoop]. unfold grammarMatch.
  remember (String c0 s0) as slice eqn:Eslice.
  repeat match goal with
         | |- context [match ?re slice with Some _ => _ | None => _ end] =>
             destruct (re slice) as [[? ?]|]
         end;
    cbn [emittedTokens segmentText value]; rewrite ?app_nil_r; reflexivity.
Qed.

Lemma grammarMatch_spec (kw bi : string -> bool) (slice : string) (seg : Segment)
  (rest : string) :
  grammarMatch kw bi slice = Some (seg, rest) ->
  slice = segmentText seg ++ rest /\ isEmpty (segmentText seg) = false /\
  segmentLexeme kw bi seg.
Proof.
  unfold grammarMatch.
  destruct (whitespaceRegex slice) as [[m r]|] eqn:E1.
  { intro H. injection H as <- <-.
    destruct (whitespaceRegex_consumes _ _ _ E1). repeat split; auto.
    left. exact (whitespaceRegex_full _ _ _ E1). }
  destruct (commentRegex slice) as [[m r]|] eqn:E2.
  { intro H. injection H as <- <-.
    destruct (commentRegex_consumes _ _ _ E2). repeat split; auto.
    right. exact (commentRegex_full _ _ _ E2). }
  destruct (directiveRegex slice) as [[m r]|] eqn:E3.
  { intro H. injection H as <- <-.
    destruct (directiveRegex_consumes _ _ _ E3). repeat split; auto.
    exact (directiveRegex_full _ _ _ E3). }
  destruct (stringRegex slice) as [[m r]|] eqn:E4.
  { intro H. injection H as <- <-.
    destruct (stringRegex_consumes _ _ _ E4). repeat split; auto.
    exact (stringRegex_full _ _ _ E4). }
  destruct (numberRegex slice) as [[m r]|] eqn:E5.
  { intro H. injection H as <- <-.
    destruct (numberRegex_consumes _ _ _ E5). repeat split; auto.
    exact (numberRegex_full _ _ _ E5). }
  destruct (attributeRegex slice) as [[m r]|] eqn:E6.
  { intro H. injection H as <- <-.
    destruct (attributeRegex_consumes _ _ _ E6). repeat split; auto.
    exact (attributeRegex_full _ _ _ E6). }
  destruct (identifierRegex slice) as [[m r]|] eqn:E7.
  { intro H. injection H as <- <-.
    destruct (identifierRegex_consumes _ _ _ E7). repeat split; auto.
    exact (lexeme_identifier kw bi _ _ _ E7). }
  destruct (operatorRegex slice) as [[m r]|] eqn:E8; [|discriminate].
  intro H. injection H as <- <-.
  destruct (operatorRegex_consumes _ _ _ E8). repeat split; auto.
  exact (proj2 (firstPrefix_app _ _ _ _ E8)).
Qed.

Lemma grammarMatch_None (kw bi : string -> bool) (slice : string) :
  grammarMatch kw bi slice = None <-> noGrammarMatches slice.
Proof.
  unfold grammarMatch, noGrammarMatches. split.
  - destruct (whitespaceRegex slice) as [[? ?]|]; [discriminate|].
    destruct (commentRegex slice) as [[? ?]|]; [discriminate|].
    destruct (directiveRegex slice) as [[? ?]|]; [discriminate|].
    destruct (stringRegex slice) as [[? ?]|]; [discriminate|].
    destruct (numberRegex slice) as [[? ?]|]; [discriminate|].
    destruct (attributeRegex slice) as [[? ?]|]; [discriminate|].
    destruct (identifierRegex slice) as [[? ?]|]; [discriminate|].
    destruct (operatorRegex slice) as [[? ?]|]; [discriminate|].
    tauto.
  - intros (-> & -> & -> & -> & -> & -> & -> & ->). reflexivity.
Qed.

(** The pieces of a scan are lexemes that make up what was passed. *)
Lemma scans_covers (kw bi : string -> bool) (slice : string) (segs : list Segment)
  (rest : string) :
  scans kw bi slice segs rest ->
  concatSegments segs ++ rest = slice /\ Forall (segmentLexeme kw bi) segs.
Proof.
  induction 1 as [slice | slice seg next segs rest Hm _ [IH1 IH2]].
  - split; [reflexivity | constructor].
  - destruct (grammarMatch_spec _ _ _ _ _ Hm) as (Hs & _ & Hl).
    split; [|now constructor].
    cbn [concatSegments]. now rewrite append_assoc, IH1.
Qed.

(** A scan can stop at one place only. *)
Lemma scans_unique (kw bi : string -> bool) (slice : string)
  (segs1 : list Segment) (rest1 : string) :
  scans kw bi slice segs1 rest1 -> noGrammarMatches rest1 ->
  forall segs2 rest2,
  scans kw bi slice segs2 rest2 -> noGrammarMatches rest2 ->
  segs2 = segs1 /\ rest2 = rest1.
Proof.
  induction 1 as [slice | slice seg next segs rest Hm _ IH];
    intros Hstop segs2 rest2 H2 Hstop2.
  - destruct H2 as [slice | slice seg next segs rest Hm _]; [now split|].
    apply (proj2 (grammarMatch_None kw bi _)) in Hstop. congruence.
  - destruct H2 as [slice | slice seg2 next2 segs2 rest2 Hm2 H2].
    + apply (proj2 (grammarMatch_None kw bi _)) in Hstop2. congruence.
    + rewrite Hm in Hm2. injection Hm2 as <- <-.
      destruct (IH Hstop _ _ H2 Hstop2) as [-> ->]. now split.
Qed.

Lemma tokenizeLoop_scans (kw bi : string -> bool) :
  forall fuel slice index tokens,
  String.length slice < fuel ->
  exists segs rest,
    scans kw bi slice segs rest /\ noGrammarMatches rest /\
    tokenizeLoop kw bi fuel slice index tokens
    = match rest with
      | "" => Some (Return (tokens ++ emittedTokens segs)%list)
      | String c _ =>
          Some (Throw (unexpectedCharacter
                         (index + String.length (concatSegments segs)) c))
      end.
Proof.
  induction fuel as [|fuel IH]; intros slice index tokens Hfuel; [lia|].
  destruct slice as [|c0 s0].
  { exists [], "". split; [constructor|]. split.
    - unfold noGrammarMatches. repeat split; reflexivity.
    - cbn [tokenizeLoop emittedTokens]. now rewrite app_nil_r. }
  rewrite tokenizeLoop_step.
  destruct (grammarMatch kw bi (String c0 s0)) as [[seg next]|] eqn:Hm.
  - destruct (grammarMatch_spec _ _ _ _ _ Hm) as (Hs & Hne & _).
    apply isEmpty_false in Hne.
    assert (Hlen : String.length next < fuel).
    { rewrite Hs, length_append in Hfuel. lia. }
    destruct (IH next (index + String.length (segmentText seg))
                (tokens ++ emittedTokens [seg])%list Hlen)
      as (segs & rest & Hscan & Hstop & Hrun).
    exists (seg :: segs), rest. split; [econstructor; eauto|].
    split; [exact Hstop|]. rewrite Hrun.
    destruct rest as [|c r].
    + rewrite <- app_assoc. do 3 f_equal. destruct seg; reflexivity.
    + cbn [concatSegments]. now rewrite length_append, Nat.add_assoc.
  - exists [], (String c0 s0). split; [constructor|].
    split; [exact (proj1 (grammarMatch_None kw bi _) Hm)|].
    cbn [concatSegments String.length]. now rewrite Nat.add_0_r.
Qed.

(** C9.  For every input the tokenizer (with any keyword and builtin
    sets) terminates, and what it does is fixed by the scan of the input,
    which takes at each position the match of the first token grammar
    that matches: the scan cuts the input into consecutive pieces, each
    a skipped run of white space, a skipped comment or the text of one
    emitted token that is a complete lexeme of its class, and it stops at
    one place only, where no grammar matches.  When that place is the end
    of the input, the tokenizer returns the emitted tokens in order; when
    it is before a character, the tokenizer throws the error that names
    that character and its position, and returns no tokens. *)
Theorem tokenizeWgsl_covers_or_reports (kw bi : string -> bool) (code : string) :
  exists segs rest,
    scans kw bi code segs rest /\
    concatSegments segs ++ rest = code /\
    Forall (segmentLexeme kw bi) segs /\
    noGrammarMatches rest /\
    (forall segs' rest',
        scans kw bi code segs' rest' -> noGrammarMatches rest' ->
        segs' = segs /\ rest' = rest) /\
    match rest with
    | "" => tokenizeWgsl kw bi code = Some (Return (emittedTokens segs))
    | String c _ =>
        String.get (String.length (concatSegments segs)) code = Some c /\
        tokenizeWgsl kw bi code
        = Some (Throw (Error ("Unexpected character at position "
                                ++ decimal (String.length (concatSegments segs))
                                ++ ": " ++ str c)))
    end.
Proof.
  destruct (tokenizeLoop_scans kw bi (S (String.length code)) code 0 []
              ltac:(lia)) as (segs & rest & Hscan & Hstop & Hrun).
  destruct (scans_covers _ _ _ _ _ Hscan) as [Hcover Hlex].
  exists segs, rest. repeat (split; [assumption|]).
  split; [exact (scans_unique _ _ _ _ _ Hscan Hstop)|].
  unfold tokenizeWgsl. rewrite Hrun. destruct rest as [|c r]; [reflexivity|].
  split; [|reflexivity].
  rewrite <- Hcover, <- (Nat.add_0_r (String.length (concatSegments segs))).
  now rewrite get_append_r.
Qed.

(** A comment is skipped whole, so the quote behind it is met by the
    scan, and the tokenizer throws there, although the same text could be
    cut into operators and a string. *)
Example tokenizeWgsl_reports_after_comment :
  tokenizeWgsl (setHas wgslKeywords) (fun _ => false)
    ("x /*" ++ quoted "*/" ++ " y")
  = Some (Throw (Error ("Unexpected character at position 7: " ++ str dquote))).
Proof. vm_compute. reflexivity. Qed.

(** ** Invocations and their argument counts *)

(** The argument loop passes over a piece that is the text of an
    argument and is back at the depth of the argument list behind it. *)
Lemma parseArgs_piece (k : nat) :
  forall piece d rest args cur,
  argumentText d piece = true ->
  parseArgs k (piece ++ rest) args cur (S d)
  = parseArgs k rest args (cur ++ piece) 1.
Proof.
  induction piece as [|c r IH]; intros d rest args cur H; cbn [argumentText] in H.
  - apply Nat.eqb_eq in H. subst. now rewrite append_nil_r.
  - cbn [append parseArgs].
    replace (cur ++ String c r) with ((cur ++ str c) ++ r)
      by (now rewrite append_assoc).
    destruct (isChar "(" c); [now apply IH|].
    destruct (isChar ")" c).
    { destruct d as [|d]; [discriminate|]. now apply IH. }
    destruct (isChar "," c).
    + apply andb_true_iff in H as [Hd H]. destruct d as [|d]; [discriminate|].
      cbn [andb Nat.eqb]. now apply IH.
    + cbn [andb]. now apply IH.
Qed.

Lemma parseArgs_rest (k : nat) :
  forall others piece after args,
  0 < List.length args ->
  forallb isArgument (piece :: others) = true ->
  parseArgs k (join "," (piece :: others) ++ ")" ++ after) args "" 1
  = ((args ++ map trim (piece :: others))%list, after).
Proof.
  induction others as [|q others IH]; intros piece after args Hargs Hall;
    cbn [forallb] in Hall; apply andb_true_iff in Hall as [Hp Hall].
  - cbn [join]. rewrite (parseArgs_piece k piece 0 _ args "" Hp).
    cbn [append parseArgs].
    change (isChar "(" ")") with false. change (isChar ")" ")") with true.
    cbn iota. rewrite (proj2 (Nat.ltb_lt _ _) Hargs), orb_true_r. reflexivity.
  - change (join "," (piece :: q :: others))
      with (piece ++ "," ++ join "," (q :: others)).
    rewrite !append_assoc, (parseArgs_piece k piece 0 _ args "" Hp).
    cbn [append parseArgs].
    change (isChar "(" ",") with false. change (isChar ")" ",") with false.
    change (isChar "," ",") with true. cbn [andb Nat.eqb]. cbn iota.
    change (String ")" after) with (")" ++ after).
    rewrite IH; [|unfold push; rewrite length_app; cbn; lia | exact Hall].
    unfold push. now rewrite <- app_assoc.
Qed.

(** The arguments read from an invocation written as pieces between
    commas. *)
Lemma parseArgs_pieces (k : nat) (first : string) (others : list string)
  (after : string) :
  forallb isArgument (first :: others) = true ->
  parseArgs k (join "," (first :: others) ++ ")" ++ after) [] "" 1
  = (parsedArguments k (first :: others), after).
Proof.
  intro Hall. destruct others as [|q others].
  - cbn [forallb] in Hall. apply andb_true_iff in Hall as [Hp _].
    cbn [join]. rewrite (parseArgs_piece k first 0 _ [] "" Hp).
    cbn [append parseArgs].
    change (isChar "(" ")") with false. change (isChar ")" ")") with true.
    cbn iota. cbn [List.length Nat.ltb Nat.leb orb parsedArguments].
    rewrite orb_false_r.
    destruct (isEmpty (trim first)), (k =? 1)%nat; reflexivity.
  - pose proof Hall as Hall'. cbn [forallb] in Hall.
    apply andb_true_iff in Hall as [Hp Hrest].
    change (join "," (first :: q :: others))
      with (first ++ "," ++ join "," (q :: others)).
    rewrite !append_assoc, (parseArgs_piece k first 0 _ [] "" Hp).
    cbn [append parseArgs].
    change (isChar "(" ",") with false. change (isChar ")" ",") with false.
    change (isChar "," ",") with true. cbn [andb Nat.eqb]. cbn iota.
    change (String ")" after) with (")" ++ after).
    rewrite parseArgs_rest; [reflexivity | cbn; lia | exact Hrest].
Qed.

Lemma expandLoop_S (n : nat) (macros : list (string * Macro)) (result : string) :
  expandLoop (S n) macros result
  = (r <- macroPass macros result false ;;
     if snd r then expandLoop n macros (fst r) else Return (fst r)).
Proof. reflexivity. Qed.

(** Macros that are not expanded in the text, so that they leave it
    and the flag [changed] as they are, do not count in a pass. *)
Lemma macroPass_neutral :
  forall earlier l s c s',
  macroPass earlier s c = Return (s', false) ->
  macroPass (earlier ++ l)%list s c = macroPass l s' false.
Proof.
  induction earlier as [|[name macro] earlier IH]; intros l s c s' H.
  - cbn [macroPass] in H. injection H as <- <-. reflexivity.
  - cbn [app macroPass] in H |- *.
    destruct (params macro) as [ps|].
    + destruct (expandFunctionLike name (macroValue macro) ps s) as [r|e];
        cbn [bind] in H |- *; [|discriminate].
      destruct (snd r); [discriminate | now apply IH].
    + destruct (isDefinedRegex name s || isDefinedInPreprocessorRegex name s);
        [now apply IH|].
      destruct (singleLetter name) as [letter|].
      * destruct (replaceLetterLoop letter (macroValue macro) true 0 s)
          as [newResult any]. now apply IH.
      * destruct (replaceWord name (fun _ _ => macroValue macro) s)
          as [newResult any].
        destruct (negb (String.eqb newResult s)); [discriminate | now apply IH].
Qed.

(** What the scan does at an invocation written as pieces between
    commas. *)
Lemma expandCalls_invocation (name body : string) (parameters : list string)
  (s before after first : string) (others : list string) (fuel : nat) :
  findCall name false s
  = Some (before, join "," (first :: others) ++ ")" ++ after) ->
  forallb isArgument (first :: others) = true ->
  let k := List.length parameters in
  let args := parsedArguments k (first :: others) in
  expandCalls (S fuel) name body parameters false s
  = if (List.length args =? k)%nat then
      (r <- expandCalls fuel name body parameters false after ;;
       Return (before ++ substituteParams parameters args body ++ fst r, true))
    else Throw (arityError name k (List.length args)).
Proof.
  intros Hfind Hall k args. cbn [expandCalls].
  rewrite Hfind, (parseArgs_pieces _ _ _ _ Hall). fold k args.
  now destruct (List.length args =? k)%nat.
Qed.





(** ** Definitions, and when their macros are resolved *)

(** C5, as amended.  When [#define name rhs] is processed while
    including, for an object-like macro whose name does not occur in the
    directive line before its own position, the stored value is the
    trimmed right-hand side expanded once by [expandMacros] against the
    table as it is at that point (the empty right-hand side is stored as
    the empty text).  A function-like macro is stored with its body as
    written, unexpanded, and the macros used in the body are resolved
    when the macro is used: in a table whose names are identifiers, an
    invocation that the expansion reaches (no macro processed before this
    one is expanded in the line, and the invocation is the only one of the
    macro in the line) is replaced by the stored
    body with the arguments substituted, and the line that results is
    expanded again against the table of that moment. *)
Theorem object_like_define_stores_expansion
  (js_eval : Eval) (line sp name tail : string) (st : State) :
  let directiveLine := "#define" ++ sp ++ name ++ tail in
  directiveLineOf line = Some directiveLine ->
  isEmpty sp = false -> forallChars isSpace sp = true ->
  identifierRegex name = Some (name, "") ->
  firstIsWord tail = false ->
  indexOf directiveLine name = Some (String.length ("#define" ++ sp)) ->
  functionLikeRegex directiveLine = None ->
  isCurrentlyIncluding (conditionalStack st) = true ->
  let rhs := trim tail in
  processLine js_eval line st
  = (expandedValue <-
       (if isEmpty rhs then Return "" else expandMacros rhs (defines st)) ;;
     Return (mkState (conditionalStack st)
               (JsMap.set (defines st) name (mkMacro expandedValue None))
               (resultLines st)))
  /\
  (forall functionLine functionName parameters body table,
      functionLikeRegex functionLine = Some (functionName, parameters, body) ->
      processDefine functionLine table
      = Return (JsMap.set table functionName (mkMacro body (Some parameters))))
  /\
  (forall functionName parameters body useTable earlier later
          useLine s literals before after first others,
      tableOfIdentifiers useTable = true ->
      sortMacros useTable
      = (earlier ++ (functionName, mkMacro body (Some parameters)) :: later)%list ->
      protectStrings useLine = (s, literals) ->
      macroPass earlier s false = Return (s, false) ->
      findCall functionName false s
      = Some (before, join "," (first :: others) ++ ")" ++ after) ->
      forallb isArgument (first :: others) = true ->
      findCall functionName false after = None ->
      let args := parsedArguments (List.length parameters) (first :: others) in
      List.length args = List.length parameters ->
      expandMacros useLine useTable
      = (result <-
           expandLoop 99 (sortMacros useTable)
             (before ++ substituteParams parameters args body ++ after) ;;
         Return (restoreStrings 0 literals result))).
Proof.
  intros directiveLine Hline Hsp Hspaces Hname Htail Hindex Hfun Hincl rhs.
  split; [|split].
  3:{ intros functionName parameters body useTable earlier later useLine s
        literals before after first others _ Hsort Hprotect Hearlier Hfind Hall
        Hlast args Hcount.
      unfold expandMacros. rewrite Hprotect, Hsort.
      change MAX_ITERATIONS with (S 99). rewrite (expandLoop_S 99).
      rewrite (macroPass_neutral _ _ _ _ _ Hearlier).
      cbn [macroPass params macroValue]. unfold expandFunctionLike.
      rewrite (expandCalls_invocation _ _ _ _ _ _ _ _ _ Hfind Hall).
      fold args. rewrite Hcount, Nat.eqb_refl.
      assert (Hrest : expandCalls (String.length s) functionName body parameters
                        false after = Return (after, false)).
      { destruct (String.length s); cbn [expandCalls]; [reflexivity|].
        now rewrite Hlast. }
      rewrite Hrest. reflexivity. }
  - pose proof (keywordMatch_define sp name tail Hsp Hspaces Hname) as Hkw.
    fold directiveLine in Hkw.
    unfold processLine, processDirective, classify.
    rewrite Hline, Hkw, Hincl. unfold processDefine, macroNameMatch.
    rewrite Hfun, Hkw, (identifierRegex_before name tail Hname Htail).
    unfold objectLikeValue. rewrite Hindex.
    assert (Hdrop : drop (String.length ("#define" ++ sp) + String.length name)
                      directiveLine = tail).
    { unfold directiveLine.
      replace ("#define" ++ sp ++ name ++ tail)
        with ((("#define" ++ sp) ++ name) ++ tail) by now rewrite !append_assoc.
      rewrite <- length_append. apply drop_length_append. }
    rewrite Hdrop. fold rhs.
    destruct (isEmpty rhs); [reflexivity|].
    destruct (expandMacros rhs (defines st)); reflexivity.
  - intros functionLine functionName parameters body table H.
    unfold processDefine. now rewrite H.
Qed.

(** With [A] defined as 1, [#define B A + 1] stores 1 + 1; and [F(x)],
    stored as [x + N], gives 1 + 2 for [F(1)] once [N] is 2. *)
Lemma object_like_define_stores_expansion_witness :
  processLine evalUnused "#define B A + 1"
    (mkState [] [("A", mkMacro "1" None)] [])
  = Return (mkState []
              [("A", mkMacro "1" None); ("B", mkMacro "1 + 1" None)] [])
  /\
  expandMacros "F(1)" [("N", mkMacro "2" None); ("F", mkMacro "x + N" (Some ["x"]))]
  = Return "1 + 2".
Proof.
  split.
  - exact (proj1 (object_like_define_stores_expansion evalUnused
                    "#define B A + 1" " " "B" " A + 1"
                    (mkState [] [("A", mkMacro "1" None)] [])
                    eq_refl eq_refl eq_refl eq_refl eq_refl eq_refl eq_refl eq_refl)).
  - exact (proj2 (proj2 (object_like_define_stores_expansion evalUnused
                    "#define B A + 1" " " "B" " A + 1"
                    (mkState [] [("A", mkMacro "1" None)] [])
                    eq_refl eq_refl eq_refl eq_refl eq_refl eq_refl eq_refl eq_refl))
             "F" ["x"] "x + N"
             [("N", mkMacro "2" None); ("F", mkMacro "x + N" (Some ["x"]))]
             [("N", mkMacro "2" None)] [] "F(1)" "F(1)" [] "" "" "1" []
             eq_refl eq_refl eq_refl eq_refl eq_refl eq_refl eq_refl eq_refl).
Defined.

(** C5, as stated, fails for function-like macros: after [#define A 1],
    the definition [#define F(x) A + x] stores the body [A + x], although
    expanding that text against the table gives 1 + x. *)
Lemma function_like_define_is_stored_unexpanded :
  exists st,
    processLines evalUnused ["#define A 1"; "#define F(x) A + x"]
      (mkState [] [] []) = Return st /\
    isCurrentlyIncluding (conditionalStack st) = true /\
    JsMap.get (defines st) "F" = Some (mkMacro "A + x" (Some ["x"])) /\
    expandMacros "A + x" [("A", mkMacro "1" None)] = Return "1 + x".
Proof.
  eexists. split; [vm_compute; reflexivity|].
  repeat split; vm_compute; reflexivity.
Qed.

(** The value of an object-like macro whose name occurs inside the word
    [#define] is cut out of the wrong place. *)
Example define_name_inside_keyword :
  processLine evalUnused "#define e 2"
    (mkState [] [] [])
  = Return (mkState [] [("e", mkMacro "fine e 2" None)] []).
Proof. vm_compute. reflexivity. Qed.

(** The two kinds of macro side by side: [G] keeps the value [N] had when
    [G] was defined, [F] takes the value [N] has when [F] is used. *)
Example function_like_body_is_resolved_at_use :
  processConditionals evalUnused
    ["#define N 1"; "#define G N"; "#define F(x) x + N";
     "#undef N"; "#define N 2"; "G"; "F(0)"] []
  = Return ["1"; "0 + 2"].
Proof. vm_compute. reflexivity. Qed.
